(** * The orchestrator core: state store, question store, supervisor, scheduler

  A shallow embedding of the TypeScript sources
    src/types.ts, src/state.ts, src/blocking.ts, src/github.ts,
    src/agents/base.ts, src/agents/po.ts, src/agents/tech-lead.ts,
    src/agents/dev.ts and src/orchestrator.ts
  followed by the properties of the specification that are stated about
  them and by further properties of the code.

  Conventions of the embedding.
  - A function that throws returns [result E A]; [Throw e] is the
    exception, [Ok a] the returned value.
  - [new Date().toISOString()] and [Date.now()] are inputs: every function
    that reads the clock takes the reading as an argument.
  - The file system is an explicit value that is passed in and, by the
    functions that write, returned.
  - A JavaScript string is the sequence of its code units; the embedding
    covers the code units below 256, one [ascii] each. *)

From Stdlib Require Import ZArith Lia Ascii DecimalString Sorted.
From Stdlib Require Import DecimalN DecimalPos.
From stdpp Require Import base list strings.

Local Open Scope Z_scope.

(** Outcome of a call that may throw. *)
Inductive result (E A : Type) : Type :=
| Ok (a : A)
| Throw (e : E).
Arguments Ok {E A} a.
Arguments Throw {E A} e.

Definition bind {E A B} (r : result E A) (k : A → result E B) : result E B :=
match r with
| Ok a => k a
| Throw e => Throw e
end.

#[global] Instance result_bind {E} : MBind (result E) := λ A B k r, bind r k.

(** ** src/types.ts *)
Module Types.

Inductive Phase :=
| init | po_conversation | tech_lead_design | dev_sessions | completed.

(** ["po" | "tech_lead" | "dev"], the non-null values of
    [BlockedState.blockedAgent]. *)
Inductive AgentType := agent_po | agent_tech_lead | agent_dev.

(** ["user" | "po" | "tech_lead"], the non-null values of
    [BlockedState.waitingFor]; also [QuestionRecipient] of blocking.ts. *)
Inductive Recipient := user | po | tech_lead.

Record BlockedState := {
  isBlocked : bool;
  blockedAgent : option AgentType;
  questionFile : option string;
  waitingFor : option Recipient;
}.

Inductive SessionStatus :=
| pending | running | blocked_session | completed_session.

Record DevSession := {
  area : string;
  tickets : list Z;
  status : SessionStatus;
}.

Record State := {
  phase : Phase;
  blocked : BlockedState;
  devSessions : list DevSession;
  currentAgent : option string;
  lastUpdated : string;
}.

Definition ORCHESTRATOR_DIR : string := ".orchestrator".

Global Instance Phase_eq_dec : EqDecision Phase.
Proof. solve_decision. Defined.
Global Instance AgentType_eq_dec : EqDecision AgentType.
Proof. solve_decision. Defined.
Global Instance Recipient_eq_dec : EqDecision Recipient.
Proof. solve_decision. Defined.
Global Instance SessionStatus_eq_dec : EqDecision SessionStatus.
Proof. solve_decision. Defined.

End Types.
Import Types.

(** ** src/state.ts *)
Module StateStore.

Definition VALID_TRANSITIONS (from : Phase) : list Phase :=
  match from with
  | init => [po_conversation]
  | po_conversation => [tech_lead_design]
  | tech_lead_design => [dev_sessions]
  | dev_sessions => [completed]
  | completed => []
  end.

(** The three messages a [StateError] is built with. *)
Inductive StateError :=
| InvalidPhaseTransition (from to : Phase)
| SessionAlreadyExists (a : string)
| SessionNotFound (a : string).

Definition createInitialState (now : string) : State :=
  {| phase := init;
     blocked := {| isBlocked := false; blockedAgent := None;
                   questionFile := None; waitingFor := None |};
     devSessions := [];
     currentAgent := None;
     lastUpdated := now |}.

Definition isValidTransition (from to : Phase) : bool :=
  bool_decide (to ∈ VALID_TRANSITIONS from).

Definition transitionPhase (now : string) (state : State) (newPhase : Phase)
  : result StateError State :=
  if negb (isValidTransition (phase state) newPhase) then
    Throw (InvalidPhaseTransition (phase state) newPhase)
  else
    Ok {| phase := newPhase;
          blocked := blocked state;
          devSessions := devSessions state;
          currentAgent := currentAgent state;
          lastUpdated := now |}.

(** [blockedAgent] and [waitingFor] have the nullable types of the
    [BlockedState] fields; [questionFile] is a [string]. *)
Definition setBlocked (now : string) (state : State)
    (agent : option AgentType) (file : string) (waiting : option Recipient)
  : State :=
  {| phase := phase state;
     blocked := {| isBlocked := true; blockedAgent := agent;
                   questionFile := Some file; waitingFor := waiting |};
     devSessions := devSessions state;
     currentAgent := currentAgent state;
     lastUpdated := now |}.

Definition clearBlocked (now : string) (state : State) : State :=
  {| phase := phase state;
     blocked := {| isBlocked := false; blockedAgent := None;
                   questionFile := None; waitingFor := None |};
     devSessions := devSessions state;
     currentAgent := currentAgent state;
     lastUpdated := now |}.

Definition setCurrentAgent (now : string) (state : State)
    (agent : option string) : State :=
  {| phase := phase state;
     blocked := blocked state;
     devSessions := devSessions state;
     currentAgent := agent;
     lastUpdated := now |}.

Definition withSessions (now : string) (state : State)
    (sessions : list DevSession) : State :=
  {| phase := phase state;
     blocked := blocked state;
     devSessions := sessions;
     currentAgent := currentAgent state;
     lastUpdated := now |}.

(** [state.devSessions.findIndex((s) => s.area === area)]; [None] is -1. *)
Definition findIndex (sessions : list DevSession) (a : string) : option nat :=
  fst <$> list_find (λ s, area s = a) sessions.

Definition addDevSession (now : string) (state : State)
    (a : string) (ts : list Z) : result StateError State :=
  match findIndex (devSessions state) a with
  | Some _ => Throw (SessionAlreadyExists a)
  | None =>
      let newSession := {| area := a; tickets := ts; status := pending |} in
      Ok (withSessions now state (devSessions state ++ [newSession]))
  end.

(** [Partial<Pick<DevSession, "tickets" | "status">>] *)
Record Updates := {
  new_tickets : option (list Z);
  new_status : option SessionStatus;
}.

(** [{ ...session, ...updates }] *)
Definition applyUpdates (s : DevSession) (u : Updates) : DevSession :=
  {| area := area s;
     tickets := default (tickets s) (new_tickets u);
     status := default (status s) (new_status u) |}.

Definition updateDevSession (now : string) (state : State)
    (a : string) (u : Updates) : result StateError State :=
  match findIndex (devSessions state) a with
  | None => Throw (SessionNotFound a)
  | Some i =>
      let updatedSessions := alter (λ s, applyUpdates s u) i (devSessions state) in
      Ok (withSessions now state updatedSessions)
  end.

Definition removeDevSession (now : string) (state : State) (a : string)
  : result StateError State :=
  match findIndex (devSessions state) a with
  | None => Throw (SessionNotFound a)
  | Some _ =>
      Ok (withSessions now state (filter (λ s, area s ≠ a) (devSessions state)))
  end.

Definition getDevSessionsByStatus (state : State) (st : SessionStatus)
  : list DevSession :=
  filter (λ s, status s = st) (devSessions state).

(** The mutating methods of [StateManager]: each replaces the held state
    by the result of the function of the same name (and saves it). *)
Inductive Operation :=
| transitionTo (newPhase : Phase)
| doSetBlocked (agent : option AgentType) (file : string)
               (waiting : option Recipient)
| doClearBlocked
| doSetCurrentAgent (agent : option string)
| doAddDevSession (a : string) (ts : list Z)
| doUpdateDevSession (a : string) (u : Updates)
| doRemoveDevSession (a : string).

Definition perform (now : string) (op : Operation) (state : State)
  : result StateError State :=
  match op with
  | transitionTo p => transitionPhase now state p
  | doSetBlocked ag f w => Ok (setBlocked now state ag f w)
  | doClearBlocked => Ok (clearBlocked now state)
  | doSetCurrentAgent ag => Ok (setCurrentAgent now state ag)
  | doAddDevSession a ts => addDevSession now state a ts
  | doUpdateDevSession a u => updateDevSession now state a u
  | doRemoveDevSession a => removeDevSession now state a
  end.

(** States a [StateManager] can hold, starting from [createInitialState],
    when every operation it performs satisfies [allowed]. An operation
    that throws leaves the held state as it was. *)
Inductive reachable (allowed : Operation → Prop) : State → Prop :=
| reachable_initial now :
    reachable allowed (createInitialState now)
| reachable_perform state op now state' :
    reachable allowed state →
    allowed op →
    perform now op state = Ok state' →
    reachable allowed state'.

Definition any_operation (op : Operation) : Prop := True.

(** [state.devSessions.find((s) => s.area === area) || null]; a session
    object is never falsy, so [||] passes a found session on. *)
Definition getDevSession (state : State) (a : string) : option DevSession :=
  snd <$> list_find (λ s, area s = a) (devSessions state).

(** [StateManager.isComplete()], on the held state. *)
Definition isComplete (state : State) : bool :=
  bool_decide (phase state = completed).

(** The state a [StateManager] holds after its methods are called one
    after the other, each with its clock reading: a method assigns the
    held state only after the function of the same name has returned, so a
    call that throws leaves it as it was. *)
Fixpoint callAll (ops : list (string * Operation)) (state : State) : State :=
  match ops with
  | [] => state
  | (now, op) :: rest =>
      match perform now op state with
      | Ok state' => callAll rest state'
      | Throw _ => callAll rest state
      end
  end.

End StateStore.

(** ** JavaScript strings

    The string methods and the regular-expression pieces the sources use, on
    code units below 256. *)
Module Js.

Definition LF : ascii := "010"%char.
Definition CR : ascii := "013"%char.

(** The string made of a line feed. *)
Definition nl : string := String LF "".

(** White space of [String.prototype.trim] and of the class [\s]: TAB, LF,
    VT, FF, CR, SPACE and NO-BREAK SPACE (the other members lie above 255). *)
Definition is_space (c : ascii) : bool :=
  match c with
  | "009" | "010" | "011" | "012" | "013" | " " | "160" => true
  | _ => false
  end%char.

(** Line terminators, which [.] does not match: LF and CR below 256. *)
Definition is_line_terminator (c : ascii) : bool :=
  match c with
  | "010" | "013" => true
  | _ => false
  end%char.

Definition is_digit (c : ascii) : bool :=
  match c with
  | "0" | "1" | "2" | "3" | "4" | "5" | "6" | "7" | "8" | "9" => true
  | _ => false
  end%char.

Definition isEmpty (s : string) : bool :=
  match s with
  | EmptyString => true
  | String _ _ => false
  end.

Fixpoint trimStart (s : string) : string :=
  match s with
  | EmptyString => EmptyString
  | String c r => if is_space c then trimStart r else s
  end.

Fixpoint trimEnd (s : string) : string :=
  match s with
  | EmptyString => EmptyString
  | String c r =>
      let r' := trimEnd r in
      if is_space c && isEmpty r' then EmptyString else String c r'
  end.

Definition trim (s : string) : string := trimEnd (trimStart s).

(** [toLowerCase] of one code unit: A-Z, and the Latin-1 capitals
    U+00C0-U+00DE except the multiplication sign U+00D7. *)
Definition lower (c : ascii) : ascii :=
  let n := N_of_ascii c in
  if ((65 <=? n) && (n <=? 90)
      || (192 <=? n) && (n <=? 222) && negb (n =? 215))%N
  then ascii_of_N (n + 32)
  else c.

Fixpoint toLowerCase (s : string) : string :=
  match s with
  | EmptyString => EmptyString
  | String c r => String (lower c) (toLowerCase r)
  end.

Definition startsWith (s pre : string) : bool := String.prefix pre s.

Fixpoint endsWith (s suf : string) : bool :=
  if String.eqb s suf then true
  else match s with
       | EmptyString => false
       | String _ r => endsWith r suf
       end.

Fixpoint includes (s sub : string) : bool :=
  if String.prefix sub s then true
  else match s with
       | EmptyString => false
       | String _ r => includes r sub
       end.

(** [s.split("\n")] *)
Fixpoint split (s : string) : list string :=
  match s with
  | EmptyString => [EmptyString]
  | String c r =>
      if Ascii.eqb c LF then EmptyString :: split r
      else match split r with
           | l :: ls => String c l :: ls
           | [] => [String c EmptyString]
           end
  end.

(** [lines.join("\n")] *)
Fixpoint join (lines : list string) : string :=
  match lines with
  | [] => EmptyString
  | [l] => l
  | l :: ls => l +:+ nl +:+ join ls
  end.

(** [s.replace(/\.md$/, r)]: the pattern matches at the end of the string
    only. *)
Fixpoint replace_md_at_end (s r : string) : string :=
  if String.eqb s ".md" then r
  else match s with
       | EmptyString => EmptyString
       | String c t => String c (replace_md_at_end t r)
       end.

(** [String(n)] for a non-negative integer. *)
Definition decimal (n : N) : string := NilZero.string_of_uint (N.to_uint n).

(** [s.padStart(3, "0")] *)
Definition padStart3 (s : string) : string :=
  match String.length s with
  | 0%nat => "000" +:+ s
  | 1%nat => "00" +:+ s
  | 2%nat => "0" +:+ s
  | _ => s
  end.

(** [parseInt(s, 10)] on a string of decimal digits. *)
Definition digit_value (c : ascii) : N := (N_of_ascii c - 48)%N.

Fixpoint parseDigits (acc : N) (s : string) : N :=
  match s with
  | EmptyString => acc
  | String c r => parseDigits (10 * acc + digit_value c)%N r
  end.

(** *** Regular-expression pieces

    A pattern is read left to right; each piece takes the rest of the
    subject and the matcher [k] of what follows in the pattern. *)

(** Equality of a subject code unit with an ASCII pattern character under
    the flag [i]: the two agree after a-z are mapped to A-Z (no code unit
    in 128..255 canonicalizes to an ASCII character). *)
Definition upper_ascii (c : ascii) : ascii :=
  let n := N_of_ascii c in
  if ((97 <=? n) && (n <=? 122))%N then ascii_of_N (n - 32) else c.

Definition eq_ignore_case (p c : ascii) : bool :=
  Ascii.eqb (upper_ascii p) (upper_ascii c).

(** A literal piece of the pattern, under the flag [i]. *)
Fixpoint literal {A} (lit : string) (k : string → option A) (s : string)
  : option A :=
  match lit with
  | EmptyString => k s
  | String p lit' =>
      match s with
      | String c r => if eq_ignore_case p c then literal lit' k r else None
      | EmptyString => None
      end
  end.

(** [\s*], greedy: take one more white-space unit if the rest of the
    pattern then still matches, otherwise stop here. *)
Fixpoint spaces {A} (k : string → option A) (s : string) : option A :=
  match s with
  | String c r =>
      if is_space c then
        match spaces k r with
        | Some x => Some x
        | None => k s
        end
      else k s
  | EmptyString => k s
  end.

(** [(.+)$]: the rest of the subject, not empty and free of line
    terminators, is the captured group. *)
Fixpoint no_line_terminator (s : string) : bool :=
  match s with
  | EmptyString => true
  | String c r => negb (is_line_terminator c) && no_line_terminator r
  end.

Definition group_to_end (s : string) : option string :=
  if negb (isEmpty s) && no_line_terminator s then Some s else None.

(** [(\d+)\.md$] *)
Fixpoint digits_then_md (seen : string) (s : string) : option string :=
  match s with
  | String c r =>
      if is_digit c then digits_then_md (seen +:+ String c EmptyString) r
      else if negb (isEmpty seen) && String.eqb s ".md" then Some seen
      else None
  | EmptyString => None
  end.

(** A literal piece of a pattern without the flag [i]. *)
Fixpoint exact {A} (lit : string) (k : string → option A) (s : string)
  : option A :=
  match lit with
  | EmptyString => k s
  | String p lit' =>
      match s with
      | String c r => if Ascii.eqb p c then exact lit' k r else None
      | EmptyString => None
      end
  end.

(** A capturing group [([...]+)] over the class [ok], greedy: [seen] is
    what the group holds so far, never empty; it takes one more code unit
    if the rest of the pattern then still matches, otherwise it stops. *)
Fixpoint class_more {A} (ok : ascii → bool) (k : string → string → option A)
    (seen s : string) : option A :=
  match s with
  | String c r =>
      if ok c then
        match class_more ok k (seen +:+ String c EmptyString) r with
        | Some x => Some x
        | None => k seen s
        end
      else k seen s
  | EmptyString => k seen s
  end.

Definition class_plus {A} (ok : ascii → bool) (k : string → string → option A)
    (s : string) : option A :=
  match s with
  | String c r => if ok c then class_more ok k (String c EmptyString) r else None
  | EmptyString => None
  end.

(** [(?:lit)?], greedy: with the literal first, then without. *)
Definition optional {A} (lit : string) (k : string → option A) (s : string)
  : option A :=
  match exact lit k s with
  | Some x => Some x
  | None => k s
  end.

(** [$] without the flag [m]. *)
Definition at_end {A} (x : A) (s : string) : option A :=
  if isEmpty s then Some x else None.

(** A pattern that is not anchored at the start is tried at each position
    of the subject, left to right. *)
Fixpoint search {A} (m : string → option A) (s : string) : option A :=
  match m s with
  | Some x => Some x
  | None =>
      match s with
      | String _ r => search m r
      | EmptyString => None
      end
  end.

(** [String(n)] and [`${n}`] for an integer [n]. *)
Definition integer (z : Z) : string :=
  if z <? 0 then "-" +:+ decimal (Z.to_N (- z)) else decimal (Z.to_N z).

(** [s.slice(n)] for a position [n] that is not negative. *)
Fixpoint slice (s : string) (n : nat) : string :=
  match n, s with
  | S n', String _ r => slice r n'
  | _, _ => s
  end.

(** [parts.join(sep)] *)
Fixpoint joinWith (sep : string) (parts : list string) : string :=
  match parts with
  | [] => EmptyString
  | [p] => p
  | p :: ps => p +:+ sep +:+ joinWith sep ps
  end.

End Js.

(** ** The file system

    The files the sources read and write, in the order in which a
    directory listing returns them. *)
Module Fs.

Record File := {
  path : string;
  mtimeMs : Z;
  content : string;
}.

Abbreviation FileSystem := (list File).

(** [path.join(dir, name)] for a [name] that is an entry of [dir]. *)
Definition join (dir name : string) : string := dir +:+ "/" +:+ name.

Definition existsSync (fs : FileSystem) (p : string) : bool :=
  bool_decide (p ∈ path <$> fs).

Definition lookupFile (fs : FileSystem) (p : string) : option File :=
  snd <$> list_find (λ f, path f = p) fs.

Definition readFileSync (fs : FileSystem) (p : string) : option string :=
  content <$> lookupFile fs p.

(** [fs.statSync(p).mtimeMs]; the sources stat only paths they have just
    listed. *)
Definition statMtimeMs (fs : FileSystem) (p : string) : Z :=
  from_option mtimeMs 0 (lookupFile fs p).

(** The name of [p] inside [dir], when [p] is an entry of [dir]. *)
Fixpoint entryName (dir p : string) : option string :=
  match dir, p with
  | EmptyString, String c name =>
      if Ascii.eqb c "/" && negb (Js.isEmpty name) && negb (Js.includes name "/")
      then Some name else None
  | String a dir', String b p' =>
      if Ascii.eqb a b then entryName dir' p' else None
  | _, _ => None
  end.

Definition readdirSync (fs : FileSystem) (dir : string) : list string :=
  omap (λ f, entryName dir (path f)) fs.

(** [fs.writeFileSync(p, data)] at clock reading [now]: an existing file is
    overwritten in place, a new one is listed last. *)
Definition writeFileSync (fs : FileSystem) (p data : string) (now : Z)
  : FileSystem :=
  let file := {| path := p; mtimeMs := now; content := data |} in
  if existsSync fs p
  then (λ f, if decide (path f = p) then file else f) <$> fs
  else fs ++ [file].

(** [fs.renameSync(from, to)]: the file keeps its content and time and
    replaces whatever was at [to]. *)
Definition renameSync (fs : FileSystem) (from to : string) : FileSystem :=
  (λ f, if decide (path f = from)
        then {| path := to; mtimeMs := mtimeMs f; content := content f |}
        else f)
  <$> filter (λ f, path f ≠ to ∨ path f = from) fs.

End Fs.

(** ** src/blocking.ts *)
Module Blocking.
Import Js.

Definition EXIT_CODES_SUCCESS : Z := 0.
Definition EXIT_CODES_ERROR : Z := 1.
Definition EXIT_CODES_BLOCKED : Z := 2.

Definition QUESTIONS_DIR : string := Fs.join ORCHESTRATOR_DIR "questions".

Record ParsedQuestion := {
  filePath : string;
  fromAgent : string;
  forRecipient : Recipient;
  context : string;
  question : string;
  options : list string;
  rawContent : string;
}.

Inductive BlockingError :=
| QuestionFileNotFound (file : string).

Definition isBlockedExitCode (exitCode : Z) : bool :=
  bool_decide (exitCode = EXIT_CODES_BLOCKED).

Definition isSuccessExitCode (exitCode : Z) : bool :=
  bool_decide (exitCode = EXIT_CODES_SUCCESS).

Definition isErrorExitCode (exitCode : Z) : bool :=
  bool_decide (exitCode = EXIT_CODES_ERROR).

(** [Array.prototype.sort(compare)] is a stable sort: for a comparator
    that orders by a key, elements with equal keys keep their order. The
    result is built by inserting each element, last to first, in front of
    the first element it does not have to follow. *)
Fixpoint insertSorted {A} (compare : A → A → Z) (x : A) (l : list A) : list A :=
  match l with
  | [] => [x]
  | y :: l' =>
      if 0 <? compare x y then y :: insertSorted compare x l' else x :: l
  end.

Definition sort {A} (compare : A → A → Z) (l : list A) : list A :=
  foldr (insertSorted compare) [] l.

Definition isQuestionFileName (f : string) : bool :=
  endsWith f ".md" && startsWith f "q-".

Definition listQuestionFiles (fs : Fs.FileSystem) : list string :=
  let files := Fs.readdirSync fs QUESTIONS_DIR in
  sort (λ a b, Fs.statMtimeMs fs b - Fs.statMtimeMs fs a)
       (Fs.join QUESTIONS_DIR <$> List.filter isQuestionFileName files).

Definition getResponseFilePath (questionFile : string) : string :=
  replace_md_at_end questionFile ".response".

Definition hasResponse (fs : Fs.FileSystem) (questionFile : string) : bool :=
  Fs.existsSync fs (getResponseFilePath questionFile).

Definition findLatestUnansweredQuestion (fs : Fs.FileSystem) : option string :=
  List.find (λ questionFile,
               negb (Fs.existsSync fs (getResponseFilePath questionFile)))
            (listQuestionFiles fs).

(** [f.match(/^q-(\d+)\.md$/)], the captured digits. *)
Definition matchQuestionNumber (f : string) : option string :=
  match f with
  | String "q" (String "-" r) => digits_then_md "" r
  | _ => None
  end.

(** Exact while the numbers stay below 2^53. *)
Definition generateQuestionFileName (fs : Fs.FileSystem) : string :=
  let files := Fs.readdirSync fs QUESTIONS_DIR in
  let questionNumbers := omap (λ f, parseDigits 0 <$> matchQuestionNumber f) files in
  let nextNumber :=
    match questionNumbers with
    | [] => 1%N
    | _ => (foldr N.max 0 questionNumbers + 1)%N
    end in
  let paddedNumber := padStart3 (decimal nextNumber) in
  Fs.join QUESTIONS_DIR ("q-" +:+ paddedNumber +:+ ".md").

(** [line.match(/^#\s*Question from:\s*(.+)$/i)], the captured group. *)
Definition fromMatch (line : string) : option string :=
  literal "#" (spaces (literal "Question from:" (spaces group_to_end))) line.

(** [line.match(/^##\s*For:\s*(.+)$/i)] *)
Definition forMatch (line : string) : option string :=
  literal "##" (spaces (literal "For:" (spaces group_to_end))) line.

(** [line.match(/^##\s*(.+)$/i)] *)
Definition sectionMatch (line : string) : option string :=
  literal "##" (spaces group_to_end) line.

(** The values of [currentSection] other than the empty string. *)
Inductive Section_ := in_context | in_question | in_options.

(** The local variables of [parseQuestionFile]. *)
Record Parser := {
  v_fromAgent : string;
  v_forRecipient : Recipient;
  v_context : string;
  v_question : string;
  v_options : list string;
  currentSection : option Section_;
  sectionContent : list string;
}.

Definition parserStart : Parser :=
  {| v_fromAgent := ""; v_forRecipient := user; v_context := "";
     v_question := ""; v_options := [];
     currentSection := None; sectionContent := [] |}.

Definition saveSection (p : Parser) : Parser :=
  let text := trim (join (sectionContent p)) in
  {| v_fromAgent := v_fromAgent p;
     v_forRecipient := v_forRecipient p;
     v_context :=
       match currentSection p with Some in_context => text | _ => v_context p end;
     v_question :=
       match currentSection p with Some in_question => text | _ => v_question p end;
     v_options :=
       match currentSection p with
       | Some in_options =>
           v_options p ++ List.filter (λ l, negb (isEmpty (trim l))) (split text)
       | _ => v_options p
       end;
     currentSection := currentSection p;
     sectionContent := [] |}.

(** The recipient a "For:" line names. *)
Definition recipientOf (group : string) : Recipient :=
  let recipient := toLowerCase (trim group) in
  if String.eqb recipient "user" then user
  else if String.eqb recipient "po" then po
  else if String.eqb recipient "tech_lead" then tech_lead
  else user.

(** The section a "##" header opens. *)
Definition sectionOf (group : string) : option Section_ :=
  let sectionName := toLowerCase (trim group) in
  if includes sectionName "context" then Some in_context
  else if includes sectionName "question" then Some in_question
  else if includes sectionName "option" then Some in_options
  else None.

(** Which of the three patterns, tried in the order of the loop body,
    matches a line. *)
Inductive LineKind :=
| FromLine (group : string)
| ForLine (group : string)
| HeaderLine (group : string)
| TextLine.

Definition lineKind (line : string) : LineKind :=
  match fromMatch line with
  | Some g => FromLine g
  | None =>
      match forMatch line with
      | Some g => ForLine g
      | None =>
          match sectionMatch line with
          | Some g => HeaderLine g
          | None => TextLine
          end
      end
  end.

(** One iteration of [for (const line of lines)]. *)
Definition parseLine (p : Parser) (line : string) : Parser :=
  match lineKind line with
  | FromLine g =>
      {| v_fromAgent := trim g;
         v_forRecipient := v_forRecipient p; v_context := v_context p;
         v_question := v_question p; v_options := v_options p;
         currentSection := currentSection p;
         sectionContent := sectionContent p |}
  | ForLine g =>
      {| v_fromAgent := v_fromAgent p;
         v_forRecipient := recipientOf g;
         v_context := v_context p;
         v_question := v_question p; v_options := v_options p;
         currentSection := currentSection p;
         sectionContent := sectionContent p |}
  | HeaderLine g =>
      let p' := saveSection p in
      {| v_fromAgent := v_fromAgent p';
         v_forRecipient := v_forRecipient p'; v_context := v_context p';
         v_question := v_question p'; v_options := v_options p';
         currentSection := sectionOf g;
         sectionContent := sectionContent p' |}
  | TextLine =>
      match currentSection p with
      | Some _ =>
          {| v_fromAgent := v_fromAgent p;
             v_forRecipient := v_forRecipient p; v_context := v_context p;
             v_question := v_question p; v_options := v_options p;
             currentSection := currentSection p;
             sectionContent := sectionContent p ++ [line] |}
      | None => p
      end
  end.

(** The loop over the lines and the final [saveSection()]. *)
Definition parseLines (lines : list string) : Parser :=
  saveSection (foldl parseLine parserStart lines).

Definition parseQuestionFile (fs : Fs.FileSystem) (file : string)
  : result BlockingError ParsedQuestion :=
  match Fs.readFileSync fs file with
  | None => Throw (QuestionFileNotFound file)
  | Some text =>
      let p := parseLines (split text) in
      Ok {| filePath := file;
            fromAgent := v_fromAgent p;
            forRecipient := v_forRecipient p;
            context := v_context p;
            question := v_question p;
            options := v_options p;
            rawContent := text |}
  end.

(** The temporary name of an atomic write, [`${file}.tmp.${Date.now()}`]. *)
Definition tempFileName (file : string) (now : Z) : string :=
  file +:+ ".tmp." +:+ decimal (Z.to_N now).

(** [writeFileSync(tempFile, content); renameSync(tempFile, file)] *)
Definition atomicWrite (fs : Fs.FileSystem) (file text : string) (now : Z)
  : Fs.FileSystem :=
  let tempFile := tempFileName file now in
  Fs.renameSync (Fs.writeFileSync fs tempFile text now) tempFile file.

(** [now] is the reading of [Date.now()], [answered] the one of
    [new Date().toISOString()]. *)
Definition writeResponse (fs : Fs.FileSystem) (now : Z) (answered : string)
    (questionFile response : string) : Fs.FileSystem * string :=
  let responseFile := getResponseFilePath questionFile in
  let text := "# Response" +:+ nl +:+ nl +:+ response +:+ nl +:+ nl
              +:+ "Answered: " +:+ answered +:+ nl in
  (atomicWrite fs responseFile text now, responseFile).

Inductive Routing := prompt_user | spawn_po | spawn_tech_lead.

Global Instance Routing_eq_dec : EqDecision Routing.
Proof. solve_decision. Defined.

Definition routeQuestion (parsedQuestion : ParsedQuestion) : Routing :=
  match forRecipient parsedQuestion with
  | user => prompt_user
  | po => spawn_po
  | tech_lead => spawn_tech_lead
  end.

Definition recipientName (r : Recipient) : string :=
  match r with
  | user => "user"
  | po => "po"
  | tech_lead => "tech_lead"
  end.

(** The lines [writeQuestionFile] pushes. *)
Definition questionLines (from : string) (to : Recipient)
    (ctx qn : string) (opts : list string) : list string :=
  [ "# Question from: " +:+ from; "";
    "## For: " +:+ recipientName to; "";
    "## Context"; ""; ctx; "";
    "## Question"; ""; qn ]
  ++ match opts with
     | [] => []
     | _ => [""; "## Options"; ""] ++ opts
     end.

Definition writeQuestionFile (fs : Fs.FileSystem) (now : Z)
    (from : string) (to : Recipient) (ctx qn : string) (opts : list string)
  : Fs.FileSystem * string :=
  let file := generateQuestionFileName fs in
  let text := join (questionLines from to ctx qn opts) +:+ nl in
  (atomicWrite fs file text now, file).

Definition getBlockedAgentType (agentName : string) : option AgentType :=
  let name := toLowerCase agentName in
  if includes name "po" then Some agent_po
  else if includes name "tech" || includes name "lead" then Some agent_tech_lead
  else if includes name "dev" then Some agent_dev
  else None.

(** The loop of [readResponse] over the lines that are left, with the
    value of [inResponse]: a line that starts with "# Response" sets the
    flag and is skipped, one that starts with "Answered:" ends the loop,
    any other line is pushed when the flag is set. *)
Fixpoint responseLines (inResponse : bool) (lines : list string) : list string :=
  match lines with
  | [] => []
  | line :: rest =>
      if startsWith line "# Response" then responseLines true rest
      else if startsWith line "Answered:" then []
      else if inResponse then line :: responseLines inResponse rest
      else responseLines inResponse rest
  end.

Definition readResponse (fs : Fs.FileSystem) (questionFile : string)
  : option string :=
  let responseFile := getResponseFilePath questionFile in
  if negb (Fs.existsSync fs responseFile) then None
  else
    match Fs.readFileSync fs responseFile with
    | None => None
    | Some text => Some (trim (join (responseLines false (split text))))
    end.

(** *** [BlockingHandler] *)

Definition handleAgentExit (fs : Fs.FileSystem) (exitCode : Z)
    (agentName : string) : option string :=
  if negb (isBlockedExitCode exitCode) then None
  else findLatestUnansweredQuestion fs.

(** What [promptUser] resolves with when the user types [answer]. *)
Definition promptUser (answer : string) : string := trim answer.

Record Processed := {
  routing : Routing;
  response : option string;
  responseFile : option string;
}.

(** [answer] is the line the user types if the question is put to the
    user; [now] and [answered] are the clock readings of [writeResponse]. *)
Definition processQuestion (fs : Fs.FileSystem) (now : Z) (answered : string)
    (questionFile answer : string)
  : result BlockingError (Fs.FileSystem * Processed) :=
  parsedQuestion ← parseQuestionFile fs questionFile;
  let routing := routeQuestion parsedQuestion in
  if bool_decide (routing = prompt_user) then
    let response := promptUser answer in
    let written := writeResponse fs now answered questionFile response in
    Ok (written.1, {| routing := routing; response := Some response;
                      responseFile := Some written.2 |})
  else
    Ok (fs, {| routing := routing; response := None; responseFile := None |}).

Definition getResponse : Fs.FileSystem → string → option string := readResponse.

Definition isAnswered : Fs.FileSystem → string → bool := hasResponse.

End Blocking.

(** ** src/agents/base.ts *)
Module Base.
Import Js.

(** Names of [NodeJS.Signals] the sources and their tests mention. *)
Inductive Signals :=
| SIGHUP | SIGINT | SIGQUIT | SIGABRT | SIGKILL | SIGSEGV | SIGPIPE | SIGTERM.

Global Instance Signals_eq_dec : EqDecision Signals.
Proof. solve_decision. Defined.

Inductive Stdio := inherit | pipe.

Record AgentConfig := {
  name : string;
  promptFile : string;
  context : string;
  stdio : Stdio;
}.

Record AgentResult := {
  exitCode : Z;
  stdout : string;
  stderr : string;
  killed : bool;
}.

Inductive AgentSpawnError :=
| AgentNameRequired
| PromptFilePathRequired
| PromptFileNotFound (file : string)
| FailedToSpawn (message : string).

(** The test on [config.stdio] cannot fail on a value of type [Stdio]. *)
Definition validateConfig (fs : Fs.FileSystem) (config : AgentConfig)
  : result AgentSpawnError () :=
  if isEmpty (trim (name config)) then Throw AgentNameRequired
  else if isEmpty (trim (promptFile config)) then Throw PromptFilePathRequired
  else if negb (Fs.existsSync fs (promptFile config))
       then Throw (PromptFileNotFound (promptFile config))
  else Ok ().

(** *** The child process

    What the sources read of Node's [ChildProcess]: the property [killed],
    which [kill()] sets when it delivers a signal, and whether the process
    has exited. [kill()] on a process that has exited delivers nothing and
    leaves [killed] as it is. *)
Record ChildProcess := {
  cp_killed : bool;
  cp_exited : bool;
}.

Definition ChildProcess_kill (childProcess : ChildProcess) : ChildProcess :=
  if cp_exited childProcess then childProcess
  else {| cp_killed := true; cp_exited := false |}.

(** The process ends, by itself or under a signal. *)
Definition ChildProcess_exit (childProcess : ChildProcess) : ChildProcess :=
  {| cp_killed := cp_killed childProcess; cp_exited := true |}.

(** The event that settles the [result] promise, and the output collected
    until then ([""] when [stdio] is ["inherit"]). *)
Inductive ChildEvent :=
| on_error (message : string)
| on_close (code : option Z) (signal : option Signals).

(** The listeners for "error" and "close". *)
Definition settle (childProcess : ChildProcess) (out err : string)
    (ev : ChildEvent) : result AgentSpawnError AgentResult :=
  match ev with
  | on_error message => Throw (FailedToSpawn message)
  | on_close code signal =>
      let exitCode :=
        match code with
        | Some c => c
        | None => if signal is Some _ then 1 else 0
        end in
      Ok {| exitCode := exitCode;
            stdout := out;
            stderr := err;
            killed := cp_killed childProcess || bool_decide (signal ≠ None) |}
  end.

(** *** The [kill] closure of a handle

    The closure runs against the child, the clock and the pending timers
    of the event loop. [calls] records every invocation of
    [childProcess.kill], with the clock reading at which it was made. The
    only timers of a handle are the ones [kill] sets, so a timer is its due
    time. *)
Record Runtime := {
  child : ChildProcess;
  clock : Z;
  timers : list Z;
  calls : list (Z * Signals);
}.

Definition GRACE_MS : Z := 5000.

(** [childProcess.kill(signal)], recorded. *)
Definition invokeKill (rt : Runtime) (signal : Signals) : Runtime :=
  {| child := ChildProcess_kill (child rt);
     clock := clock rt;
     timers := timers rt;
     calls := calls rt ++ [(clock rt, signal)] |}.

Definition setTimeout (rt : Runtime) (delay : Z) : Runtime :=
  {| child := child rt;
     clock := clock rt;
     timers := timers rt ++ [clock rt + delay];
     calls := calls rt |}.

Definition kill (rt : Runtime) : Runtime :=
  if negb (cp_killed (child rt)) then
    setTimeout (invokeKill rt SIGTERM) GRACE_MS
  else rt.

(** The callback [kill] hands to [setTimeout]. *)
Definition forceKill (rt : Runtime) : Runtime :=
  if negb (cp_killed (child rt)) then invokeKill rt SIGKILL else rt.

(** What can happen to a handle: its [kill] is called, time passes (and the
    callbacks that fall due run), the child exits. *)
Inductive Event :=
| CallKill
| Elapse (ms : N)
| ChildExits.

Definition setClock (rt : Runtime) (t : Z) : Runtime :=
  {| child := child rt; clock := t; timers := timers rt; calls := calls rt |}.

(** Each callback that falls due runs at its due time. *)
Definition advance (rt : Runtime) (ms : N) : Runtime :=
  let now := clock rt + Z.of_N ms in
  let due := List.filter (λ t, t <=? now) (timers rt) in
  let later := List.filter (λ t, negb (t <=? now)) (timers rt) in
  let rt' := {| child := child rt; clock := clock rt;
                timers := later; calls := calls rt |} in
  setClock (foldl (λ r t, forceKill (setClock r t)) rt' due) now.

Definition step (rt : Runtime) (ev : Event) : Runtime :=
  match ev with
  | CallKill => kill rt
  | Elapse ms => advance rt ms
  | ChildExits =>
      {| child := ChildProcess_exit (child rt); clock := clock rt;
         timers := timers rt; calls := calls rt |}
  end.

(** A handle as [spawnAgent] returns it, at clock reading [now]. *)
Definition spawned (now : Z) : Runtime :=
  {| child := {| cp_killed := false; cp_exited := false |};
     clock := now; timers := []; calls := [] |}.

Definition run (now : Z) (events : list Event) : Runtime :=
  foldl step (spawned now) events.

(** The handle of a spawned agent. The prompt and context strings only
    feed the argument list of the child and are left out. *)
Record AgentHandle := {
  handle_name : string;
}.

Definition spawnAgent (fs : Fs.FileSystem) (config : AgentConfig)
  : result AgentSpawnError AgentHandle :=
  _ ← validateConfig fs config;
  Ok {| handle_name := name config |}.

Definition isSuccess (r : AgentResult) : bool :=
  bool_decide (exitCode r = Blocking.EXIT_CODES_SUCCESS).

Definition isBlocked (r : AgentResult) : bool :=
  bool_decide (exitCode r = Blocking.EXIT_CODES_BLOCKED).

Definition isError (r : AgentResult) : bool :=
  bool_decide (exitCode r = Blocking.EXIT_CODES_ERROR).

Definition buildArgs (prompt context : string) : list string :=
  ["--prompt"; prompt]
  ++ (if negb (isEmpty context) && negb (isEmpty (trim context))
      then ["--context"; context] else []).

Definition getResultStatus (result : AgentResult) : string :=
  if killed result then "killed"
  else if bool_decide (exitCode result = Blocking.EXIT_CODES_SUCCESS) then "success"
  else if bool_decide (exitCode result = Blocking.EXIT_CODES_BLOCKED) then "blocked"
  else if bool_decide (exitCode result = Blocking.EXIT_CODES_ERROR) then "error"
  else "unknown (exit code: " +:+ integer (exitCode result) +:+ ")".

End Base.

(** ** src/github.ts

    The parts that compute: the two patterns of [parseRepoUrl], the retry
    loop around a call of the API, and the area names read off the labels
    of the repository. The calls of the API themselves are inputs. *)
Module GitHub.
Import Js.

Definition AREA_LABEL_PREFIX : string := "area:".

Definition RATE_LIMIT_RETRY_DELAY_MS : Z := 60000.
Definition RATE_LIMIT_MAX_RETRIES : nat := 3.

(** The classes [[^/]] and [[^/.]]. *)
Definition notSlash (c : ascii) : bool := negb (Ascii.eqb c "/").

Definition notSlashNorDot (c : ascii) : bool :=
  negb (Ascii.eqb c "/") && negb (Ascii.eqb c ".").

(** [repoUrl.match(/github\.com\/([^/]+)\/([^/.]+)(?:\.git)?$/)] for the
    separator "/" and
    [repoUrl.match(/github\.com:([^/]+)\/([^/.]+)(?:\.git)?$/)] for the
    separator ":"; the two captured groups. *)
Definition repoPattern (separator repoUrl : string) : option (string * string) :=
  search
    (exact ("github.com" +:+ separator)
       (class_plus notSlash (λ owner,
          exact "/"
            (class_plus notSlashNorDot (λ repo,
               optional ".git" (at_end (owner, repo)))))))
    repoUrl.

Inductive RepoUrlError :=
| InvalidRepositoryUrl (repoUrl : string).

Definition parseRepoUrl (repoUrl : string)
  : result RepoUrlError (string * string) :=
  match repoPattern "/" repoUrl with
  | Some httpsMatch => Ok httpsMatch
  | None =>
      match repoPattern ":" repoUrl with
      | Some sshMatch => Ok sshMatch
      | None => Throw (InvalidRepositoryUrl repoUrl)
      end
  end.

(** What the retry loop reads of the object a call of the API throws. *)
Record ApiError := {
  status : option Z;
  message : option string;
}.

(** What one call of [operation()] comes to. *)
Inductive Attempt (A : Type) :=
| Returns (a : A)
| Fails (error : ApiError).
Arguments Returns {A} a.
Arguments Fails {A} error.

(** What [withRateLimitRetry] throws: the error of the operation itself,
    or the error it builds after the last retry, with
    [lastError?.message]. *)
Inductive RetryError :=
| Rethrown (error : ApiError)
| RetriesExhausted (operationName : string) (lastMessage : option string).

(** The two tests of the [catch] block; both branches sleep and go on. *)
Definition isRateLimit (err : ApiError) : bool :=
  bool_decide (status err = Some 403)
  && match message err with
     | Some m => includes (toLowerCase m) "rate limit"
     | None => false
     end
  || bool_decide (status err = Some 429).

(** The outcome of [withRateLimitRetry], the number of calls of the
    operation it made and the time it slept, in milliseconds. *)
Record Retried (A : Type) := {
  outcome : result RetryError A;
  attempts : nat;
  slept : Z;
}.
Arguments outcome {A} r.
Arguments attempts {A} r.
Arguments slept {A} r.

(** The [for] loop with [remaining] iterations to go; [operation attempt]
    is what the call of the operation in iteration [attempt] comes to. *)
Fixpoint retryLoop {A} (operation : nat → Attempt A) (operationName : string)
    (remaining attempt : nat) (lastError : option ApiError) : Retried A :=
  match remaining with
  | O =>
      {| outcome := Throw (RetriesExhausted operationName (lastError ≫= message));
         attempts := 0; slept := 0 |}
  | S remaining' =>
      match operation attempt with
      | Returns a => {| outcome := Ok a; attempts := 1; slept := 0 |}
      | Fails error =>
          if isRateLimit error then
            let rest := retryLoop operation operationName remaining'
                          (S attempt) (Some error) in
            {| outcome := outcome rest;
               attempts := S (attempts rest);
               slept := RATE_LIMIT_RETRY_DELAY_MS + slept rest |}
          else {| outcome := Throw (Rethrown error); attempts := 1; slept := 0 |}
      end
  end.

Definition withRateLimitRetry {A} (operation : nat → Attempt A)
    (operationName : string) : Retried A :=
  retryLoop operation operationName RATE_LIMIT_MAX_RETRIES 0 None.

(** [`${AREA_LABEL_PREFIX}${area}`], the label [createIssue] attaches and
    [getIssuesByArea] asks for. *)
Definition areaLabel (area : string) : string := AREA_LABEL_PREFIX +:+ area.

(** [getAreas] on the names of the labels the API returns. *)
Definition getAreas (labelNames : list string) : list string :=
  (λ name, slice name (String.length AREA_LABEL_PREFIX))
  <$> List.filter (λ name, startsWith name AREA_LABEL_PREFIX) labelNames.

End GitHub.

(** ** src/agents/tech-lead.ts *)
Module TechLead.

Inductive IssueState := open | closed.

Global Instance IssueState_eq_dec : EqDecision IssueState.
Proof. solve_decision. Defined.

(** The fields of a GitHub [Issue] that the core reads. *)
Record Issue := {
  number : Z;
  state : IssueState;
}.

Record AreaWithIssues := {
  area : string;
  issues : list Issue;
  ticketNumbers : list Z;
}.

(** [getAreas()] and [getIssuesByArea(area)] are the answers of the
    issue tracker. *)
Definition parseAreasFromIssues (getAreas : list string)
    (getIssuesByArea : string → list Issue) : list AreaWithIssues :=
  omap (λ a,
          let openIssues := filter (λ i, state i = open) (getIssuesByArea a) in
          match openIssues with
          | [] => None
          | _ => Some {| area := a; issues := openIssues;
                         ticketNumbers := number <$> openIssues |}
          end)
       getAreas.

Definition areasToDevSessionInput (areasWithIssues : list AreaWithIssues)
  : list (string * list Z) :=
  (λ a, (area a, ticketNumbers a)) <$> areasWithIssues.

End TechLead.

(** ** src/agents/dev.ts *)
Module Dev.
Import Js.

Definition DEV_PROMPT_FILE : string := "prompts/dev.md".
Definition PRD_FILE : string := Fs.join ORCHESTRATOR_DIR "prd.md".
Definition ARCHITECTURE_FILE : string := Fs.join ORCHESTRATOR_DIR "architecture.md".

Inductive Status := success | blocked | error.

Global Instance Status_eq_dec : EqDecision Status.
Proof. solve_decision. Defined.

Record DevAgentResult := {
  area : string;
  agentResult : Base.AgentResult;
  status : Status;
  questionFile : option string;
  needsTechLead : bool;
}.

Record DevSessionInput := {
  input_area : string;
  input_tickets : list Z;
}.

Record RunDevSessionsOptions := {
  parallel : option bool;
  prdFile : option string;
  architectureFile : option string;
  promptFile : option string;
}.

Record DevSessionHandle := {
  handle_area : string;
  agentHandle : Base.AgentHandle;
  handle_tickets : list Z;
}.

Inductive DevAgentError :=
| AreaRequired
| TicketRequired
| DevPromptFileNotFound (file : string)
| PrdFileNotFound (file : string)
| ArchitectureFileNotFound (file : string).

(** Everything a call into this module can throw. *)
Inductive Failure :=
| DevFailure (e : DevAgentError)
| SpawnFailure (e : Base.AgentSpawnError)
| BlockingFailure (e : Blocking.BlockingError).

Definition lift {E A} (inj : E → Failure) (r : result E A) : result Failure A :=
  match r with
  | Ok a => Ok a
  | Throw e => Throw (inj e)
  end.

Definition checkBlockingForTechLead (fs : Fs.FileSystem)
  : result Blocking.BlockingError (option string * bool) :=
  match Blocking.findLatestUnansweredQuestion fs with
  | None => Ok (None, false)
  | Some file =>
      parsedQuestion ← Blocking.parseQuestionFile fs file;
      let routing := Blocking.routeQuestion parsedQuestion in
      Ok (Some file, bool_decide (routing = Blocking.spawn_tech_lead))
  end.

Definition toDevAgentResult (fs : Fs.FileSystem) (a : string)
    (r : Base.AgentResult) : result Blocking.BlockingError DevAgentResult :=
  if Base.isSuccess r then
    Ok {| area := a; agentResult := r; status := success;
          questionFile := None; needsTechLead := false |}
  else if Base.isBlocked r then
    blockingInfo ← checkBlockingForTechLead fs;
    Ok {| area := a; agentResult := r; status := blocked;
          questionFile := blockingInfo.1; needsTechLead := blockingInfo.2 |}
  else
    Ok {| area := a; agentResult := r; status := error;
          questionFile := None; needsTechLead := false |}.

(** The checks [runDevAgent] and [spawnDevAgent] share, up to and
    including the call of [spawnAgent].  The text [buildDevContext] makes of
    the two files and the tickets goes to the child only, and [spawnAgent]
    checks the name and the prompt file alone: the context is left empty. *)
Definition spawnDevAgent (fs : Fs.FileSystem) (options : RunDevSessionsOptions)
    (session : DevSessionInput) : result Failure DevSessionHandle :=
  let prd := default PRD_FILE (prdFile options) in
  let architecture := default ARCHITECTURE_FILE (architectureFile options) in
  let prompt := default DEV_PROMPT_FILE (promptFile options) in
  if isEmpty (trim (input_area session)) then Throw (DevFailure AreaRequired)
  else if bool_decide (input_tickets session = []) then Throw (DevFailure TicketRequired)
  else if negb (Fs.existsSync fs prompt)
       then Throw (DevFailure (DevPromptFileNotFound prompt))
  else if negb (Fs.existsSync fs prd) then Throw (DevFailure (PrdFileNotFound prd))
  else if negb (Fs.existsSync fs architecture)
       then Throw (DevFailure (ArchitectureFileNotFound architecture))
  else
    h ← lift SpawnFailure
          (Base.spawnAgent fs
             {| Base.name := "dev-" +:+ input_area session;
                Base.promptFile := prompt;
                Base.context := "";
                Base.stdio := Base.pipe |});
    Ok {| handle_area := input_area session;
          agentHandle := h;
          handle_tickets := input_tickets session |}.

(** How one spawned child ends: the state of the child and the output
    collected when the settling event arrives, the event, and the file
    system as it is when the result is converted. *)
Record Execution := {
  childAtEnd : Base.ChildProcess;
  out : string;
  err : string;
  ending : Base.ChildEvent;
  storeAtEnd : Fs.FileSystem;
}.

(** [agentHandle.result.then((r) => toDevAgentResult(area, r))] *)
Definition handleResult (h : DevSessionHandle) (e : Execution)
  : result Failure DevAgentResult :=
  r ← lift SpawnFailure (Base.settle (childAtEnd e) (out e) (err e) (ending e));
  lift BlockingFailure (toDevAgentResult (storeAtEnd e) (handle_area h) r).

(** [sessions.map((session) => spawnDevAgent(...))]: the first throw
    ends the map. *)
Fixpoint spawnAll (fs : Fs.FileSystem) (options : RunDevSessionsOptions)
    (sessions : list DevSessionInput) : result Failure (list DevSessionHandle) :=
  match sessions with
  | [] => Ok []
  | session :: rest =>
      h ← spawnDevAgent fs options session;
      hs ← spawnAll fs options rest;
      Ok (h :: hs)
  end.

(** What an [async] call has come to: a value, a throw, or neither yet. *)
Inductive Promise (A : Type) :=
| Resolved (a : A)
| Rejected (e : Failure)
| Pending.
Arguments Resolved {A} a.
Arguments Rejected {A} e.
Arguments Pending {A}.

(** [Promise.all(handles.map((h) => h.result))]: the children settle in the
    order [settled] (positions in [handles]); each value is stored at the
    position of its promise, the first rejection rejects the whole, and the
    whole resolves once every position holds a value. *)
Fixpoint promiseAll (handles : list DevSessionHandle) (runs : list Execution)
    (settled : list nat) (values : list (option DevAgentResult))
  : Promise (list DevAgentResult) :=
  match settled with
  | [] =>
      match mapM id values with
      | Some results => Resolved results
      | None => Pending
      end
  | i :: later =>
      match handles !! i, runs !! i with
      | Some h, Some e =>
          match handleResult h e with
          | Ok d => promiseAll handles runs later (<[i := Some d]> values)
          | Throw f => Rejected f
          end
      | _, _ => promiseAll handles runs later values
      end
  end.

(** The sequential branch: spawn, await and convert one session after the
    other. The file system a session is checked against is the one the
    previous session left. *)
Fixpoint runSequentially (fs : Fs.FileSystem) (options : RunDevSessionsOptions)
    (sessions : list DevSessionInput) (runs : list Execution)
  : Promise (list DevAgentResult) :=
  match sessions with
  | [] => Resolved []
  | session :: rest =>
      match spawnDevAgent fs options session with
      | Throw f => Rejected f
      | Ok h =>
          match runs with
          | [] => Pending
          | e :: runs' =>
              match handleResult h e with
              | Throw f => Rejected f
              | Ok d =>
                  match runSequentially (storeAtEnd e) options rest runs' with
                  | Resolved ds => Resolved (d :: ds)
                  | Rejected f => Rejected f
                  | Pending => Pending
                  end
              end
          end
      end
  end.

(** [runs] tells how the child of each session ends, [settled] in which
    order the children of the parallel branch settle. *)
Definition runDevSessions (fs : Fs.FileSystem) (sessions : list DevSessionInput)
    (options : RunDevSessionsOptions)
    (runs : list Execution) (settled : list nat)
  : Promise (list DevAgentResult) :=
  match sessions with
  | [] => Resolved []
  | _ =>
      if default true (parallel options) then
        match spawnAll fs options sessions with
        | Throw f => Rejected f
        | Ok handles =>
            promiseAll handles runs settled (replicate (length handles) None)
        end
      else runSequentially fs options sessions runs
  end.

(** An [additionalContext] that is given and not blank. *)
Definition additionalParts (additionalContext : option string) : list string :=
  match additionalContext with
  | Some extra =>
      if negb (isEmpty extra) && negb (isEmpty (trim extra))
      then [""; "# Additional Context"; ""; extra] else []
  | None => []
  end.

Definition buildDevContext (a : string) (ts : list Z)
    (prdContent architectureContent : string)
    (additionalContext : option string) : string :=
  join ([ "# Your Assignment"; "";
          "Area: " +:+ a;
          "Tickets: " +:+ joinWith ", " ((λ t, "#" +:+ integer t) <$> ts);
          ""; "# PRD (Product Requirements Document)"; ""; prdContent;
          ""; "# Architecture"; ""; architectureContent ]
        ++ additionalParts additionalContext).

(** [spawnDevSessions], with the names of the children it has spawned
    when it returns or throws: [sessions.map] calls [spawnDevAgent] on one
    session after the other, and a throw ends the map without a handle to
    the children spawned before it. *)
Fixpoint spawnDevSessions (fs : Fs.FileSystem) (options : RunDevSessionsOptions)
    (sessions : list DevSessionInput)
  : list string * result Failure (list DevSessionHandle) :=
  match sessions with
  | [] => ([], Ok [])
  | session :: rest =>
      match spawnDevAgent fs options session with
      | Throw f => ([], Throw f)
      | Ok h =>
          let later := spawnDevSessions fs options rest in
          (Base.handle_name (agentHandle h) :: later.1,
           match later.2 with
           | Ok hs => Ok (h :: hs)
           | Throw f => Throw f
           end)
      end
  end.

Definition getBlockedSessionForTechLead (results : list DevAgentResult)
  : option DevAgentResult :=
  List.find (λ r, bool_decide (status r = blocked) && needsTechLead r) results.

Definition allSessionsCompleted (results : list DevAgentResult) : bool :=
  forallb (λ r, bool_decide (status r = success)) results.

Definition getSessionsByStatus (results : list DevAgentResult) (st : Status)
  : list DevAgentResult :=
  List.filter (λ r, bool_decide (status r = st)) results.

End Dev.

(** ** src/agents/po.ts *)
Module PO.
Import Js.

Definition PO_PROMPT_FILE : string := "prompts/po.md".
Definition PRD_OUTPUT_FILE : string := Fs.join ORCHESTRATOR_DIR "prd.md".
Definition README_FILE : string := "README.md".

Record POAgentConfig := {
  readmeFile : option string;
  promptFile : option string;
  additionalContext : option string;
}.

(** [status] is one of the three strings of [DevAgentResult]. *)
Record POAgentResult := {
  agentResult : Base.AgentResult;
  prdCreated : bool;
  prdPath : option string;
  status : Dev.Status;
}.

Inductive POAgentError :=
| POPromptFileNotFound (file : string)
| ReadmeFileNotFound (file : string).

Inductive Failure :=
| POFailure (e : POAgentError)
| SpawnFailure (e : Base.AgentSpawnError).

Definition readReadmeFile (fs : Fs.FileSystem) (readmeFile : string)
  : result POAgentError string :=
  match Fs.readFileSync fs readmeFile with
  | None => Throw (ReadmeFileNotFound readmeFile)
  | Some text => Ok text
  end.

Definition buildPOContext (readmeContent : string)
    (additionalContext : option string) : string :=
  join (["# README"; ""; readmeContent] ++ Dev.additionalParts additionalContext).

Definition checkPRDCreated (fs : Fs.FileSystem) (prdPath : string) : bool :=
  Fs.existsSync fs prdPath.

Definition readPRD (fs : Fs.FileSystem) (prdPath : string) : option string :=
  if negb (Fs.existsSync fs prdPath) then None else Fs.readFileSync fs prdPath.

(** The checks of [runPOAgent] and [spawnPOAgent] up to the call of
    [spawnAgent], with the configuration they hand to it. *)
Definition agentConfig (fs : Fs.FileSystem) (config : POAgentConfig)
  : result Failure Base.AgentConfig :=
  let readme := default README_FILE (readmeFile config) in
  let prompt := default PO_PROMPT_FILE (promptFile config) in
  if negb (Fs.existsSync fs prompt)
  then Throw (POFailure (POPromptFileNotFound prompt))
  else
    match readReadmeFile fs readme with
    | Throw e => Throw (POFailure e)
    | Ok readmeContent =>
        Ok {| Base.name := "po";
              Base.promptFile := prompt;
              Base.context := buildPOContext readmeContent (additionalContext config);
              Base.stdio := Base.inherit |}
    end.

Definition spawnPOAgent (fs : Fs.FileSystem) (config : POAgentConfig)
  : result Failure Base.AgentHandle :=
  c ← agentConfig fs config;
  match Base.spawnAgent fs c with
  | Ok h => Ok h
  | Throw e => Throw (SpawnFailure e)
  end.

(** [runPOAgent]: [fs] is the store when the agent is spawned, [e] tells
    how its child ends and what the store is then. *)
Definition runPOAgent (fs : Fs.FileSystem) (config : POAgentConfig)
    (e : Dev.Execution) : result Failure POAgentResult :=
  _ ← spawnPOAgent fs config;
  match Base.settle (Dev.childAtEnd e) (Dev.out e) (Dev.err e) (Dev.ending e) with
  | Throw f => Throw (SpawnFailure f)
  | Ok r =>
      let created := checkPRDCreated (Dev.storeAtEnd e) PRD_OUTPUT_FILE in
      Ok {| agentResult := r;
            prdCreated := created;
            prdPath := if created then Some PRD_OUTPUT_FILE else None;
            status := if Base.isSuccess r then Dev.success
                      else if Base.isBlocked r then Dev.blocked
                      else Dev.error |}
  end.

Inductive Validation :=
| Valid
| Invalid (error : string).

Definition validatePRD (fs : Fs.FileSystem) (prdPath : string) : Validation :=
  match Fs.readFileSync fs prdPath with
  | None => Invalid "PRD file not found"
  | Some text =>
      if isEmpty (trim text) then Invalid "PRD file is empty"
      else if negb (includes text "#")
           then Invalid "PRD file appears to be malformed (no headings)"
      else Valid
  end.

End PO.

(** ** src/agents/tech-lead.ts, the agent

    The part of the file that runs the agent; the part that reads the
    issue tracker is in [TechLead] above. *)
Module TechLeadAgent.
Import Js.

Definition TECH_LEAD_PROMPT_FILE : string := "prompts/tech-lead.md".
Definition PRD_FILE : string := Fs.join ORCHESTRATOR_DIR "prd.md".
Definition ARCHITECTURE_OUTPUT_FILE : string :=
  Fs.join ORCHESTRATOR_DIR "architecture.md".

Record TechLeadAgentConfig := {
  prdFile : option string;
  promptFile : option string;
  additionalContext : option string;
}.

Record TechLeadAgentResult := {
  agentResult : Base.AgentResult;
  architectureCreated : bool;
  architecturePath : option string;
  status : Dev.Status;
}.

Inductive TechLeadAgentError :=
| TechLeadPromptFileNotFound (file : string)
| PrdFileNotFound (file : string).

Inductive Failure :=
| TechLeadFailure (e : TechLeadAgentError)
| SpawnFailure (e : Base.AgentSpawnError).

Definition readPRDFile (fs : Fs.FileSystem) (prdFile : string)
  : result TechLeadAgentError string :=
  match Fs.readFileSync fs prdFile with
  | None => Throw (PrdFileNotFound prdFile)
  | Some text => Ok text
  end.

Definition buildTechLeadContext (prdContent : string)
    (additionalContext : option string) : string :=
  join (["# PRD (Product Requirements Document)"; ""; prdContent]
        ++ Dev.additionalParts additionalContext).

Definition checkArchitectureCreated (fs : Fs.FileSystem)
    (architecturePath : string) : bool :=
  Fs.existsSync fs architecturePath.

Definition readArchitecture (fs : Fs.FileSystem) (architecturePath : string)
  : option string :=
  if negb (Fs.existsSync fs architecturePath) then None
  else Fs.readFileSync fs architecturePath.

Definition agentConfig (fs : Fs.FileSystem) (config : TechLeadAgentConfig)
  : result Failure Base.AgentConfig :=
  let prd := default PRD_FILE (prdFile config) in
  let prompt := default TECH_LEAD_PROMPT_FILE (promptFile config) in
  if negb (Fs.existsSync fs prompt)
  then Throw (TechLeadFailure (TechLeadPromptFileNotFound prompt))
  else
    match readPRDFile fs prd with
    | Throw e => Throw (TechLeadFailure e)
    | Ok prdContent =>
        Ok {| Base.name := "tech_lead";
              Base.promptFile := prompt;
              Base.context :=
                buildTechLeadContext prdContent (additionalContext config);
              Base.stdio := Base.pipe |}
    end.

Definition spawnTechLeadAgent (fs : Fs.FileSystem) (config : TechLeadAgentConfig)
  : result Failure Base.AgentHandle :=
  c ← agentConfig fs config;
  match Base.spawnAgent fs c with
  | Ok h => Ok h
  | Throw e => Throw (SpawnFailure e)
  end.

Definition runTechLeadAgent (fs : Fs.FileSystem) (config : TechLeadAgentConfig)
    (e : Dev.Execution) : result Failure TechLeadAgentResult :=
  _ ← spawnTechLeadAgent fs config;
  match Base.settle (Dev.childAtEnd e) (Dev.out e) (Dev.err e) (Dev.ending e) with
  | Throw f => Throw (SpawnFailure f)
  | Ok r =>
      let created :=
        checkArchitectureCreated (Dev.storeAtEnd e) ARCHITECTURE_OUTPUT_FILE in
      Ok {| agentResult := r;
            architectureCreated := created;
            architecturePath := if created then Some ARCHITECTURE_OUTPUT_FILE else None;
            status := if Base.isSuccess r then Dev.success
                      else if Base.isBlocked r then Dev.blocked
                      else Dev.error |}
  end.

Definition validateArchitecture (fs : Fs.FileSystem) (architecturePath : string)
  : PO.Validation :=
  match Fs.readFileSync fs architecturePath with
  | None => PO.Invalid "Architecture file not found"
  | Some text =>
      if isEmpty (trim text) then PO.Invalid "Architecture file is empty"
      else if negb (includes text "#")
           then PO.Invalid "Architecture file appears to be malformed (no headings)"
      else PO.Valid
  end.

End TechLeadAgent.

(** ** src/orchestrator.ts *)
Module Orchestrator.
Import Js.

(** The private method of the class, not the function of blocking.ts. *)
Definition getBlockedAgentType (agentName : string) : option AgentType :=
  if String.eqb agentName "po" then Some agent_po
  else if String.eqb agentName "tech_lead" then Some agent_tech_lead
  else if startsWith agentName "dev" then Some agent_dev
  else None.

(** The two places that call [handleBlockingQuestion]:
    [handleBlockingForAgent(agentType)] and, in [monitorDevSessions], the
    call with the name [`dev-${result.area}`]. *)
Inductive Caller :=
| forAgent (agentType : AgentType)
| forDevSession (area : string).

Definition agentNameOf (c : Caller) : string :=
  match c with
  | forAgent agent_po => "po"
  | forAgent agent_tech_lead => "tech_lead"
  | forAgent agent_dev => "dev"
  | forDevSession a => "dev-" +:+ a
  end.

(** The calls [handleBlockingQuestion] makes on the state manager;
    [answer] is what the user types at the prompt. Only the routing
    ["prompt_user"] prompts and so can end in [clearBlocked]. *)
Definition handleBlockingQuestion (fs : Fs.FileSystem)
    (file agentName answer : string)
  : result Blocking.BlockingError (list StateStore.Operation) :=
  parsedQuestion ← Blocking.parseQuestionFile fs file;
  let agent := getBlockedAgentType agentName in
  Ok match Blocking.routeQuestion parsedQuestion with
     | Blocking.prompt_user =>
         StateStore.doSetBlocked agent file (Some user)
         :: (if isEmpty (trim answer) then [] else [StateStore.doClearBlocked])
     | Blocking.spawn_po =>
         [StateStore.doSetBlocked agent file (Some po)]
     | Blocking.spawn_tech_lead =>
         [StateStore.doSetBlocked agent file (Some tech_lead)]
     end.

(** The operations the driver performs on its state manager. It sets the
    blocked state only inside [handleBlockingQuestion]; it adds the
    sessions [techLeadPhase] derives from the issue tracker; it updates
    only the status of a session. *)
Definition driverOperation (op : StateStore.Operation) : Prop :=
  match op with
  | StateStore.doSetBlocked _ file _ =>
      ∃ fs c answer ops,
        handleBlockingQuestion fs file (agentNameOf c) answer = Ok ops ∧ op ∈ ops
  | StateStore.doAddDevSession a ts =>
      ∃ getAreas getIssuesByArea,
        (a, ts) ∈ TechLead.areasToDevSessionInput
                    (TechLead.parseAreasFromIssues getAreas getIssuesByArea)
  | StateStore.doUpdateDevSession _ u => StateStore.new_tickets u = None
  | _ => True
  end.

End Orchestrator.

(** ** src/orchestrator.ts, the class at work

    The class [Orchestrator] together with what surrounds it: the state
    its state manager holds, its two fields, the files, the children that
    were spawned and the handles that were sent a kill. What the
    surroundings answer (the clock, the user, the children, the issue
    tracker) is read off [answers], one index after the other: [asked]
    is the index of the next answer.

    The file with the saved state is no part of [files]: none of the
    functions modelled here reads it. No call of [stop] arrives while a
    method is under way. *)
Module OrchestratorRun.
Import Js StateStore.

(** Everything a method of the class can throw. [Message text] is
    [new Error(text)]. *)
Inductive Failure :=
| StateFailure (e : StateError)
| BlockingFailure (e : Blocking.BlockingError)
| POFailure (e : PO.Failure)
| TechLeadFailure (e : TechLeadAgent.Failure)
| DevFailure (e : Dev.Failure)
| TrackerFailure (message : string)
| Message (text : string).

(** How the children of the dev sessions that run together end, the order
    in which they settle (positions in the list of handles), and the files
    as they are when the wait for all of them is over. *)
Record Batch := {
  runs : list Dev.Execution;
  settled : list nat;
  storeThen : Fs.FileSystem;
}.

Record Answers := {
  (** [new Date().toISOString()] *)
  isoAt : nat → string;
  (** [Date.now()] *)
  msAt : nat → Z;
  (** the line the user types at a prompt *)
  answerAt : nat → string;
  (** how the child of the PO or of the tech lead ends; [None]: it
      never ends *)
  agentAt : nat → option Dev.Execution;
  (** the labels and the issues of the tracker, or the message of the
      error a call to it throws *)
  trackerAt : nat → result string (list string * (string → list TechLead.Issue));
  (** the children of the dev sessions *)
  devAt : nat → Batch;
}.

Record World := {
  (** [this.stateManager]: the state it holds *)
  held : State;
  isRunning : bool;
  (** [this.activeHandles.devSessions] *)
  activeHandles : list Dev.DevSessionHandle;
  files : Fs.FileSystem;
  (** the names of the children spawned so far *)
  spawned : list string;
  (** the names of the handles [kill()] was called on *)
  killed : list string;
  asked : nat;
  answers : Answers;
}.

Definition withHeld (state : State) (w : World) : World :=
  {| held := state; isRunning := isRunning w; activeHandles := activeHandles w;
     files := files w; spawned := spawned w; killed := killed w;
     asked := asked w; answers := answers w |}.

Definition withIsRunning (b : bool) (w : World) : World :=
  {| held := held w; isRunning := b; activeHandles := activeHandles w;
     files := files w; spawned := spawned w; killed := killed w;
     asked := asked w; answers := answers w |}.

Definition withActiveHandles (handles : list Dev.DevSessionHandle) (w : World)
  : World :=
  {| held := held w; isRunning := isRunning w; activeHandles := handles;
     files := files w; spawned := spawned w; killed := killed w;
     asked := asked w; answers := answers w |}.

Definition withFiles (fs : Fs.FileSystem) (w : World) : World :=
  {| held := held w; isRunning := isRunning w; activeHandles := activeHandles w;
     files := fs; spawned := spawned w; killed := killed w;
     asked := asked w; answers := answers w |}.

Definition withSpawned (names : list string) (w : World) : World :=
  {| held := held w; isRunning := isRunning w; activeHandles := activeHandles w;
     files := files w; spawned := names; killed := killed w;
     asked := asked w; answers := answers w |}.

Definition withKilled (names : list string) (w : World) : World :=
  {| held := held w; isRunning := isRunning w; activeHandles := activeHandles w;
     files := files w; spawned := spawned w; killed := names;
     asked := asked w; answers := answers w |}.

(** The next answers are the ones after those just taken. *)
Definition moveOn (w : World) : World :=
  {| held := held w; isRunning := isRunning w; activeHandles := activeHandles w;
     files := files w; spawned := spawned w; killed := killed w;
     asked := S (asked w); answers := answers w |}.

(** What a call of an [async] method has come to: it has returned, it
    has thrown, or it has done neither, because it waits for a child that
    does not end or because the fuel of a loop has run out. *)
Inductive Outcome (A : Type) :=
| Returned (a : A)
| Threw (f : Failure)
| Unfinished.
Arguments Returned {A} a.
Arguments Threw {A} f.
Arguments Unfinished {A}.

Definition Action (A : Type) : Type := World → World * Outcome A.

Definition andThen {A B} (first : Action A) (next : A → Action B) : Action B :=
  λ w, match first w with
       | (w', Returned a) => next a w'
       | (w', Threw f) => (w', Threw f)
       | (w', Unfinished) => (w', Unfinished)
       end.

#[global] Instance Action_bind : MBind Action := λ A B next first, andThen first next.

Definition done {A} (a : A) : Action A := λ w, (w, Returned a).

Definition throw {A} (f : Failure) : Action A := λ w, (w, Threw f).

(** [try { body } catch (error) { handler }] *)
Definition tryCatch {A} (body : Action A) (handler : Failure → Action A)
  : Action A :=
  λ w, match body w with
       | (w', Threw f) => handler f w'
       | other => other
       end.

(** A mutating method of the state manager: the held state is replaced
    once the function of the same name has returned, and [save] stamps it
    with the clock reading it takes. *)
Definition manager (op : Operation) : Action () :=
  λ w, match perform (isoAt (answers w) (asked w)) op (held w) with
       | Ok state' => (moveOn (withHeld state' w), Returned ())
       | Throw e => (w, Threw (StateFailure e))
       end.

(** A value of type [string | null] that is truthy. *)
Definition given (text : option string) : bool :=
  match text with
  | Some s => negb (isEmpty s)
  | None => false
  end.

Definition stop : Action () :=
  λ w, (withActiveHandles []
          (withKilled (killed w
                       ++ ((λ h, Base.handle_name (Dev.agentHandle h))
                             <$> activeHandles w))
             (withIsRunning false w)),
        Returned ()).

Definition initPhase : Action () := manager (transitionTo po_conversation).

(** [this.blockingHandler.processQuestion(questionFile)]: the user is
    prompted, and the clock read, for the routing "prompt_user" only. *)
Definition processQuestion (questionFile : string) : Action Blocking.Processed :=
  λ w, match Blocking.processQuestion (files w) (msAt (answers w) (asked w))
               (isoAt (answers w) (asked w)) questionFile
               (answerAt (answers w) (asked w)) with
       | Ok (fs', processed) =>
           (if bool_decide (Blocking.routing processed = Blocking.prompt_user)
            then moveOn (withFiles fs' w) else w,
            Returned processed)
       | Throw e => (w, Threw (BlockingFailure e))
       end.

(** The body the three cases of [handleBlockingQuestion] share; they
    differ in the recipient they record. *)
Definition blockAndAsk (questionFile agentName : string) (waiting : Recipient)
  : Action () :=
  manager (doSetBlocked (Orchestrator.getBlockedAgentType agentName)
             questionFile (Some waiting));;
  result ← processQuestion questionFile;
  if given (Blocking.response result) then manager doClearBlocked else done ().

Definition handleBlockingQuestion (questionFile agentName : string) : Action () :=
  λ w, match Blocking.parseQuestionFile (files w) questionFile with
       | Throw e => (w, Threw (BlockingFailure e))
       | Ok parsedQuestion =>
           match Blocking.routeQuestion parsedQuestion with
           | Blocking.prompt_user => blockAndAsk questionFile agentName user w
           | Blocking.spawn_po => blockAndAsk questionFile agentName po w
           | Blocking.spawn_tech_lead =>
               blockAndAsk questionFile agentName tech_lead w
           end
       end.

Definition agentTypeName (agentType : AgentType) : string :=
  match agentType with
  | agent_po => "po"
  | agent_tech_lead => "tech_lead"
  | agent_dev => "dev"
  end.

Definition handleBlockingForAgent (agentType : AgentType) : Action () :=
  λ w, let questionFile := Blocking.findLatestUnansweredQuestion (files w) in
       if negb (given questionFile) then (w, Returned ())
       else handleBlockingQuestion (default "" questionFile)
              (agentTypeName agentType) w.

Definition handleBlockedState : Action () :=
  λ w, let b := blocked (held w) in
       if negb (given (questionFile b)) then manager doClearBlocked w
       else
         let file := default "" (questionFile b) in
         if given (Blocking.readResponse (files w) file)
         then manager doClearBlocked w
         else if bool_decide (waitingFor b = Some user) then
           (result ← processQuestion file;
            if given (Blocking.response result)
            then manager doClearBlocked else done ()) w
         else
           (result ← processQuestion file;
            if given (Blocking.response result)
            then manager doClearBlocked else done ()) w.

(** [await runPOAgent()], with the default configuration. *)
Definition runPOAgent : Action PO.POAgentResult :=
  λ w, let config := {| PO.readmeFile := None; PO.promptFile := None;
                        PO.additionalContext := None |} in
       match PO.spawnPOAgent (files w) config with
       | Throw f => (w, Threw (POFailure f))
       | Ok h =>
           let w1 := withSpawned (spawned w ++ [Base.handle_name h]) w in
           match agentAt (answers w) (asked w) with
           | None => (w1, Unfinished)
           | Some e =>
               let w2 := moveOn (withFiles (Dev.storeAtEnd e) w1) in
               match PO.runPOAgent (files w) config e with
               | Ok r => (w2, Returned r)
               | Throw f => (w2, Threw (POFailure f))
               end
           end
       end.

Definition poPhase : Action () :=
  manager (doSetCurrentAgent (Some "po"));;
  tryCatch
    (result ← runPOAgent;
     if bool_decide (PO.status result = Dev.success) && PO.prdCreated result then
       manager (doSetCurrentAgent None);;
       manager (transitionTo tech_lead_design)
     else if bool_decide (PO.status result = Dev.blocked) then
       handleBlockingForAgent agent_po
     else throw (Message "PO agent failed to complete. Check logs for details."))
    (λ error, manager (doSetCurrentAgent None);; throw error).

(** [await runTechLeadAgent()], with the default configuration. *)
Definition runTechLeadAgent : Action TechLeadAgent.TechLeadAgentResult :=
  λ w, let config := {| TechLeadAgent.prdFile := None;
                        TechLeadAgent.promptFile := None;
                        TechLeadAgent.additionalContext := None |} in
       match TechLeadAgent.spawnTechLeadAgent (files w) config with
       | Throw f => (w, Threw (TechLeadFailure f))
       | Ok h =>
           let w1 := withSpawned (spawned w ++ [Base.handle_name h]) w in
           match agentAt (answers w) (asked w) with
           | None => (w1, Unfinished)
           | Some e =>
               let w2 := moveOn (withFiles (Dev.storeAtEnd e) w1) in
               match TechLeadAgent.runTechLeadAgent (files w) config e with
               | Ok r => (w2, Returned r)
               | Throw f => (w2, Threw (TechLeadFailure f))
               end
           end
       end.

(** [await parseAreasFromIssues()] *)
Definition parseAreasFromIssues : Action (list TechLead.AreaWithIssues) :=
  λ w, match trackerAt (answers w) (asked w) with
       | Ok (labelNames, getIssuesByArea) =>
           (moveOn w,
            Returned (TechLead.parseAreasFromIssues (GitHub.getAreas labelNames)
                        getIssuesByArea))
       | Throw message => (moveOn w, Threw (TrackerFailure message))
       end.

(** [for (const input of sessionInputs) this.stateManager.addDevSession(...)] *)
Fixpoint addDevSessions (sessionInputs : list (string * list Z)) : Action () :=
  match sessionInputs with
  | [] => done ()
  | input :: rest =>
      manager (doAddDevSession input.1 input.2);; addDevSessions rest
  end.

Definition techLeadPhase : Action () :=
  manager (doSetCurrentAgent (Some "tech_lead"));;
  tryCatch
    (result ← runTechLeadAgent;
     if bool_decide (TechLeadAgent.status result = Dev.success)
        && TechLeadAgent.architectureCreated result then
       areasWithIssues ← parseAreasFromIssues;
       let sessionInputs := TechLead.areasToDevSessionInput areasWithIssues in
       addDevSessions sessionInputs;;
       manager (doSetCurrentAgent None);;
       manager (transitionTo dev_sessions)
     else if bool_decide (TechLeadAgent.status result = Dev.blocked) then
       handleBlockingForAgent agent_tech_lead
     else throw (Message "Tech Lead agent failed. Check logs for details."))
    (λ error, manager (doSetCurrentAgent None);; throw error).

Definition statusUpdate (st : SessionStatus) : Updates :=
  {| new_tickets := None; new_status := Some st |}.

(** The loop of [monitorDevSessions] over the results. *)
Fixpoint processResults (results : list Dev.DevAgentResult) : Action () :=
  match results with
  | [] => done ()
  | result :: rest =>
      (if bool_decide (Dev.status result = Dev.success) then
         manager (doUpdateDevSession (Dev.area result) (statusUpdate completed_session))
       else if bool_decide (Dev.status result = Dev.blocked) then
         manager (doUpdateDevSession (Dev.area result) (statusUpdate blocked_session));;
         if given (Dev.questionFile result) then
           handleBlockingQuestion (default "" (Dev.questionFile result))
             ("dev-" +:+ Dev.area result);;
           manager (doUpdateDevSession (Dev.area result) (statusUpdate pending))
         else done ()
       else done ());;
      processResults rest
  end.

(** [this.activeHandles.devSessions = []] *)
Definition clearHandles : Action () :=
  λ w, (withActiveHandles [] w, Returned ()).

(** The end of [monitorDevSessions]. *)
Definition completeIfNoneRemains : Action () :=
  λ w, let remainingSessions :=
         filter (λ s, status s ≠ completed_session) (devSessions (held w)) in
       match remainingSessions with
       | [] => manager (transitionTo completed) w
       | _ => (w, Returned ())
       end.

Definition monitorDevSessions : Action () :=
  λ w, let handles := activeHandles w in
       match handles with
       | [] =>
           let allSessions := devSessions (held w) in
           let allCompleted :=
             forallb (λ s, bool_decide (status s = completed_session)) allSessions in
           if allCompleted then manager (transitionTo completed) w
           else (w, Returned ())
       | _ =>
           let batch := devAt (answers w) (asked w) in
           let w1 := moveOn (withFiles (storeThen batch) w) in
           match Dev.promiseAll handles (runs batch) (settled batch)
                   (replicate (length handles) None) with
           | Dev.Pending => (w, Unfinished)
           | Dev.Rejected f => (w1, Threw (DevFailure f))
           | Dev.Resolved results =>
               (processResults results;;
                clearHandles;;
                completeIfNoneRemains) w1
           end
       end.

(** [for (const session of pendingSessions) updateDevSession(..., running)] *)
Fixpoint markRunning (sessions : list DevSession) : Action () :=
  match sessions with
  | [] => done ()
  | session :: rest =>
      manager (doUpdateDevSession (area session) (statusUpdate running));;
      markRunning rest
  end.

(** [this.activeHandles.devSessions = spawnDevSessions(sessionInputs)] *)
Definition spawnSessions (sessionInputs : list Dev.DevSessionInput) : Action () :=
  λ w, let options := {| Dev.parallel := None; Dev.prdFile := None;
                         Dev.architectureFile := None; Dev.promptFile := None |} in
       let started := Dev.spawnDevSessions (files w) options sessionInputs in
       let w1 := withSpawned (spawned w ++ started.1) w in
       match started.2 with
       | Ok handles => (withActiveHandles handles w1, Returned ())
       | Throw f => (w1, Threw (DevFailure f))
       end.

Definition devSessionsPhase : Action () :=
  λ w, let pendingSessions := getDevSessionsByStatus (held w) pending in
       let runningSessions := getDevSessionsByStatus (held w) running in
       if bool_decide (pendingSessions = []) && bool_decide (runningSessions = [])
       then manager (transitionTo completed) w
       else
         ((if negb (bool_decide (pendingSessions = [])) then
             let sessionInputs :=
               (λ s, {| Dev.input_area := area s; Dev.input_tickets := tickets s |})
                 <$> pendingSessions in
             markRunning pendingSessions;;
             spawnSessions sessionInputs
           else done ());;
          monitorDevSessions) w.

Record OrchestratorResult := {
  finalPhase : Phase;
  success : bool;
  (** the error whose message is reported *)
  error : option Failure;
}.

(** The [while] loop of [run]; [fuel] bounds the number of its rounds. *)
Fixpoint loop (fuel : nat) : Action () :=
  match fuel with
  | O => λ w, (w, Unfinished)
  | S fuel' =>
      λ w, if isRunning w && negb (isComplete (held w)) then
             (match phase (held w) with
              | init => initPhase
              | po_conversation => poPhase
              | tech_lead_design => techLeadPhase
              | dev_sessions => devSessionsPhase
              | completed => done ()
              end;;
              loop fuel') w
           else (w, Returned ())
  end.

Definition run (fuel : nat) : Action OrchestratorResult :=
  λ w, match loop fuel (withIsRunning true w) with
       | (w', Returned _) =>
           if isComplete (held w') then
             (w', Returned {| finalPhase := completed; success := true;
                              error := None |})
           else
             (w', Returned {| finalPhase := phase (held w'); success := false;
                              error := Some (Message
                                "Orchestration stopped before completion") |})
       | (w', Threw f) =>
           (w', Returned {| finalPhase := phase (held w'); success := false;
                            error := Some f |})
       | (w', Unfinished) => (w', Unfinished)
       end.

Definition resume (fuel : nat) : Action OrchestratorResult :=
  λ w, ((if isBlocked (blocked (held w)) then handleBlockedState else done ());;
        run fuel) w.

(** [new Orchestrator()]: the state manager holds the state [loadState]
    has read, [loaded], or else a new one. *)
Definition newOrchestrator (loaded : option State) (fs : Fs.FileSystem)
    (surroundings : Answers) : World :=
  {| held := default (createInitialState (isoAt surroundings 0%nat)) loaded;
     isRunning := false;
     activeHandles := [];
     files := fs;
     spawned := [];
     killed := [];
     asked := match loaded with Some _ => 0%nat | None => 1%nat end;
     answers := surroundings |}.

Definition runOrchestration (fuel : nat) (loaded : option State)
    (fs : Fs.FileSystem) (surroundings : Answers)
  : World * Outcome OrchestratorResult :=
  run fuel (newOrchestrator loaded fs surroundings).

Definition resumeOrchestration (fuel : nat) (loaded : option State)
    (fs : Fs.FileSystem) (surroundings : Answers)
  : World * Outcome OrchestratorResult :=
  resume fuel (newOrchestrator loaded fs surroundings).

Definition stopOrchestration (loaded : option State) (fs : Fs.FileSystem)
    (surroundings : Answers) : World * Outcome () :=
  stop (newOrchestrator loaded fs surroundings).

End OrchestratorRun.

(* ===================================================================== *)
(** * Properties *)

(** ** The phase machine *)
Section phase_machine.
Import StateStore.

(** The successor of a phase in the fixed order, if it has one. *)
Definition successor (p : Phase) : option Phase :=
  match p with
  | init => Some po_conversation
  | po_conversation => Some tech_lead_design
  | tech_lead_design => Some dev_sessions
  | dev_sessions => Some completed
  | completed => None
  end.

(** C1. [isValidTransition from to] holds exactly when [to] is the
    successor of [from] in the order init, po_conversation,
    tech_lead_design, dev_sessions, completed; nothing follows
    [completed]. [transitionPhase] throws a [StateError] exactly when the
    transition is not valid, and otherwise returns a state whose phase is
    the new phase. *)
Theorem C1_phase_transitions :
  (∀ from to, isValidTransition from to = true ↔ successor from = Some to) ∧
  (∀ to, isValidTransition completed to = false) ∧
  (∀ now state newPhase,
      ((∃ e, transitionPhase now state newPhase = Throw e) ↔
       isValidTransition (phase state) newPhase = false) ∧
      (isValidTransition (phase state) newPhase = true →
       ∃ state', transitionPhase now state newPhase = Ok state' ∧
                 phase state' = newPhase)).
Proof.
  split; [|split].
  - intros from to. destruct from, to; vm_compute; split; congruence.
  - intros to. destruct to; reflexivity.
  - intros now state newPhase. unfold transitionPhase.
    destruct (isValidTransition (phase state) newPhase); simpl.
    + split; [split|].
      * intros [e He]. discriminate.
      * discriminate.
      * intros _. eexists. split; reflexivity.
    + split; [split|].
      * reflexivity.
      * intros _. eexists. reflexivity.
      * discriminate.
Qed.

Lemma C1_witness :
  ∃ state',
    transitionPhase "t1" (createInitialState "t0") po_conversation = Ok state' ∧
    phase state' = po_conversation.
Proof.
  apply (proj2 (proj2 (proj2 C1_phase_transitions)
                  "t1" (createInitialState "t0") po_conversation)).
  reflexivity.
Defined.

End phase_machine.

(** ** The state store: areas stay distinct *)
Section state_store.
Import StateStore.

Definition unblocked : BlockedState :=
  {| isBlocked := false; blockedAgent := None;
     questionFile := None; waitingFor := None |}.

(** The invariant of [BlockedState]. *)
Definition blockedConsistent (b : BlockedState) : Prop :=
  isBlocked b = true ↔
  blockedAgent b ≠ None ∧ questionFile b ≠ None ∧ waitingFor b ≠ None.

Definition areas (state : State) : list string := area <$> devSessions state.

Definition ticketsNonEmpty (state : State) : Prop :=
  Forall (λ d, tickets d ≠ []) (devSessions state).

Lemma findIndex_None (sessions : list DevSession) a :
  findIndex sessions a = None ↔ a ∉ area <$> sessions.
Proof.
  unfold findIndex. rewrite fmap_None, list_find_None, list_elem_of_fmap.
  rewrite Forall_forall. split.
  - intros H (s & -> & Hs). by apply (H s).
  - intros H s Hs Heq. apply H. exists s. done.
Qed.

Lemma findIndex_Some (sessions : list DevSession) a i :
  findIndex sessions a = Some i → ∃ s, sessions !! i = Some s ∧ area s = a.
Proof.
  unfold findIndex. rewrite fmap_Some. intros ([j s] & Hfind & ->).
  apply list_find_Some in Hfind as (? & ? & _). eauto.
Qed.

Lemma areas_alter (sessions : list DevSession) u (i : nat) :
  area <$> alter (λ s, applyUpdates s u) i sessions = area <$> sessions.
Proof.
  rewrite (list_fmap_alter area _ id); [by apply list_alter_id|].
  by apply Forall_true.
Qed.

Lemma areas_filter (sessions : list DevSession) a :
  area <$> filter (λ s, area s ≠ a) sessions = filter (λ x, x ≠ a) (area <$> sessions).
Proof.
  induction sessions as [|s l IH]; [done|].
  rewrite fmap_cons, !filter_cons.
  destruct (decide (area s ≠ a)); [rewrite fmap_cons|]; by rewrite IH.
Qed.

(** Every operation keeps the areas of the sessions pairwise distinct. *)
Lemma perform_distinct now op state state' :
  perform now op state = Ok state' →
  NoDup (areas state) → NoDup (areas state').
Proof.
  unfold areas. destruct op; simpl.
  - unfold transitionPhase. case_match; [done|]. by intros [= <-].
  - by intros [= <-].
  - by intros [= <-].
  - by intros [= <-].
  - unfold addDevSession. destruct (findIndex _ _) eqn:Hfind; [done|].
    intros [= <-] Hnd. simpl. rewrite fmap_app. simpl.
    apply NoDup_app. split; [done|]. split; [|apply NoDup_singleton].
    intros x Hx ->%list_elem_of_singleton.
    by apply findIndex_None in Hfind.
  - unfold updateDevSession. destruct (findIndex _ _); [|done].
    intros [= <-]. simpl. by rewrite areas_alter.
  - unfold removeDevSession. destruct (findIndex _ _); [|done].
    intros [= <-]. simpl. rewrite areas_filter. apply NoDup_filter.
Qed.

Lemma reachable_distinct allowed state :
  reachable allowed state → NoDup (areas state).
Proof.
  induction 1 as [now|state op now state' _ IH _ Hop].
  - apply NoDup_nil_2.
  - by eapply perform_distinct.
Qed.

Lemma addDevSession_existing now state a ts :
  a ∈ areas state → addDevSession now state a ts = Throw (SessionAlreadyExists a).
Proof.
  intros Hin. unfold addDevSession.
  destruct (findIndex _ _) eqn:Hfind; [done|].
  by apply findIndex_None in Hfind.
Qed.

End state_store.

(** ** Sessions seeded from the issue tracker *)
Section tech_lead.
Import TechLead.

(** [parseAreasFromIssues] keeps an area only with its open issues, of
    which there is at least one. *)
Lemma parseAreasFromIssues_tickets getAreas getIssuesByArea a ts :
  (a, ts) ∈ areasToDevSessionInput (parseAreasFromIssues getAreas getIssuesByArea) →
  ts ≠ [].
Proof.
  unfold areasToDevSessionInput, parseAreasFromIssues.
  intros (x & [= -> ->] & Hx)%list_elem_of_fmap.
  apply list_elem_of_omap in Hx as (a' & _ & Hsome).
  destruct (filter _ _) as [|i l]; [done|].
  injection Hsome as <-. done.
Qed.

End tech_lead.

(** ** How the driver uses the state store *)
Section driver.
Import StateStore Orchestrator.

Lemma getBlockedAgentType_caller c :
  is_Some (getBlockedAgentType (agentNameOf c)).
Proof. destruct c as [[]|a]; eexists; reflexivity. Qed.

(** What the driver passes to [setBlocked]. *)
Lemma driver_setBlocked agent file waiting :
  driverOperation (doSetBlocked agent file waiting) →
  is_Some agent ∧ is_Some waiting.
Proof.
  intros (fs & c & answer & ops & Hcall & Hin).
  unfold handleBlockingQuestion in Hcall.
  destruct (Blocking.parseQuestionFile fs file) as [parsed|]; [|done].
  injection Hcall as <-.
  pose proof (getBlockedAgentType_caller c) as Hagent.
  destruct (Blocking.routeQuestion parsed).
  - apply elem_of_cons in Hin as [[= -> ->]|Hin]; [done|].
    destruct (Js.isEmpty _); [by apply elem_of_nil in Hin|].
    by apply list_elem_of_singleton in Hin.
  - apply list_elem_of_singleton in Hin as [= -> ->]. done.
  - apply list_elem_of_singleton in Hin as [= -> ->]. done.
Qed.

Lemma perform_blockedConsistent now op state state' :
  driverOperation op →
  perform now op state = Ok state' →
  blockedConsistent (blocked state) → blockedConsistent (blocked state').
Proof.
  intros Hop. destruct op; simpl.
  - unfold transitionPhase. case_match; [done|]. by intros [= <-].
  - intros [= <-] _. apply driver_setBlocked in Hop as [[? ->] [? ->]].
    unfold blockedConsistent. simpl. done.
  - intros [= <-] _. unfold blockedConsistent. simpl. split; [done|].
    by intros [? _].
  - by intros [= <-].
  - unfold addDevSession. case_match; [done|]. by intros [= <-].
  - unfold updateDevSession. case_match; [|done]. by intros [= <-].
  - unfold removeDevSession. case_match; [|done]. by intros [= <-].
Qed.

Lemma perform_ticketsNonEmpty now op state state' :
  driverOperation op →
  perform now op state = Ok state' →
  ticketsNonEmpty state → ticketsNonEmpty state'.
Proof.
  unfold ticketsNonEmpty. intros Hop. destruct op; simpl.
  - unfold transitionPhase. case_match; [done|]. by intros [= <-].
  - by intros [= <-].
  - by intros [= <-].
  - by intros [= <-].
  - unfold addDevSession. case_match; [done|]. intros [= <-] Hall. simpl.
    apply Forall_app. split; [done|]. apply Forall_singleton. simpl.
    destruct Hop as (getAreas & getIssues & Hin).
    by eapply parseAreasFromIssues_tickets.
  - unfold updateDevSession. case_match; [|done]. intros [= <-] Hall. simpl.
    apply Forall_alter; [done|]. intros s _ Hs.
    unfold applyUpdates. simpl in *. rewrite Hop. done.
  - unfold removeDevSession. case_match; [|done]. intros [= <-] Hall. simpl.
    apply Forall_forall. intros d [_ Hd]%list_elem_of_filter.
    by eapply Forall_forall in Hall.
Qed.

(** Both functions of this name answer null for a name they do not
    know; the driver never asks about one. *)
Example getBlockedAgentType_unknown :
  Blocking.getBlockedAgentType "reviewer" = None ∧
  getBlockedAgentType "reviewer" = None ∧
  Blocking.getBlockedAgentType "dev-frontend" = Some agent_dev ∧
  getBlockedAgentType "dev-frontend" = Some agent_dev.
Proof. by repeat split. Qed.

End driver.

(** ** Invariants of the blocked state and of the sessions *)
Section state_claims.
Import StateStore Orchestrator.

(** C7 as stated fails: [setBlocked] takes a nullable agent and a
    nullable recipient, so the state store reaches a blocked state whose
    [blockedAgent] and [waitingFor] are null. *)
Lemma C7_counterexample :
  ∃ state, reachable any_operation state ∧ ¬ blockedConsistent (blocked state).
Proof.
  exists (setBlocked "t1" (createInitialState "t0") None "q-001.md" None).
  split.
  - apply (reachable_perform _ (createInitialState "t0")
             (doSetBlocked None "q-001.md" None) "t1").
    + apply reachable_initial.
    + exact I.
    + reflexivity.
  - unfold blockedConsistent. simpl. intros [H _].
    destruct (H eq_refl) as [Hagent _]. by apply Hagent.
Qed.

(** C7, amended. In every state reached by operations of the driver,
    which calls [setBlocked] only from [handleBlockingQuestion] (agent
    taken from the names "po", "tech_lead", "dev", "dev-<area>", recipient
    taken from the routing), [isBlocked] is true exactly when
    [blockedAgent], [questionFile] and [waitingFor] are all non-null; and
    [clearBlocked] sets the four fields to (false, null, null, null). *)
Theorem C7_blocked_state_invariant state :
  reachable driverOperation state →
  blockedConsistent (blocked state) ∧
  ∀ now, blocked (clearBlocked now state) = unblocked.
Proof.
  intros Hreach. split; [|done].
  induction Hreach as [now|state op now state' _ IH Hop Hperform].
  - unfold blockedConsistent. simpl. split; [done|]. by intros [? _].
  - by eapply perform_blockedConsistent.
Qed.

Definition sampleStore : Fs.FileSystem :=
  [ {| Fs.path := ".orchestrator/questions/q-001.md"; Fs.mtimeMs := 10;
       Fs.content := "## For: user" |} ].

Lemma C7_witness :
  let state :=
    setBlocked "t1" (createInitialState "t0") (Some agent_dev)
               ".orchestrator/questions/q-001.md" (Some user) in
  blockedConsistent (blocked state) ∧
  ∀ now, blocked (clearBlocked now state) = unblocked.
Proof.
  apply C7_blocked_state_invariant.
  apply (reachable_perform _ (createInitialState "t0")
           (doSetBlocked (Some agent_dev) ".orchestrator/questions/q-001.md"
                         (Some user)) "t1").
  - apply reachable_initial.
  - exists sampleStore, (forDevSession "frontend"), "".
    eexists. split; [reflexivity|]. apply list_elem_of_here.
  - reflexivity.
Defined.

(** C8 as stated fails in its second half: [addDevSession] stores
    whatever list of tickets it is given, also the empty one. *)
Lemma C8_counterexample :
  ¬ ∀ state, reachable any_operation state →
             NoDup (areas state) ∧ ticketsNonEmpty state.
Proof.
  intros H.
  destruct (H (withSessions "t1" (createInitialState "t0")
                 [{| area := "frontend"; tickets := []; status := pending |}]))
    as [_ Hne].
  - apply (reachable_perform _ (createInitialState "t0")
             (doAddDevSession "frontend" []) "t1").
    + apply reachable_initial.
    + exact I.
    + reflexivity.
  - apply Forall_cons in Hne as [Hne _]. by apply Hne.
Qed.

(** C8, amended. In every state reachable through the state store there
    is at most one session per area, and [addDevSession] on an area that
    exists throws. The state store does not look at the tickets: they are
    non-empty in every state reached by operations of the driver, which
    adds only the sessions [parseAreasFromIssues] yields (areas with at
    least one open issue) and updates only the status of a session. *)
Theorem C8_dev_sessions_invariant :
  (∀ state, reachable any_operation state →
     NoDup (areas state) ∧
     ∀ now a ts, a ∈ areas state →
       addDevSession now state a ts = Throw (SessionAlreadyExists a)) ∧
  (∀ state, reachable driverOperation state → ticketsNonEmpty state).
Proof.
  split.
  - intros state Hreach. split.
    + by eapply reachable_distinct.
    + intros now a ts. apply addDevSession_existing.
  - intros state Hreach.
    induction Hreach as [now|state op now state' _ IH Hop Hperform].
    + apply Forall_nil_2.
    + by eapply perform_ticketsNonEmpty.
Qed.

Definition sampleIssues (a : string) : list TechLead.Issue :=
  [ {| TechLead.number := 1; TechLead.state := TechLead.open |};
    {| TechLead.number := 2; TechLead.state := TechLead.closed |};
    {| TechLead.number := 3; TechLead.state := TechLead.open |} ].

Lemma C8_witness :
  let state :=
    withSessions "t1" (createInitialState "t0")
      [{| area := "frontend"; tickets := [1; 3]; status := pending |}] in
  (NoDup (areas state) ∧
   ∀ now a ts, a ∈ areas state →
     addDevSession now state a ts = Throw (SessionAlreadyExists a)) ∧
  ticketsNonEmpty state.
Proof.
  split.
  - apply (proj1 C8_dev_sessions_invariant).
    apply (reachable_perform _ (createInitialState "t0")
             (doAddDevSession "frontend" [1; 3]) "t1").
    + apply reachable_initial.
    + exact I.
    + reflexivity.
  - apply (proj2 C8_dev_sessions_invariant).
    apply (reachable_perform _ (createInitialState "t0")
             (doAddDevSession "frontend" [1; 3]) "t1").
    + apply reachable_initial.
    + exists ["frontend"], sampleIssues. apply list_elem_of_here.
    + reflexivity.
Defined.

End state_claims.

(** ** Strings: append, suffixes, decimal numerals *)
Section string_facts.
Import Js.

Lemma string_app_cons c s t : String c s +:+ t = String c (s +:+ t).
Proof. reflexivity. Qed.

Lemma string_app_nil_r s : s +:+ "" = s.
Proof. induction s as [|c s IH]; [done|]. by rewrite string_app_cons, IH. Qed.

Lemma string_app_assoc s t u : (s +:+ t) +:+ u = s +:+ t +:+ u.
Proof. induction s as [|c s IH]; [done|]. by rewrite !string_app_cons, IH. Qed.

Lemma string_length_app s t :
  String.length (s +:+ t) = (String.length s + String.length t)%nat.
Proof. induction s as [|c s IH]; [done|]. rewrite string_app_cons. simpl. by rewrite IH. Qed.

Lemma string_app_inv_tail s s' r : s +:+ r = s' +:+ r → s = s'.
Proof.
  revert s'. induction s as [|c s IH]; intros [|c' s'] H.
  - done.
  - apply (f_equal String.length) in H. rewrite !string_length_app in H. simpl in H. lia.
  - apply (f_equal String.length) in H. rewrite !string_length_app in H. simpl in H. lia.
  - rewrite !string_app_cons in H. injection H as -> H. f_equal. by apply IH.
Qed.

Lemma eqb_true s t : String.eqb s t = true ↔ s = t.
Proof. apply String.eqb_eq. Qed.

Lemma eqb_false s t : String.eqb s t = false ↔ s ≠ t.
Proof. apply String.eqb_neq. Qed.

(** The last code unit of a string. *)
Fixpoint lastChar (s : string) : option ascii :=
  match s with
  | "" => None
  | String c "" => Some c
  | String _ r => lastChar r
  end.

Lemma lastChar_cons c s : s ≠ "" → lastChar (String c s) = lastChar s.
Proof. by destruct s. Qed.

Lemma lastChar_app s t : t ≠ "" → lastChar (s +:+ t) = lastChar t.
Proof.
  intros Ht. induction s as [|c s IH]; [reflexivity|].
  rewrite string_app_cons, lastChar_cons; [exact IH|].
  destruct s; [exact Ht|done].
Qed.

Lemma endsWith_unfold s suf :
  endsWith s suf =
  if String.eqb s suf then true
  else match s with "" => false | String _ r => endsWith r suf end.
Proof. by destruct s. Qed.

Lemma endsWith_spec s suf : endsWith s suf = true ↔ ∃ pre, s = pre +:+ suf.
Proof.
  induction s as [|c s IH]; rewrite endsWith_unfold.
  - destruct (String.eqb "" suf) eqn:Heq.
    + apply eqb_true in Heq as <-. split; [by exists ""|done].
    + apply eqb_false in Heq. split; [done|]. intros ([|??] & H); [|done].
      by destruct Heq.
  - destruct (String.eqb (String c s) suf) eqn:Heq.
    + apply eqb_true in Heq as <-. split; [by exists ""|done].
    + apply eqb_false in Heq. rewrite IH. split.
      * intros (pre & ->). by exists (String c pre).
      * intros ([|c' pre] & H); [by destruct Heq|].
        rewrite string_app_cons in H. injection H as -> ->. by exists pre.
Qed.

Lemma endsWith_app pre s suf : endsWith s suf = true → endsWith (pre +:+ s) suf = true.
Proof.
  rewrite !endsWith_spec. intros (p & ->). exists (pre +:+ p). by rewrite string_app_assoc.
Qed.

Lemma endsWith_lastChar s suf :
  suf ≠ "" → endsWith s suf = true → lastChar s = lastChar suf.
Proof. intros Hne (pre & ->)%endsWith_spec. by apply lastChar_app. Qed.

Lemma replace_md_at_end_app pre r : replace_md_at_end (pre +:+ ".md") r = pre +:+ r.
Proof.
  induction pre as [|c pre IH]; [done|].
  rewrite !string_app_cons.
  change (replace_md_at_end (String c (pre +:+ ".md")) r)
    with (if String.eqb (String c (pre +:+ ".md")) ".md" then r
          else String c (replace_md_at_end (pre +:+ ".md") r)).
  destruct (String.eqb _ _) eqn:Heq.
  - apply eqb_true in Heq. apply (f_equal String.length) in Heq.
    simpl in Heq. rewrite string_length_app in Heq. simpl in Heq. lia.
  - by rewrite IH.
Qed.

Lemma replace_md_at_end_inj s s' r :
  endsWith s ".md" = true → endsWith s' ".md" = true →
  replace_md_at_end s r = replace_md_at_end s' r → s = s'.
Proof.
  intros (pre & ->)%endsWith_spec (pre' & ->)%endsWith_spec.
  rewrite !replace_md_at_end_app. by intros ->%string_app_inv_tail.
Qed.

(** Decimal numerals end in a digit. *)
Lemma lastChar_string_of_uint d :
  NilEmpty.string_of_uint d ≠ "" →
  ∃ c, lastChar (NilEmpty.string_of_uint d) = Some c ∧ is_digit c = true.
Proof.
  induction d as [|d IH|d IH|d IH|d IH|d IH|d IH|d IH|d IH|d IH|d IH];
    [done|intros _; simpl..];
    (destruct (NilEmpty.string_of_uint d) eqn:Hd;
       [eexists; split; [reflexivity|reflexivity]
       |destruct IH as (c & Hc & Hdig); [done|]; exists c; split; [exact Hc|exact Hdig]]).
Qed.

Lemma lastChar_decimal n :
  ∃ c, lastChar (decimal n) = Some c ∧ is_digit c = true.
Proof.
  unfold decimal, NilZero.string_of_uint.
  destruct (N.to_uint n) eqn:Hn; try (apply lastChar_string_of_uint; by simpl).
  by exists "0"%char.
Qed.

End string_facts.

(** ** The stable sort and what [find] sees of it *)
Section sort_facts.
Import Blocking.
Context {A : Type} (key : A → Z).

(** Newest first: later elements have no greater key. *)
Definition newestFirst (l : list A) : Prop :=
  StronglySorted (λ x y, key y ≤ key x) l.

(** The first element, in the order of [l], among those that satisfy [P]
    and have the greatest key. *)
Fixpoint firstNewest (P : A → bool) (l : list A) : option A :=
  match l with
  | [] => None
  | a :: l' =>
      match firstNewest P l' with
      | Some y => if P a && negb (key a <? key y) then Some a else Some y
      | None => if P a then Some a else None
      end
  end.

Lemma insertSorted_perm x (l : list A) :
  insertSorted (λ a b, key b - key a) x l ≡ₚ x :: l.
Proof.
  induction l as [|y l IH]; [done|]. simpl.
  destruct (0 <? key y - key x); [|done].
  rewrite IH. apply Permutation_swap.
Qed.

Lemma sort_perm (l : list A) : sort (λ a b, key b - key a) l ≡ₚ l.
Proof.
  induction l as [|x l IH]; [done|].
  unfold sort in *. simpl. rewrite insertSorted_perm. by rewrite IH.
Qed.

Lemma insertSorted_newestFirst x (l : list A) :
  newestFirst l → newestFirst (insertSorted (λ a b, key b - key a) x l).
Proof.
  unfold newestFirst. induction 1 as [|y l Hl IH Hy]; simpl.
  - repeat constructor.
  - destruct (0 <? key y - key x) eqn:Hcmp.
    + constructor; [done|].
      apply Forall_forall. intros z Hz.
      rewrite insertSorted_perm in Hz.
      apply elem_of_cons in Hz as [->|Hz]; [lia|].
      by eapply Forall_forall in Hy.
    + constructor; [by constructor|].
      constructor; [lia|].
      eapply Forall_impl; [exact Hy|]. simpl. lia.
Qed.

Lemma sort_newestFirst (l : list A) : newestFirst (sort (λ a b, key b - key a) l).
Proof.
  induction l as [|x l IH]; [constructor|].
  by apply insertSorted_newestFirst.
Qed.

Lemma find_insertSorted (P : A → bool) a (s : list A) :
  newestFirst s →
  List.find P (insertSorted (λ a b, key b - key a) a s) =
  match List.find P s with
  | Some y => if P a && negb (key a <? key y) then Some a else Some y
  | None => if P a then Some a else None
  end.
Proof.
  unfold newestFirst. induction 1 as [|y s Hs IH Hy]; simpl.
  - by destruct (P a).
  - destruct (0 <? key y - key a) eqn:Hcmp; simpl.
    + destruct (P y) eqn:HPy.
      * replace (key a <? key y) with true by lia.
        by rewrite andb_false_r.
      * exact IH.
    + destruct (P a) eqn:HPa; simpl.
      * destruct (P y) eqn:HPy.
        { by replace (key a <? key y) with false by lia. }
        destruct (List.find P s) as [z|] eqn:Hfind; [|done].
        apply List.find_some in Hfind as [Hz _].
        eapply Forall_forall in Hy; [|by apply list_elem_of_In].
        by replace (key a <? key z) with false by lia.
      * destruct (P y); [done|]. by destruct (List.find P s).
Qed.

Lemma find_sort (P : A → bool) (l : list A) :
  List.find P (sort (λ a b, key b - key a) l) = firstNewest P l.
Proof.
  induction l as [|a l IH]; [done|].
  change (sort (λ a b, key b - key a) (a :: l))
    with (insertSorted (λ a b, key b - key a) a (sort (λ a b, key b - key a) l)).
  rewrite find_insertSorted by apply sort_newestFirst.
  by rewrite IH.
Qed.

Lemma firstNewest_None (P : A → bool) (l : list A) :
  firstNewest P l = None ↔ ∀ y, y ∈ l → P y = false.
Proof.
  induction l as [|a l IH]; simpl.
  - split; [|done]. by intros _ y ?%elem_of_nil.
  - destruct (firstNewest P l) as [y|].
    + split; [by destruct (_ && _)|]. intros H.
      assert (Some y = None) as Hno; [|done].
      apply IH. intros z Hz. apply H. by right.
    + destruct (P a) eqn:HPa.
      * split; [done|]. intros H. rewrite H in HPa; [done|]. by left.
      * split; [|done]. intros _ z [->|Hz]%elem_of_cons; [done|].
        by apply IH.
Qed.

Lemma firstNewest_Some (P : A → bool) (l : list A) x :
  firstNewest P l = Some x →
  ∃ l1 l2, l = l1 ++ x :: l2 ∧ P x = true ∧
    (∀ y, y ∈ l1 → P y = true → key y < key x) ∧
    (∀ y, y ∈ l2 → P y = true → key y ≤ key x).
Proof.
  revert x. induction l as [|a l IH]; intros x; simpl; [done|].
  destruct (firstNewest P l) as [y|] eqn:Hrest.
  - destruct (IH y eq_refl) as (l1 & l2 & -> & HPy & Hl1 & Hl2).
    destruct (P a && negb (key a <? key y)) eqn:Hcase; intros [= <-].
    + apply andb_true_iff in Hcase as [HPa Hkey].
      exists [], (l1 ++ y :: l2). split; [done|]. split; [done|].
      split; [by intros z ?%elem_of_nil|].
      intros z [Hz|[->|Hz]%elem_of_cons]%elem_of_app HPz.
      * specialize (Hl1 z Hz HPz). lia.
      * lia.
      * specialize (Hl2 z Hz HPz). lia.
    + exists (a :: l1), l2. split; [done|]. split; [done|]. split; [|done].
      intros z [->|Hz]%elem_of_cons HPz; [|by apply Hl1].
      rewrite HPz in Hcase. simpl in Hcase. lia.
  - destruct (P a) eqn:HPa; intros [= <-].
    exists [], l. split; [done|]. split; [done|].
    split; [by intros z ?%elem_of_nil|].
    intros z Hz HPz.
    rewrite (proj1 (firstNewest_None P l) Hrest z Hz) in HPz. done.
Qed.

Lemma firstNewest_ext (P Q : A → bool) (l : list A) :
  (∀ x, x ∈ l → P x = Q x) → firstNewest P l = firstNewest Q l.
Proof.
  induction l as [|a l IH]; intros H; [done|]. simpl.
  rewrite IH by (intros x Hx; apply H; by right).
  rewrite (H a) by by left. done.
Qed.

End sort_facts.

Lemma sort_key_ext {A} (key key' : A → Z) (l : list A) :
  (∀ x, x ∈ l → key x = key' x) →
  Blocking.sort (λ a b, key b - key a) l = Blocking.sort (λ a b, key' b - key' a) l.
Proof.
  induction l as [|x l IH]; intros H; [done|].
  unfold Blocking.sort in *. simpl. rewrite <-IH by (intros y Hy; apply H; by right).
  assert (∀ s : list A, (∀ y, y ∈ s → key y = key' y) →
            Blocking.insertSorted (λ a b, key b - key a) x s
            = Blocking.insertSorted (λ a b, key' b - key' a) x s) as Hins.
  { induction s as [|y s IHs]; intros Hs; [done|]. simpl.
    rewrite (Hs y) by by left. rewrite (H x) by by left.
    rewrite IHs by (intros z Hz; apply Hs; by right). done. }
  apply Hins. intros y Hy. apply H. right.
  by rewrite (sort_perm key l) in Hy.
Qed.
(** ** The question store: listing and lookup *)
Section store_facts.
Import Js Blocking.

Lemma entryName_Some dir p f : Fs.entryName dir p = Some f → p = Fs.join dir f.
Proof.
  revert p. induction dir as [|a dir IH]; intros [|b p]; simpl; try done.
  - destruct (Ascii.eqb b "/") eqn:Hb; [|done].
    apply Ascii.eqb_eq in Hb as ->.
    destruct (_ && _); [|done]. by intros [= ->].
  - destruct (Ascii.eqb a b) eqn:Hab; [|done].
    apply Ascii.eqb_eq in Hab as ->. intros Hf.
    unfold Fs.join. rewrite string_app_cons. f_equal. by apply IH.
Qed.

(** The question files of the store, in the order of the directory
    listing. *)
Definition questionFiles (fs : Fs.FileSystem) : list string :=
  Fs.join QUESTIONS_DIR
    <$> List.filter isQuestionFileName (Fs.readdirSync fs QUESTIONS_DIR).

Definition isQuestionPath (p : string) : bool :=
  match Fs.entryName QUESTIONS_DIR p with
  | Some f => isQuestionFileName f
  | None => false
  end.

Definition questionEntries (fs : Fs.FileSystem) : list Fs.File :=
  filter (λ f, isQuestionPath (Fs.path f) = true) fs.

Lemma questionFiles_entries fs : questionFiles fs = Fs.path <$> questionEntries fs.
Proof.
  unfold questionFiles, questionEntries, Fs.readdirSync.
  induction fs as [|f fs IH]; [done|].
  rewrite filter_cons.
  change (omap ?g (f :: fs))
    with (match g f with Some y => y :: omap g fs | None => omap g fs end).
  destruct (decide (isQuestionPath (Fs.path f) = true)) as [Hq|Hq];
    unfold isQuestionPath in Hq;
    destruct (Fs.entryName QUESTIONS_DIR (Fs.path f)) as [n|] eqn:Hn.
  - apply entryName_Some in Hn.
    change (List.filter isQuestionFileName (n :: ?l))
      with (if isQuestionFileName n then n :: List.filter isQuestionFileName l
            else List.filter isQuestionFileName l).
    rewrite Hq, !fmap_cons, <-Hn. f_equal. exact IH.
  - done.
  - apply not_true_is_false in Hq.
    change (List.filter isQuestionFileName (n :: ?l))
      with (if isQuestionFileName n then n :: List.filter isQuestionFileName l
            else List.filter isQuestionFileName l).
    rewrite Hq. exact IH.
  - exact IH.
Qed.

Lemma listQuestionFiles_unfold fs :
  listQuestionFiles fs =
  sort (λ a b, Fs.statMtimeMs fs b - Fs.statMtimeMs fs a) (questionFiles fs).
Proof. reflexivity. Qed.

Lemma listQuestionFiles_perm fs : listQuestionFiles fs ≡ₚ questionFiles fs.
Proof. rewrite listQuestionFiles_unfold. apply sort_perm. Qed.

Lemma questionFiles_path fs q : q ∈ questionFiles fs → isQuestionPath q = true.
Proof.
  rewrite questionFiles_entries. intros (f & -> & Hf)%list_elem_of_fmap.
  by apply list_elem_of_filter in Hf as [? _].
Qed.

Lemma questionFiles_exist fs q : q ∈ questionFiles fs → Fs.existsSync fs q = true.
Proof.
  rewrite questionFiles_entries. intros (f & -> & Hf)%list_elem_of_fmap.
  apply list_elem_of_filter in Hf as [_ Hf].
  unfold Fs.existsSync. apply bool_decide_eq_true. by apply list_elem_of_fmap_2.
Qed.

Lemma isQuestionPath_md p : isQuestionPath p = true → endsWith p ".md" = true.
Proof.
  unfold isQuestionPath.
  destruct (Fs.entryName QUESTIONS_DIR p) as [f|] eqn:Hf; [|done].
  apply entryName_Some in Hf as ->. unfold isQuestionFileName.
  intros [Hmd _]%andb_true_iff. by apply endsWith_app.
Qed.

Lemma lookupFile_cons f fs p :
  Fs.lookupFile (f :: fs) p =
  if decide (Fs.path f = p) then Some f else Fs.lookupFile fs p.
Proof.
  unfold Fs.lookupFile. simpl. destruct (decide (Fs.path f = p)); [done|].
  by destruct (list_find _ fs) as [[]|].
Qed.

Lemma lookupFile_Some fs p f :
  Fs.lookupFile fs p = Some f → f ∈ fs ∧ Fs.path f = p.
Proof.
  induction fs as [|g fs IH]; [done|]. rewrite lookupFile_cons.
  destruct (decide (Fs.path g = p)).
  - intros [= ->]. split; [by left|done].
  - intros [? ?]%IH. split; [by right|done].
Qed.

Lemma lookupFile_exists fs p :
  Fs.existsSync fs p = true → is_Some (Fs.lookupFile fs p).
Proof.
  unfold Fs.existsSync. rewrite bool_decide_eq_true.
  induction fs as [|g fs IH]; [by intros ?%elem_of_nil|].
  rewrite lookupFile_cons, fmap_cons.
  destruct (decide (Fs.path g = p)); [by eexists|].
  intros [?|?]%elem_of_cons; [done|]. by apply IH.
Qed.

Lemma readFileSync_exists fs p :
  Fs.existsSync fs p = true → is_Some (Fs.readFileSync fs p).
Proof.
  intros [f Hf]%lookupFile_exists. unfold Fs.readFileSync. rewrite Hf. by eexists.
Qed.

(** [parseQuestionFile] throws on a missing file only. *)
Lemma parseQuestionFile_total fs file :
  Fs.existsSync fs file = true → ∃ parsed, parseQuestionFile fs file = Ok parsed.
Proof.
  intros [text Htext]%readFileSync_exists. unfold parseQuestionFile.
  rewrite Htext. by eexists.
Qed.

Lemma findLatestUnansweredQuestion_firstNewest fs :
  findLatestUnansweredQuestion fs =
  firstNewest (Fs.statMtimeMs fs) (λ q, negb (hasResponse fs q)) (questionFiles fs).
Proof.
  unfold findLatestUnansweredQuestion. rewrite listQuestionFiles_unfold.
  apply (find_sort (Fs.statMtimeMs fs)).
Qed.

Lemma findLatestUnansweredQuestion_listed fs q :
  findLatestUnansweredQuestion fs = Some q → q ∈ questionFiles fs.
Proof.
  rewrite findLatestUnansweredQuestion_firstNewest.
  intros (l1 & l2 & -> & _)%firstNewest_Some.
  apply elem_of_app. right. by left.
Qed.

End store_facts.

(** ** The supervisor: exit codes, signals, [kill] *)
Section supervisor.
Import Base Dev.

Lemma checkBlockingForTechLead_total fs :
  ∃ info, checkBlockingForTechLead fs = Ok info.
Proof.
  unfold checkBlockingForTechLead.
  destruct (Blocking.findLatestUnansweredQuestion fs) as [file|] eqn:Hfind;
    [|by eexists].
  apply findLatestUnansweredQuestion_listed, questionFiles_exist in Hfind.
  destruct (parseQuestionFile_total fs file Hfind) as [parsed ->].
  by eexists.
Qed.

(** The classification of an exit code the specification gives. *)
Definition statusOf (code : Z) : Status :=
  if decide (code = 0) then success
  else if decide (code = 2) then blocked
  else error.

Lemma toDevAgentResult_total fs a r :
  ∃ d, toDevAgentResult fs a r = Ok d ∧
       area d = a ∧ agentResult d = r ∧ status d = statusOf (exitCode r) ∧
       (questionFile d ≠ None → status d = blocked).
Proof.
  unfold toDevAgentResult, isSuccess, isBlocked, statusOf,
    Blocking.EXIT_CODES_SUCCESS, Blocking.EXIT_CODES_BLOCKED.
  destruct (decide (exitCode r = 0)) as [H0|H0].
  - rewrite bool_decide_eq_true_2 by done. by eexists.
  - rewrite bool_decide_eq_false_2 by done.
    destruct (decide (exitCode r = 2)) as [H2|H2].
    + rewrite bool_decide_eq_true_2 by done.
      destruct (checkBlockingForTechLead_total fs) as [info ->].
      by eexists.
    + rewrite bool_decide_eq_false_2 by done. by eexists.
Qed.

(** C3. The exit code 0 means success, 1 error and 2 blocked, and the
    three tests on an exit code exclude one another. A dev session result
    has exactly one status: "success" for exit code 0, "blocked" for 2,
    "error" for 1 and for every other code. *)
Theorem C3_exit_code_classification :
  (∀ code,
     (Blocking.isSuccessExitCode code = true ↔ code = 0) ∧
     (Blocking.isErrorExitCode code = true ↔ code = 1) ∧
     (Blocking.isBlockedExitCode code = true ↔ code = 2)) ∧
  (∀ fs a r, ∃ d,
     toDevAgentResult fs a r = Ok d ∧
     (status d = success ↔ exitCode r = 0) ∧
     (status d = blocked ↔ exitCode r = 2) ∧
     (status d = error ↔ exitCode r ≠ 0 ∧ exitCode r ≠ 2) ∧
     (exitCode r = 1 → status d = error)).
Proof.
  split.
  - intros code.
    unfold Blocking.isSuccessExitCode, Blocking.isErrorExitCode,
      Blocking.isBlockedExitCode.
    rewrite !bool_decide_eq_true. done.
  - intros fs a r.
    destruct (toDevAgentResult_total fs a r) as (d & Hd & _ & _ & Hstatus & _).
    exists d. split; [done|]. rewrite Hstatus. unfold statusOf.
    destruct (decide (exitCode r = 0)); [|destruct (decide (exitCode r = 2))];
      repeat split; intros; try done; try lia.
    all: by destruct H.
Qed.

Lemma C3_witness :
  ∃ d, toDevAgentResult [] "api"
         {| exitCode := 1; stdout := ""; stderr := "boom"; killed := false |}
       = Ok d ∧ status d = error.
Proof.
  destruct (proj2 C3_exit_code_classification [] "api"
              {| exitCode := 1; stdout := ""; stderr := "boom"; killed := false |})
    as (d & Hd & _ & _ & _ & Herror).
  exists d. split; [exact Hd|]. apply Herror. reflexivity.
Defined.

(** C10. When the child is ended by a signal, "close" reports no exit
    code: the result has exit code 1 and [killed] set, whatever the
    [killed] property of the child says; it counts as an error, not as a
    success and not as blocked, and the dev session result made of it has
    the status "error". *)
Theorem C10_signal_termination childProcess out err signal fs a :
  ∃ r, settle childProcess out err (on_close None (Some signal)) = Ok r ∧
       exitCode r = 1 ∧ killed r = true ∧
       isError r = true ∧ isSuccess r = false ∧ isBlocked r = false ∧
       ∃ d, toDevAgentResult fs a r = Ok d ∧ status d = error.
Proof.
  eexists. split; [reflexivity|]. simpl.
  split; [done|]. split; [by rewrite orb_true_r|].
  split; [done|]. split; [done|]. split; [done|].
  eexists. split; reflexivity.
Qed.

(** The calls and timers of a handle only grow by what [kill] and its
    callback add. *)
Definition timersJustified (rt : Runtime) : Prop :=
  ∀ t, t ∈ timers rt → ∃ t0, (t0, SIGTERM) ∈ calls rt ∧ t = t0 + GRACE_MS.

Definition forcedAfterGrace (rt : Runtime) : Prop :=
  ∀ t, (t, SIGKILL) ∈ calls rt →
       ∃ t0, (t0, SIGTERM) ∈ calls rt ∧ t0 + GRACE_MS ≤ t.

Lemma kill_killed rt : cp_killed (child rt) = true → kill rt = rt.
Proof. unfold kill. by intros ->. Qed.

Lemma kill_first rt :
  cp_killed (child rt) = false →
  calls (kill rt) = calls rt ++ [(clock rt, SIGTERM)] ∧
  timers (kill rt) = timers rt ++ [clock rt + GRACE_MS] ∧
  (cp_exited (child rt) = false → kill (kill rt) = kill rt).
Proof.
  unfold kill. intros Hk. rewrite Hk. simpl. split; [done|]. split; [done|].
  intros He. unfold ChildProcess_kill. by rewrite He.
Qed.

Lemma kill_invariant rt :
  timersJustified rt ∧ forcedAfterGrace rt →
  timersJustified (kill rt) ∧ forcedAfterGrace (kill rt).
Proof.
  intros [Ht Hf]. unfold kill.
  destruct (cp_killed (child rt)); simpl; [done|].
  split.
  - intros t [Hin|Heq%list_elem_of_singleton]%elem_of_app; simpl.
    + destruct (Ht t Hin) as (t0 & ? & ?). exists t0.
      split; [|done]. apply elem_of_app. by left.
    + exists (clock rt). split; [|done]. apply elem_of_app. right. by left.
  - intros t [Hin|[=]%list_elem_of_singleton]%elem_of_app; simpl.
    destruct (Hf t Hin) as (t0 & ? & ?). exists t0.
    split; [|done]. apply elem_of_app. by left.
Qed.

Lemma forceKill_invariant rt t :
  (∃ t0, (t0, SIGTERM) ∈ calls rt ∧ t = t0 + GRACE_MS) →
  timersJustified rt ∧ forcedAfterGrace rt →
  timersJustified (forceKill (setClock rt t)) ∧
  forcedAfterGrace (forceKill (setClock rt t)) ∧
  timers (forceKill (setClock rt t)) = timers rt ∧
  (∀ c, c ∈ calls rt → c ∈ calls (forceKill (setClock rt t))).
Proof.
  intros (t0 & Hin0 & ->) [Ht Hf]. unfold forceKill. simpl.
  destruct (cp_killed (child rt)); simpl;
    [split; [exact Ht|]; split; [exact Hf|]; by split|].
  split; [|split; [|split; [done|]]].
  - intros t Hin. destruct (Ht t Hin) as (t1 & ? & ?). exists t1.
    split; [|done]. apply elem_of_app. by left.
  - intros t [Hin|[= ->]%list_elem_of_singleton]%elem_of_app.
    + destruct (Hf t Hin) as (t1 & ? & ?). exists t1.
      split; [|done]. apply elem_of_app. by left.
    + exists t0. split; [|lia]. apply elem_of_app. by left.
  - intros c Hc. apply elem_of_app. by left.
Qed.

Lemma advance_invariant rt ms :
  timersJustified rt ∧ forcedAfterGrace rt →
  timersJustified (advance rt ms) ∧ forcedAfterGrace (advance rt ms).
Proof.
  intros [Ht Hf]. unfold advance.
  set (now := clock rt + Z.of_N ms).
  set (rt' := {| child := child rt; clock := clock rt;
                 timers := List.filter (λ t, negb (t <=? now)) (timers rt);
                 calls := calls rt |}).
  assert (timersJustified rt' ∧ forcedAfterGrace rt') as Hinv.
  { split; [|done]. intros t Hin. apply Ht.
    apply list_elem_of_In, List.filter_In in Hin as [Hin _].
    by apply list_elem_of_In. }
  assert (∀ t, t ∈ List.filter (λ t, t <=? now) (timers rt) →
            ∃ t0, (t0, SIGTERM) ∈ calls rt' ∧ t = t0 + GRACE_MS) as Hdue.
  { intros t Hin. apply Ht.
    apply list_elem_of_In, List.filter_In in Hin as [Hin _].
    by apply list_elem_of_In. }
  clearbody rt'. generalize dependent rt'.
  induction (List.filter (λ t, t <=? now) (timers rt)) as [|t due IH];
    intros rt' Hinv Hdue; simpl.
  - done.
  - destruct (forceKill_invariant rt' t) as (Ht' & Hf' & _ & Hcalls);
      [apply Hdue; by left|done|].
    apply IH; [done|]. intros t1 Hin.
    destruct (Hdue t1) as (t0 & ? & ?); [by right|].
    exists t0. split; [by apply Hcalls|done].
Qed.

Lemma run_invariant now events :
  timersJustified (run now events) ∧ forcedAfterGrace (run now events).
Proof.
  unfold run.
  assert (timersJustified (spawned now) ∧ forcedAfterGrace (spawned now)) as H.
  { split; intros t Hin; by apply elem_of_nil in Hin. }
  revert H. generalize (spawned now).
  induction events as [|ev events IH]; intros rt H; [done|]. simpl.
  apply IH. destruct ev; simpl.
  - by apply kill_invariant.
  - by apply advance_invariant.
  - done.
Qed.

(** C9 as stated fails for a child that exited by itself: its [killed]
    property is still false, so [kill] invokes [childProcess.kill] with
    SIGTERM and, five seconds later, with SIGKILL. *)
Lemma C9_counterexample :
  let rt := run 0 [ChildExits] in
  cp_exited (child rt) = true ∧
  kill rt ≠ rt ∧
  calls (kill rt) = [(0, SIGTERM)] ∧
  calls (run 0 [ChildExits; CallKill; Elapse 5000]) = [(0, SIGTERM); (5000, SIGKILL)].
Proof. split; [done|]. split; [|done]. intros H. discriminate H. Qed.

(** C9, amended. [kill] is a no-op, with no call of [childProcess.kill]
    and no timer, when the [killed] property of the child is already set.
    Otherwise it asks for graceful termination once (SIGTERM) and sets a
    timer for 5000 ms later; on a child that is still running this sets
    [killed], so a second [kill] changes nothing. A forced kill (SIGKILL)
    is never invoked sooner than 5000 ms after a SIGTERM of the same
    handle. *)
Theorem C9_kill_idempotent :
  (∀ rt, cp_killed (child rt) = true → kill rt = rt) ∧
  (∀ rt, cp_killed (child rt) = false →
     calls (kill rt) = calls rt ++ [(clock rt, SIGTERM)] ∧
     timers (kill rt) = timers rt ++ [clock rt + 5000] ∧
     (cp_exited (child rt) = false → kill (kill rt) = kill rt)) ∧
  (∀ now events t,
     (t, SIGKILL) ∈ calls (run now events) →
     ∃ t0, (t0, SIGTERM) ∈ calls (run now events) ∧ t0 + 5000 ≤ t).
Proof.
  split; [exact kill_killed|]. split; [exact kill_first|].
  intros now events. apply run_invariant.
Qed.

Lemma C9_witness :
  let rt := run 0 [CallKill] in
  kill rt = rt ∧
  calls (kill (spawned 0)) = calls (spawned 0) ++ [(clock (spawned 0), SIGTERM)] ∧
  ∃ t0, (t0, SIGTERM) ∈ calls (run 0 [ChildExits; CallKill; Elapse 5000]) ∧
        t0 + 5000 ≤ 5000.
Proof.
  split; [|split].
  - apply (proj1 C9_kill_idempotent). reflexivity.
  - apply (proj1 (proj2 C9_kill_idempotent)). reflexivity.
  - apply (proj2 (proj2 C9_kill_idempotent) 0 [ChildExits; CallKill; Elapse 5000]).
    right. left.
Defined.

(** The timer callback tests the [killed] property, which the SIGTERM of
    [kill] has set: a child that keeps running after SIGTERM is not sent
    SIGKILL, however long it takes. *)
Example sigterm_ignored_never_forced :
  calls (run 0 [CallKill; Elapse 5000; Elapse 60000]) = [(0, SIGTERM)].
Proof. reflexivity. Qed.

End supervisor.

(** ** Atomic writes leave the question files alone *)
Section atomic_write.
Import Js Blocking.

Lemma tempFileName_ne file now : tempFileName file now ≠ file.
Proof.
  unfold tempFileName. intros H. apply (f_equal String.length) in H.
  rewrite !string_length_app in H. simpl in H. lia.
Qed.

Lemma tempFileName_lastChar file now :
  ∃ c, lastChar (tempFileName file now) = Some c ∧ is_digit c = true.
Proof.
  unfold tempFileName.
  destruct (lastChar_decimal (Z.to_N now)) as (c & Hc & Hdigit).
  exists c. split; [|done].
  assert (decimal (Z.to_N now) ≠ "") as Hne by (by destruct (decimal _)).
  rewrite <-string_app_assoc. by rewrite lastChar_app.
Qed.

Lemma endsWith_md_temp file now : endsWith (tempFileName file now) ".md" = false.
Proof.
  destruct (endsWith _ _) eqn:Hends; [|done].
  apply endsWith_lastChar in Hends; [|done].
  destruct (tempFileName_lastChar file now) as (c & Hc & Hdigit).
  rewrite Hc in Hends. by injection Hends as ->.
Qed.

Lemma isQuestionPath_temp file now : isQuestionPath (tempFileName file now) = false.
Proof.
  destruct (isQuestionPath _) eqn:Hq; [|done].
  apply isQuestionPath_md in Hq. by rewrite endsWith_md_temp in Hq.
Qed.

Lemma getResponseFilePath_md q :
  endsWith q ".md" = true → ∃ stem, q = stem +:+ ".md" ∧
                                    getResponseFilePath q = stem +:+ ".response".
Proof.
  intros (stem & ->)%endsWith_spec. exists stem. split; [done|].
  apply replace_md_at_end_app.
Qed.

Lemma getResponseFilePath_not_question q :
  endsWith q ".md" = true → isQuestionPath (getResponseFilePath q) = false.
Proof.
  intros (stem & -> & ->)%getResponseFilePath_md.
  destruct (isQuestionPath _) eqn:Hq; [|done].
  apply isQuestionPath_md, endsWith_lastChar in Hq; [|done].
  by rewrite lastChar_app in Hq.
Qed.

Lemma getResponseFilePath_ne_temp q file now :
  endsWith q ".md" = true → getResponseFilePath q ≠ tempFileName file now.
Proof.
  intros (stem & -> & ->)%getResponseFilePath_md Heq.
  destruct (tempFileName_lastChar file now) as (c & Hc & Hdigit).
  rewrite <-Heq, lastChar_app in Hc by done. by injection Hc as <-.
Qed.

Lemma filter_fmap_preserved {A} (P : A → Prop) `{!∀ x, Decision (P x)}
    (g : A → A) (l : list A) :
  (∀ x, P x → g x = x) → (∀ x, ¬ P x → ¬ P (g x)) →
  filter P (g <$> l) = filter P l.
Proof.
  intros Hfix Hnot. induction l as [|x l IH]; [done|].
  rewrite fmap_cons, !filter_cons.
  destruct (decide (P x)) as [Hx|Hx].
  - rewrite (Hfix x Hx), decide_True by done. by rewrite IH.
  - rewrite decide_False by by apply Hnot. exact IH.
Qed.

Lemma filter_filter_keep {A} (P K : A → Prop)
    `{!∀ x, Decision (P x)} `{!∀ x, Decision (K x)} (l : list A) :
  (∀ x, P x → K x) → filter P (filter K l) = filter P l.
Proof.
  intros HPK. induction l as [|x l IH]; [done|].
  rewrite !filter_cons.
  destruct (decide (K x)) as [HK|HK].
  - rewrite filter_cons. by rewrite IH.
  - rewrite decide_False by (intros HP; by apply HK, HPK). exact IH.
Qed.

Lemma questionEntries_writeFileSync fs p data now :
  isQuestionPath p = false →
  questionEntries (Fs.writeFileSync fs p data now) = questionEntries fs.
Proof.
  intros Hp. unfold questionEntries, Fs.writeFileSync.
  destruct (Fs.existsSync fs p).
  - apply filter_fmap_preserved.
    + intros f Hf. rewrite decide_False; [done|]. intros <-. congruence.
    + intros f Hf. destruct (decide (Fs.path f = p)); [simpl; congruence|done].
  - rewrite filter_app, filter_cons, decide_False by (simpl; congruence).
    by rewrite filter_nil, app_nil_r.
Qed.

Lemma questionEntries_renameSync fs from to :
  isQuestionPath from = false → isQuestionPath to = false →
  questionEntries (Fs.renameSync fs from to) = questionEntries fs.
Proof.
  intros Hfrom Hto. unfold questionEntries, Fs.renameSync.
  rewrite filter_fmap_preserved.
  - apply filter_filter_keep. intros f Hf. left. intros Heq. congruence.
  - intros f Hf. rewrite decide_False; [done|]. intros Heq. congruence.
  - intros f Hf. destruct (decide (Fs.path f = from)); [simpl; congruence|done].
Qed.

Lemma questionEntries_atomicWrite fs file text now :
  isQuestionPath file = false →
  questionEntries (atomicWrite fs file text now) = questionEntries fs.
Proof.
  intros Hfile. unfold atomicWrite.
  rewrite questionEntries_renameSync by (done || apply isQuestionPath_temp).
  apply questionEntries_writeFileSync, isQuestionPath_temp.
Qed.

Lemma lookupFile_entries fs p :
  isQuestionPath p = true →
  Fs.lookupFile fs p = Fs.lookupFile (questionEntries fs) p.
Proof.
  intros Hp. unfold questionEntries.
  induction fs as [|f fs IH]; [done|].
  rewrite filter_cons, lookupFile_cons.
  destruct (decide (Fs.path f = p)) as [Heq|Hne].
  - rewrite decide_True by congruence. rewrite lookupFile_cons.
    by rewrite decide_True.
  - destruct (decide (isQuestionPath (Fs.path f) = true)); [|done].
    rewrite lookupFile_cons. by rewrite decide_False.
Qed.

Lemma listQuestionFiles_entries fs fs' :
  questionEntries fs = questionEntries fs' →
  listQuestionFiles fs = listQuestionFiles fs'.
Proof.
  intros Heq. rewrite !listQuestionFiles_unfold, !questionFiles_entries, Heq.
  apply sort_key_ext. intros q Hq.
  assert (isQuestionPath q = true) as Hpath.
  { apply (questionFiles_path fs'). by rewrite questionFiles_entries. }
  unfold Fs.statMtimeMs.
  by rewrite (lookupFile_entries fs q Hpath), (lookupFile_entries fs' q Hpath), Heq.
Qed.

Lemma statMtimeMs_entries fs fs' q :
  questionEntries fs = questionEntries fs' → isQuestionPath q = true →
  Fs.statMtimeMs fs q = Fs.statMtimeMs fs' q.
Proof.
  intros Heq Hq. unfold Fs.statMtimeMs.
  by rewrite (lookupFile_entries fs q Hq), (lookupFile_entries fs' q Hq), Heq.
Qed.

Lemma paths_writeFileSync fs p data now q :
  q ∈ Fs.path <$> Fs.writeFileSync fs p data now ↔ q = p ∨ q ∈ Fs.path <$> fs.
Proof.
  unfold Fs.writeFileSync.
  destruct (Fs.existsSync fs p) eqn:Hex.
  - apply bool_decide_eq_true in Hex.
    rewrite <-list_fmap_compose. rewrite !list_elem_of_fmap. split.
    + intros (f & -> & Hf). simpl.
      destruct (decide (Fs.path f = p)); [by left|]. right. by exists f.
    + intros [->|(f & -> & Hf)].
      * apply list_elem_of_fmap in Hex as (f & Hp & Hf). exists f.
        split; [|done]. simpl. by rewrite decide_True.
      * exists f. split; [|done]. simpl.
        by destruct (decide (Fs.path f = p)).
  - rewrite fmap_app, elem_of_app. simpl. rewrite list_elem_of_singleton.
    tauto.
Qed.

Lemma paths_renameSync fs from to q :
  from ∈ Fs.path <$> fs →
  q ∈ Fs.path <$> Fs.renameSync fs from to ↔
  q = to ∨ (q ≠ from ∧ q ∈ Fs.path <$> fs).
Proof.
  intros Hfrom. unfold Fs.renameSync.
  rewrite <-list_fmap_compose. rewrite !list_elem_of_fmap. split.
  - intros (f & -> & [Hkeep Hf]%list_elem_of_filter). simpl.
    destruct (decide (Fs.path f = from)); [by left|].
    right. split; [done|]. by exists f.
  - intros Hq. destruct (decide (q = to)) as [->|Hne].
    + apply list_elem_of_fmap in Hfrom as (f & Hp & Hf). exists f. split.
      * simpl. by rewrite decide_True.
      * apply list_elem_of_filter. split; [by right|done].
    + destruct Hq as [?|(Hqf & f & -> & Hf)]; [done|]. exists f. split.
      * simpl. by rewrite decide_False.
      * apply list_elem_of_filter. split; [by left|done].
Qed.

Lemma existsSync_atomicWrite fs file text now p :
  p ≠ tempFileName file now →
  Fs.existsSync (atomicWrite fs file text now) p =
  bool_decide (p = file) || Fs.existsSync fs p.
Proof.
  intros Hp. unfold Fs.existsSync, atomicWrite.
  apply eq_true_iff_eq.
  rewrite orb_true_iff, !bool_decide_eq_true.
  rewrite paths_renameSync by (apply paths_writeFileSync; by left).
  rewrite paths_writeFileSync. tauto.
Qed.

(** After an atomic write the file reads as what was written. *)
Lemma readFileSync_atomicWrite fs file text now :
  Fs.readFileSync (atomicWrite fs file text now) file = Some text.
Proof.
  unfold Fs.readFileSync.
  destruct (lookupFile_exists (atomicWrite fs file text now) file) as [f Hf].
  { rewrite existsSync_atomicWrite by (intros H; by apply (tempFileName_ne file now)).
    by rewrite bool_decide_eq_true_2. }
  rewrite Hf. simpl. f_equal.
  apply lookupFile_Some in Hf as [Hin Hpath].
  unfold atomicWrite, Fs.renameSync in Hin.
  apply list_elem_of_fmap in Hin as (g & -> & [Hkeep Hg]%list_elem_of_filter).
  destruct (decide (Fs.path g = tempFileName file now)) as [Htemp|Hne].
  - simpl. unfold Fs.writeFileSync in Hg.
    destruct (Fs.existsSync fs (tempFileName file now)) eqn:Hex.
    + apply list_elem_of_fmap in Hg as (h & -> & Hh).
      destruct (decide (Fs.path h = tempFileName file now)); [done|].
      simpl in Htemp. done.
    + apply elem_of_app in Hg as [Hg|Hg%list_elem_of_singleton]; [|by subst g].
      exfalso. apply bool_decide_eq_false in Hex. apply Hex.
      rewrite <-Htemp. by apply list_elem_of_fmap_2.
  - destruct Hkeep as [Hk|Hk]; [by destruct Hk|by destruct Hne].
Qed.

End atomic_write.

(** ** The latest unanswered question *)
Section question_store.
Import Js Blocking.

Lemma find_ext_elem {A} (P Q : A → bool) (l : list A) :
  (∀ x, x ∈ l → P x = Q x) → List.find P l = List.find Q l.
Proof.
  induction l as [|x l IH]; intros H; [done|]. simpl.
  rewrite (H x) by by left.
  rewrite IH by (intros y Hy; apply H; by right). done.
Qed.

Lemma hasResponse_after_writeResponse fs now answered response q q' :
  endsWith q ".md" = true → endsWith q' ".md" = true →
  hasResponse (writeResponse fs now answered q response).1 q' =
  String.eqb q' q || hasResponse fs q'.
Proof.
  intros Hq Hq'. unfold hasResponse, writeResponse. simpl.
  rewrite existsSync_atomicWrite by by apply getResponseFilePath_ne_temp.
  f_equal. apply eq_true_iff_eq.
  rewrite bool_decide_eq_true, eqb_true. split; [|by intros ->].
  by apply replace_md_at_end_inj.
Qed.

Lemma listQuestionFiles_after_writeResponse fs now answered response q :
  endsWith q ".md" = true →
  listQuestionFiles (writeResponse fs now answered q response).1 =
  listQuestionFiles fs.
Proof.
  intros Hq. apply listQuestionFiles_entries. unfold writeResponse. simpl.
  by apply questionEntries_atomicWrite, getResponseFilePath_not_question.
Qed.

(** Two question files written in the same millisecond, none answered. *)
Definition tiedStore : Fs.FileSystem :=
  [ {| Fs.path := ".orchestrator/questions/q-001.md"; Fs.mtimeMs := 5;
       Fs.content := "first" |};
    {| Fs.path := ".orchestrator/questions/q-002.md"; Fs.mtimeMs := 5;
       Fs.content := "second" |} ].

(** C4 as stated fails on ties: the comparator looks at the times only
    and the sort is stable, so of two unanswered files with the same
    modification time the one the directory listing gives first wins, here
    the one with the smaller name. *)
Lemma C4_counterexample :
  let q1 := ".orchestrator/questions/q-001.md" in
  let q2 := ".orchestrator/questions/q-002.md" in
  findLatestUnansweredQuestion tiedStore = Some q1 ∧
  q2 ∈ listQuestionFiles tiedStore ∧
  hasResponse tiedStore q2 = false ∧
  Fs.statMtimeMs tiedStore q2 = Fs.statMtimeMs tiedStore q1 ∧
  String.ltb q1 q2 = true.
Proof.
  split; [reflexivity|]. split; [|by split].
  right. left.
Qed.

(** C4, amended. [findLatestUnansweredQuestion] returns null exactly when
    every question file of the store has a response file. Otherwise it
    returns a question file without response such that no other question
    file without response is newer; among the newest of them it returns
    the one the directory listing gives first (the file name plays no
    part). After [writeResponse] on the file it returned, the next call
    returns the first file of the same newest-first list that is
    unanswered and is not that file, or null. *)
Theorem C4_latest_unanswered :
  (∀ fs, findLatestUnansweredQuestion fs = None ↔
         ∀ q, q ∈ questionFiles fs → hasResponse fs q = true) ∧
  (∀ fs q, findLatestUnansweredQuestion fs = Some q →
     hasResponse fs q = false ∧
     ∃ earlier later, questionFiles fs = earlier ++ q :: later ∧
       (∀ q', q' ∈ earlier → hasResponse fs q' = false →
              Fs.statMtimeMs fs q' < Fs.statMtimeMs fs q) ∧
       (∀ q', q' ∈ later → hasResponse fs q' = false →
              Fs.statMtimeMs fs q' ≤ Fs.statMtimeMs fs q)) ∧
  (∀ fs now answered response q,
     findLatestUnansweredQuestion fs = Some q →
     findLatestUnansweredQuestion (writeResponse fs now answered q response).1 =
     List.find (λ q', negb (hasResponse fs q') && negb (String.eqb q' q))
               (listQuestionFiles fs)).
Proof.
  split; [|split].
  - intros fs. rewrite findLatestUnansweredQuestion_firstNewest, firstNewest_None.
    split; intros H q Hq; specialize (H q Hq).
    + by apply negb_false_iff.
    + by rewrite H.
  - intros fs q. rewrite findLatestUnansweredQuestion_firstNewest.
    intros (l1 & l2 & Hl & HP & H1 & H2)%firstNewest_Some.
    split; [by apply negb_true_iff|].
    exists l1, l2. split; [done|]. split.
    + intros q' Hin Hno. apply H1; [done|]. by rewrite Hno.
    + intros q' Hin Hno. apply H2; [done|]. by rewrite Hno.
  - intros fs now answered response q Hq.
    assert (endsWith q ".md" = true) as Hmd.
    { by apply isQuestionPath_md, (questionFiles_path fs),
        findLatestUnansweredQuestion_listed. }
    unfold findLatestUnansweredQuestion at 1.
    rewrite listQuestionFiles_after_writeResponse by done.
    apply find_ext_elem. intros q' Hq'.
    rewrite listQuestionFiles_perm in Hq'.
    apply questionFiles_path, isQuestionPath_md in Hq'.
    change (Fs.existsSync ?s (getResponseFilePath q')) with (hasResponse s q').
    rewrite hasResponse_after_writeResponse by done.
    rewrite negb_orb. apply andb_comm.
Qed.

Lemma C4_witness :
  let q1 := ".orchestrator/questions/q-001.md" in
  let q2 := ".orchestrator/questions/q-002.md" in
  (hasResponse tiedStore q1 = false ∧
   ∃ earlier later, questionFiles tiedStore = earlier ++ q1 :: later ∧
     (∀ q', q' ∈ earlier → hasResponse tiedStore q' = false →
            Fs.statMtimeMs tiedStore q' < Fs.statMtimeMs tiedStore q1) ∧
     (∀ q', q' ∈ later → hasResponse tiedStore q' = false →
            Fs.statMtimeMs tiedStore q' ≤ Fs.statMtimeMs tiedStore q1)) ∧
  findLatestUnansweredQuestion (writeResponse tiedStore 7 "t" q1 "yes").1 =
  List.find (λ q', negb (hasResponse tiedStore q') && negb (String.eqb q' q1))
            (listQuestionFiles tiedStore).
Proof.
  split.
  - apply (proj1 (proj2 C4_latest_unanswered) tiedStore). reflexivity.
  - apply (proj2 (proj2 C4_latest_unanswered) tiedStore). reflexivity.
Defined.

End question_store.

(** ** Strings: trimming, splitting and joining lines *)
Section line_facts.
Import Js.

Lemma string_app_nil_l s : "" +:+ s = s.
Proof. reflexivity. Qed.

Fixpoint allSpace (s : string) : bool :=
  match s with
  | "" => true
  | String c r => is_space c && allSpace r
  end.

Fixpoint noLineFeed (s : string) : bool :=
  match s with
  | "" => true
  | String c r => negb (Ascii.eqb c LF) && noLineFeed r
  end.

Definition firstChar (s : string) : option ascii :=
  match s with
  | "" => None
  | String c _ => Some c
  end.

Lemma trimEnd_unfold c r :
  trimEnd (String c r) =
  if is_space c && isEmpty (trimEnd r) then "" else String c (trimEnd r).
Proof. reflexivity. Qed.

Lemma trimStart_unfold c r :
  trimStart (String c r) = if is_space c then trimStart r else String c r.
Proof. reflexivity. Qed.

Lemma isEmpty_true s : isEmpty s = true ↔ s = "".
Proof. by destruct s. Qed.

Lemma trimEnd_allSpace s : allSpace s = true → trimEnd s = "".
Proof.
  induction s as [|c r IH]; [done|]. simpl allSpace.
  intros [Hc Hr]%andb_true_iff. rewrite trimEnd_unfold, IH, Hc by done. done.
Qed.

Lemma trimStart_allSpace s : allSpace s = true → trimStart s = "".
Proof.
  induction s as [|c r IH]; [done|]. simpl allSpace.
  intros [Hc Hr]%andb_true_iff. rewrite trimStart_unfold, Hc. by apply IH.
Qed.

Lemma trim_allSpace s : allSpace s = true → trim s = "".
Proof. intros H. unfold trim. by rewrite trimStart_allSpace. Qed.

Lemma allSpace_app s t : allSpace (s +:+ t) = allSpace s && allSpace t.
Proof.
  induction s as [|c r IH]; [done|].
  rewrite string_app_cons. simpl. by rewrite IH, andb_assoc.
Qed.

Lemma trimEnd_app_space s w : allSpace w = true → trimEnd (s +:+ w) = trimEnd s.
Proof.
  intros Hw. induction s as [|c r IH].
  - rewrite string_app_nil_l. by apply trimEnd_allSpace.
  - rewrite string_app_cons, !trimEnd_unfold. by rewrite IH.
Qed.

Lemma length_trimStart s : (String.length (trimStart s) ≤ String.length s)%nat.
Proof.
  induction s as [|c r IH]; [done|]. rewrite trimStart_unfold.
  destruct (is_space c); simpl; lia.
Qed.

Lemma length_trimEnd s : (String.length (trimEnd s) ≤ String.length s)%nat.
Proof.
  induction s as [|c r IH]; [done|]. rewrite trimEnd_unfold.
  destruct (_ && _); simpl; lia.
Qed.

(** A string that [trim] leaves alone neither starts nor ends with white
    space. *)
Lemma trim_fixed_start s : trim s = s → trimStart s = s.
Proof.
  destruct s as [|c r]; [done|]. unfold trim. rewrite trimStart_unfold.
  destruct (is_space c); [|done]. intros H.
  apply (f_equal String.length) in H. simpl in H.
  pose proof (length_trimEnd (trimStart r)).
  pose proof (length_trimStart r). lia.
Qed.

Lemma trim_fixed_end s : trim s = s → trimEnd s = s.
Proof. intros H. pose proof (trim_fixed_start s H) as Hs. unfold trim in H. by rewrite Hs in H. Qed.

Lemma trimStart_fixed_first s c :
  trimStart s = s → firstChar s = Some c → is_space c = false.
Proof.
  destruct s as [|d r]; [done|]. rewrite trimStart_unfold. intros H [= ->].
  destruct (is_space c); [|done].
  apply (f_equal String.length) in H. simpl in H.
  pose proof (length_trimStart r). lia.
Qed.

Lemma trimStart_first s :
  (∀ c, firstChar s = Some c → is_space c = false) → trimStart s = s.
Proof.
  destruct s as [|d r]; [done|]. intros H. rewrite trimStart_unfold.
  by rewrite (H d).
Qed.

Lemma trimEnd_fixed_last s c :
  trimEnd s = s → lastChar s = Some c → is_space c = false.
Proof.
  induction s as [|d r IH]; [done|]. rewrite trimEnd_unfold.
  destruct (is_space d && isEmpty (trimEnd r)) eqn:Hcase; [done|].
  intros [= Hr]. destruct r as [|e r'].
  - intros [= ->]. rewrite andb_true_r in Hcase. done.
  - rewrite lastChar_cons by done. by apply IH.
Qed.

Lemma trimEnd_last s :
  (∀ c, lastChar s = Some c → is_space c = false) → trimEnd s = s.
Proof.
  induction s as [|d r IH]; [done|]. intros H. rewrite trimEnd_unfold.
  destruct r as [|e r'].
  - simpl. by rewrite (H d).
  - rewrite IH by (intros c Hc; apply H; by rewrite lastChar_cons).
    by rewrite andb_false_r.
Qed.

Lemma trim_fixed s :
  trim s = s ↔
  (∀ c, firstChar s = Some c → is_space c = false) ∧
  (∀ c, lastChar s = Some c → is_space c = false).
Proof.
  split.
  - intros H. split; intros c.
    + by apply trimStart_fixed_first, trim_fixed_start.
    + by apply trimEnd_fixed_last, trim_fixed_end.
  - intros [H1 H2]. unfold trim. rewrite (trimStart_first s H1).
    by apply trimEnd_last.
Qed.

(** Line feeds around a trimmed text disappear when it is trimmed again. *)
Lemma trim_between_line_feeds s : trim s = s → trim (nl +:+ s +:+ nl) = s.
Proof.
  intros H. unfold trim.
  change (trimStart (nl +:+ s +:+ nl)) with (trimStart (s +:+ nl)).
  destruct s as [|c r]; [done|].
  pose proof (trimStart_fixed_first _ c (trim_fixed_start _ H) eq_refl) as Hc.
  rewrite string_app_cons, trimStart_unfold, Hc, <-string_app_cons.
  rewrite trimEnd_app_space by done. by apply trim_fixed_end.
Qed.

Lemma split_unfold c r :
  split (String c r) =
  if Ascii.eqb c LF then "" :: split r
  else match split r with
       | l :: ls => String c l :: ls
       | [] => [String c ""]
       end.
Proof. reflexivity. Qed.

Lemma split_nonempty s : ∃ l ls, split s = l :: ls.
Proof.
  induction s as [|c r (l & ls & IH)]; [by eexists _, _|].
  rewrite split_unfold, IH. destruct (Ascii.eqb c LF); by eexists _, _.
Qed.

Lemma split_app_nl a b : split (a +:+ nl +:+ b) = split a ++ split b.
Proof.
  induction a as [|c r IH]; [done|].
  rewrite string_app_cons, !split_unfold, IH.
  destruct (Ascii.eqb c LF); [done|].
  by destruct (split_nonempty r) as (l & ls & ->).
Qed.

Lemma split_noLineFeed s : noLineFeed s = true → split s = [s].
Proof.
  induction s as [|c r IH]; [done|]. simpl noLineFeed.
  intros [Hc Hr]%andb_true_iff. rewrite split_unfold, IH by done.
  by destruct (Ascii.eqb c LF).
Qed.

Lemma join_cons l ls : ls ≠ [] → join (l :: ls) = l +:+ nl +:+ join ls.
Proof. by destruct ls. Qed.

Lemma join_cons_char c l ls : join (String c l :: ls) = String c (join (l :: ls)).
Proof. by destruct ls. Qed.

Lemma join_split s : join (split s) = s.
Proof.
  induction s as [|c r IH]; [done|]. rewrite split_unfold.
  destruct (split_nonempty r) as (l & ls & Hr). rewrite Hr in *.
  destruct (Ascii.eqb c LF) eqn:Hc.
  - apply Ascii.eqb_eq in Hc as ->. rewrite join_cons by done. by rewrite IH.
  - by rewrite join_cons_char, IH.
Qed.

Lemma join_snoc ls l : ls ≠ [] → join (ls ++ [l]) = join ls +:+ nl +:+ l.
Proof.
  induction ls as [|x ls IH]; [done|]. intros _.
  destruct ls as [|y ls]; [done|].
  change ((x :: y :: ls) ++ [l]) with (x :: ((y :: ls) ++ [l])).
  rewrite !join_cons by done. rewrite IH by done.
  by rewrite !string_app_assoc.
Qed.

Lemma split_join ls : ls ≠ [] → split (join ls) = concat (split <$> ls).
Proof.
  induction ls as [|l ls IH]; [done|]. intros _.
  destruct ls as [|l' ls].
  - simpl. by rewrite app_nil_r.
  - rewrite join_cons by done. rewrite split_app_nl, IH by done. done.
Qed.

Lemma split_join_single ls :
  ls ≠ [] → Forall (λ l, noLineFeed l = true) ls → split (join ls) = ls.
Proof.
  intros Hne Hall. rewrite split_join by done. clear Hne.
  induction Hall as [|l ls Hl _ IH]; [done|].
  rewrite fmap_cons, concat_cons, split_noLineFeed by done. by rewrite IH.
Qed.

Lemma firstChar_app s t : s ≠ "" → firstChar (s +:+ t) = firstChar s.
Proof. by destruct s. Qed.

Lemma firstChar_join l ls : l ≠ "" → firstChar (join (l :: ls)) = firstChar l.
Proof.
  intros Hl. destruct ls; [done|]. rewrite join_cons by done.
  by apply firstChar_app.
Qed.

Lemma lastChar_join ls l : l ≠ "" → lastChar (join (ls ++ [l])) = lastChar l.
Proof.
  intros Hl. destruct ls as [|x ls]; [done|].
  rewrite join_snoc by done. rewrite <-string_app_assoc.
  by apply lastChar_app.
Qed.

End line_facts.

(** ** The parser, line by line *)
Section parser_facts.
Import Js Blocking.

(** The five fields the parser extracts. *)
Definition fieldsOf (q : ParsedQuestion)
  : string * Recipient * string * string * list string :=
  (fromAgent q, forRecipient q, context q, question q, options q).

Definition parsedFields (p : Parser)
  : string * Recipient * string * string * list string :=
  (v_fromAgent p, v_forRecipient p, v_context p, v_question p, v_options p).

Definition isTextLine (line : string) : Prop := lineKind line = TextLine.

Lemma parseQuestionFile_read fs file text :
  Fs.readFileSync fs file = Some text →
  ∃ parsed, parseQuestionFile fs file = Ok parsed ∧
            fieldsOf parsed = parsedFields (parseLines (split text)).
Proof. intros H. unfold parseQuestionFile. rewrite H. by eexists. Qed.

Lemma parseLine_text_outside p line :
  isTextLine line → currentSection p = None → parseLine p line = p.
Proof. unfold parseLine. by intros -> ->. Qed.


Lemma foldl_text_inside p s lines :
  Forall isTextLine lines → currentSection p = Some s →
  foldl parseLine p lines =
  {| v_fromAgent := v_fromAgent p; v_forRecipient := v_forRecipient p;
     v_context := v_context p; v_question := v_question p;
     v_options := v_options p; currentSection := Some s;
     sectionContent := sectionContent p ++ lines |}.
Proof.
  intros Hall. revert p. induction Hall as [|l ls Hl _ IH]; intros p Hp.
  - simpl. rewrite app_nil_r. destruct p. simpl in *. by subst.
  - simpl. unfold parseLine at 2. rewrite Hl, Hp.
    rewrite IH by done. simpl. by rewrite <-app_assoc.
Qed.

Lemma parseLine_header p line g :
  lineKind line = HeaderLine g →
  parseLine p line =
  {| v_fromAgent := v_fromAgent (saveSection p);
     v_forRecipient := v_forRecipient (saveSection p);
     v_context := v_context (saveSection p);
     v_question := v_question (saveSection p);
     v_options := v_options (saveSection p);
     currentSection := sectionOf g;
     sectionContent := [] |}.
Proof. unfold parseLine. by intros ->. Qed.














(** The complete question file of the test suite of blocking.ts. *)
Example parse_complete_file :
  parsedFields
    (parseLines
       (split (join [ "# Question from: dev-frontend"; "";
                      "## For: tech_lead"; "";
                      "## Context"; ""; "Working on ticket #3"; "";
                      "## Question"; ""; "Should login use OAuth or email?"; "";
                      "## Options"; "";
                      "A: OAuth only"; "B: Email/password only"; "C: Both"; "" ])))
  = ("dev-frontend", tech_lead, "Working on ticket #3",
     "Should login use OAuth or email?",
     ["A: OAuth only"; "B: Email/password only"; "C: Both"]).
Proof. reflexivity. Qed.

End parser_facts.

(** ** Malformed question files *)
Section malformed_files.
Import Js Blocking.






End malformed_files.

(** ** What [writeQuestionFile] writes *)
Section round_trip.
Import Js Blocking.

(** A name that survives the round trip: one line, no white space around
    it. *)
Definition plainName (s : string) : Prop :=
  trim s = s ∧ no_line_terminator s = true.

(** A free text that survives: no white space around it and no line that
    one of the three patterns of the parser matches. *)
Definition plainText (s : string) : Prop :=
  trim s = s ∧ Forall isTextLine (split s).

(** An option that survives: one such line, not empty. *)
Definition plainOption (o : string) : Prop :=
  trim o = o ∧ o ≠ "" ∧ noLineFeed o = true ∧ isTextLine o.

Lemma noLineFeed_app s t : noLineFeed (s +:+ t) = noLineFeed s && noLineFeed t.
Proof.
  induction s as [|c r IH]; [done|].
  rewrite string_app_cons. simpl. by rewrite IH, andb_assoc.
Qed.

Lemma no_line_terminator_noLineFeed s :
  no_line_terminator s = true → noLineFeed s = true.
Proof.
  induction s as [|c r IH]; [done|]. simpl.
  intros [Hc Hr]%andb_true_iff. rewrite IH by done.
  destruct (Ascii.eqb c LF) eqn:Heq; [|done].
  apply Ascii.eqb_eq in Heq as ->. done.
Qed.

Lemma split_join_nl ls :
  ls ≠ [] → split (join ls +:+ nl) = concat (split <$> ls) ++ [""].
Proof.
  intros Hne. rewrite <-(string_app_nil_r nl), split_app_nl.
  by rewrite split_join.
Qed.

Lemma fromMatch_written from :
  fromMatch ("# Question from: " +:+ from) = spaces group_to_end (" " +:+ from).
Proof.
  change (fromMatch ("# Question from: " +:+ from))
    with (match spaces group_to_end (" " +:+ from) with
          | Some x => Some x
          | None => None
          end).
  by destruct (spaces _ _).
Qed.

Lemma lineKind_from from :
  plainName from →
  ∃ g, lineKind ("# Question from: " +:+ from) = FromLine g ∧ trim g = from.
Proof.
  intros [Htrim Hline]. unfold lineKind. rewrite fromMatch_written.
  destruct from as [|c r].
  - by exists " ".
  - pose proof (trimStart_fixed_first _ c (trim_fixed_start _ Htrim) eq_refl) as Hc.
    exists (String c r). split; [|done].
    change (spaces group_to_end (" " +:+ String c r))
      with (match spaces group_to_end (String c r) with
            | Some x => Some x
            | None => group_to_end (String " " (String c r))
            end).
    change (spaces group_to_end (String c r))
      with (if is_space c then
              match spaces group_to_end r with
              | Some x => Some x
              | None => group_to_end (String c r)
              end
            else group_to_end (String c r)).
    rewrite Hc. unfold group_to_end. by rewrite Hline.
Qed.

Lemma lineKind_for to :
  ∃ g, lineKind ("## For: " +:+ recipientName to) = ForLine g ∧ recipientOf g = to.
Proof. destruct to; by eexists. Qed.

Lemma isTextLine_empty : isTextLine "".
Proof. reflexivity. Qed.

Lemma parseLine_from p line g :
  lineKind line = FromLine g →
  parseLine p line =
  {| v_fromAgent := trim g;
     v_forRecipient := v_forRecipient p; v_context := v_context p;
     v_question := v_question p; v_options := v_options p;
     currentSection := currentSection p; sectionContent := sectionContent p |}.
Proof. unfold parseLine. by intros ->. Qed.

Lemma parseLine_for p line g :
  lineKind line = ForLine g →
  parseLine p line =
  {| v_fromAgent := v_fromAgent p;
     v_forRecipient := recipientOf g; v_context := v_context p;
     v_question := v_question p; v_options := v_options p;
     currentSection := currentSection p; sectionContent := sectionContent p |}.
Proof. unfold parseLine. by intros ->. Qed.

(** What the parser collects between two headers for a text [s] that was
    written on its own line with an empty line before and after. *)
Lemma section_lines s :
  plainText s →
  Forall isTextLine ("" :: split s ++ [""]) ∧
  trim (join ("" :: split s ++ [""])) = s.
Proof.
  intros [Htrim Hlines]. split.
  - constructor; [done|]. apply Forall_app. split; [done|].
    by constructor.
  - destruct (split_nonempty s) as (l & ls & Hs).
    rewrite join_cons by (rewrite Hs; done).
    rewrite join_snoc by (rewrite Hs; done).
    rewrite join_split, string_app_nil_r, string_app_nil_l.
    by apply trim_between_line_feeds.
Qed.

Lemma plainOption_nonblank o : plainOption o → isEmpty (trim o) = false.
Proof. intros (-> & Hne & _). by destruct o. Qed.

Lemma trim_join_options opts :
  Forall plainOption opts → trim (join opts) = join opts.
Proof.
  intros Hall. destruct opts as [|o opts]; [done|].
  apply trim_fixed. split; intros c.
  - apply Forall_cons in Hall as [(Htrim & Hne & _) _].
    rewrite firstChar_join by done.
    by apply trimStart_fixed_first, trim_fixed_start.
  - destruct (exists_last (l := o :: opts)) as (init & z & Hz); [done|].
    rewrite Hz in *. apply Forall_app in Hall as [_ Hlast].
    apply Forall_singleton in Hlast as (Htrim & Hne & _).
    rewrite lastChar_join by done.
    by apply trimEnd_fixed_last, trim_fixed_end.
Qed.

Lemma option_lines opts :
  opts ≠ [] → Forall plainOption opts →
  Forall isTextLine ("" :: opts ++ [""]) ∧
  List.filter (λ l, negb (isEmpty (trim l)))
              (split (trim (join ("" :: opts ++ [""])))) = opts.
Proof.
  intros Hne Hall. split.
  - constructor; [done|]. apply Forall_app. split; [|by constructor].
    eapply Forall_impl; [exact Hall|]. by intros o (_ & _ & _ & ?).
  - rewrite join_cons by by destruct opts.
    rewrite join_snoc by done.
    rewrite string_app_nil_r, string_app_nil_l.
    rewrite trim_between_line_feeds by by apply trim_join_options.
    rewrite split_join_single; [|done|].
    + clear Hne. induction Hall as [|o os Ho _ IH]; [done|]. simpl.
      by rewrite (plainOption_nonblank o Ho), IH.
    + eapply Forall_impl; [exact Hall|]. by intros o (_ & _ & ? & _).
Qed.

(** The lines of the file [writeQuestionFile] writes. *)
Lemma written_lines from to ctx qn opts :
  plainName from → Forall plainOption opts →
  split (join (questionLines from to ctx qn opts) +:+ nl) =
  ["# Question from: " +:+ from; ""; "## For: " +:+ recipientName to; "";
   "## Context"]
  ++ ("" :: split ctx ++ [""]) ++ ["## Question"] ++ ("" :: split qn ++ [""])
  ++ match opts with
     | [] => []
     | _ => ["## Options"] ++ ("" :: opts ++ [""])
     end.
Proof.
  intros [_ Hfrom] Hopts. rewrite split_join_nl by done.
  unfold questionLines.
  assert (split ("# Question from: " +:+ from) = ["# Question from: " +:+ from])
    as Hfirst.
  { apply split_noLineFeed. rewrite noLineFeed_app.
    by rewrite (no_line_terminator_noLineFeed from). }
  assert (split ("## For: " +:+ recipientName to) = ["## For: " +:+ recipientName to])
    as Hsecond by by destruct to.
  assert (concat (split <$> opts) = opts) as Hsplit.
  { clear -Hopts. induction Hopts as [|o os (_ & _ & Ho & _) _ IH]; [done|].
    rewrite fmap_cons, concat_cons, split_noLineFeed by done. by rewrite IH. }
  rewrite fmap_app, concat_app. rewrite !fmap_cons, !concat_cons, fmap_nil, concat_nil.
  rewrite Hfirst, Hsecond.
  change (split "") with [""]. change (split "## Context") with ["## Context"].
  change (split "## Question") with ["## Question"].
  destruct opts as [|o os].
  - rewrite fmap_nil, concat_nil, !app_nil_r. simpl.
    by rewrite <-!app_assoc.
  - rewrite fmap_app, concat_app, Hsplit.
    change (concat (split <$> [""; "## Options"; ""])) with [""; "## Options"; ""].
    simpl. rewrite <-!app_assoc. simpl. by rewrite app_nil_r.
Qed.

End round_trip.

(** ** Writing, then parsing *)
Section round_trip_claim.
Import Js Blocking.

Lemma parse_written from to ctx qn opts :
  plainName from → plainText ctx → plainText qn → Forall plainOption opts →
  parsedFields (parseLines (split (join (questionLines from to ctx qn opts) +:+ nl)))
  = (from, to, ctx, qn, opts).
Proof.
  intros Hfrom Hctx Hqn Hopts.
  destruct (lineKind_from from Hfrom) as (g1 & Hk1 & Hg1).
  destruct (lineKind_for to) as (g2 & Hk2 & Hg2).
  destruct (section_lines ctx Hctx) as [Hctx_lines Hctx_text].
  destruct (section_lines qn Hqn) as [Hqn_lines Hqn_text].
  rewrite written_lines by done. unfold parseLines.
  rewrite !foldl_app.
  change (foldl parseLine parserStart
            ["# Question from: " +:+ from; ""; "## For: " +:+ recipientName to; "";
             "## Context"])
    with (parseLine (parseLine (parseLine (parseLine
            (parseLine parserStart ("# Question from: " +:+ from)) "")
            ("## For: " +:+ recipientName to)) "") "## Context").
  rewrite (parseLine_from parserStart _ g1 Hk1).
  cbn [v_fromAgent v_forRecipient v_context v_question v_options
       currentSection sectionContent parserStart].
  match goal with
  | |- context [parseLine ?p ""] =>
      rewrite (parseLine_text_outside p "")
        by first [exact isTextLine_empty|reflexivity];
      rewrite (parseLine_for p _ g2 Hk2)
  end.
  cbn [v_fromAgent v_forRecipient v_context v_question v_options
       currentSection sectionContent].
  match goal with
  | |- context [parseLine ?p ""] =>
      rewrite (parseLine_text_outside p "")
        by first [exact isTextLine_empty|reflexivity];
      rewrite (parseLine_header p _ "Context") by reflexivity
  end.
  change (sectionOf "Context") with (Some in_context).
  cbn [saveSection v_fromAgent v_forRecipient v_context v_question v_options
       currentSection sectionContent parserStart].
  rewrite (foldl_text_inside _ in_context ("" :: split ctx ++ [""]))
    by first [exact Hctx_lines|reflexivity].
  cbn [v_fromAgent v_forRecipient v_context v_question v_options
       currentSection sectionContent app].
  change (foldl parseLine ?p ["## Question"]) with (parseLine p "## Question").
  rewrite (parseLine_header _ _ "Question") by reflexivity.
  change (sectionOf "Question") with (Some in_question).
  cbn [saveSection v_fromAgent v_forRecipient v_context v_question v_options
       currentSection sectionContent].
  rewrite Hctx_text.
  rewrite (foldl_text_inside _ in_question ("" :: split qn ++ [""]))
    by first [exact Hqn_lines|reflexivity].
  cbn [v_fromAgent v_forRecipient v_context v_question v_options
       currentSection sectionContent app].
  destruct opts as [|o os].
  - cbn [foldl]. unfold parsedFields, saveSection.
    cbn [v_fromAgent v_forRecipient v_context v_question
         v_options currentSection sectionContent].
    by rewrite Hqn_text, Hg1, Hg2.
  - destruct (option_lines (o :: os)) as [Hopt_lines Hopt_text]; [done..|].
    change (foldl parseLine ?p ("## Options" :: ?l))
      with (foldl parseLine (parseLine p "## Options") l).
    rewrite (parseLine_header _ _ "Options") by reflexivity.
    change (sectionOf "Options") with (Some in_options).
    cbn [saveSection v_fromAgent v_forRecipient v_context v_question v_options
         currentSection sectionContent].
    rewrite Hqn_text.
    rewrite (foldl_text_inside _ in_options ("" :: (o :: os) ++ [""]))
      by first [exact Hopt_lines|reflexivity].
    unfold parsedFields, saveSection.
    cbn [v_fromAgent v_forRecipient v_context v_question v_options
         currentSection sectionContent].
    by rewrite !app_nil_l, Hopt_text, Hg1, Hg2.
Qed.

(** C5 as stated fails for texts the parser normalizes: it trims what
    it collects, so a context that starts with a space comes back without
    it. (It also reads a line of free text that starts with "##" as a
    header and drops blank options.) *)
Lemma C5_counterexample :
  ∃ parsed,
    parseQuestionFile
      (writeQuestionFile [] 0 "dev" user " indented" "Which one?" []).1
      (writeQuestionFile [] 0 "dev" user " indented" "Which one?" []).2
    = Ok parsed ∧
    fromAgent parsed = "dev" ∧
    context parsed = "indented" ∧
    context parsed ≠ " indented".
Proof. eexists. split; [reflexivity|]. by split. Qed.

(** C5, amended. Writing a question and parsing the written file gives
    back the same [fromAgent], [forRecipient], [context], [question] and
    [options] when the agent name is a single line without white space
    around it, context and question have no white space around them and
    no line that the parser reads as a header ("# Question from:", "##
    ..."), and every option is such a line and is not empty. *)
Theorem C5_question_round_trip fs now from to ctx qn opts :
  plainName from → plainText ctx → plainText qn → Forall plainOption opts →
  ∃ parsed,
    parseQuestionFile (writeQuestionFile fs now from to ctx qn opts).1
                      (writeQuestionFile fs now from to ctx qn opts).2
    = Ok parsed ∧
    fromAgent parsed = from ∧ forRecipient parsed = to ∧
    context parsed = ctx ∧ question parsed = qn ∧ options parsed = opts.
Proof.
  intros Hfrom Hctx Hqn Hopts. unfold writeQuestionFile. simpl.
  destruct (parseQuestionFile_read _ _ _
              (readFileSync_atomicWrite fs (generateQuestionFileName fs)
                 (join (questionLines from to ctx qn opts) +:+ nl) now))
    as (parsed & Hparsed & Hfields).
  exists parsed. split; [done|].
  rewrite parse_written in Hfields by done.
  unfold fieldsOf in Hfields. by injection Hfields as -> -> -> -> ->.
Qed.

Lemma C5_witness :
  ∃ parsed,
    parseQuestionFile
      (writeQuestionFile [] 1700 "dev-frontend" tech_lead
         "Working on ticket #3" "OAuth or email?" ["A: OAuth"; "B: Email"]).1
      (writeQuestionFile [] 1700 "dev-frontend" tech_lead
         "Working on ticket #3" "OAuth or email?" ["A: OAuth"; "B: Email"]).2
    = Ok parsed ∧
    fromAgent parsed = "dev-frontend" ∧ forRecipient parsed = tech_lead ∧
    context parsed = "Working on ticket #3" ∧
    question parsed = "OAuth or email?" ∧
    options parsed = ["A: OAuth"; "B: Email"].
Proof.
  apply C5_question_round_trip.
  - split; reflexivity.
  - split; [reflexivity|]. repeat constructor.
  - split; [reflexivity|]. repeat constructor.
  - repeat constructor; discriminate.
Defined.

End round_trip_claim.

(** ** The scheduler: spawning and collecting *)
Section scheduler.
Import Js Base Dev.

(** What [spawnDevAgent] asks of a session and of the files it reads. *)
Definition validSession (s : DevSessionInput) : Prop :=
  isEmpty (trim (input_area s)) = false ∧ input_tickets s ≠ [].

Definition filesPresent (fs : Fs.FileSystem) (options : RunDevSessionsOptions)
  : Prop :=
  let prompt := default DEV_PROMPT_FILE (promptFile options) in
  isEmpty (trim prompt) = false ∧
  Fs.existsSync fs prompt = true ∧
  Fs.existsSync fs (default PRD_FILE (prdFile options)) = true ∧
  Fs.existsSync fs (default ARCHITECTURE_FILE (architectureFile options)) = true.

(** The child ran and ended: the promise is settled by "close". *)
Definition closes (e : Execution) : Prop :=
  ∃ code signal, ending e = on_close code signal.

Definition handleOf (s : DevSessionInput) : DevSessionHandle :=
  {| handle_area := input_area s;
     agentHandle := {| handle_name := "dev-" +:+ input_area s |};
     handle_tickets := input_tickets s |}.

Definition noResult : DevAgentResult :=
  {| area := ""; status := error; questionFile := None; needsTechLead := false;
     agentResult := {| exitCode := 1; stdout := ""; stderr := ""; killed := false |} |}.

(** The result of one session, by its input and the way its child ends. *)
Definition resultOf (s : DevSessionInput) (e : Execution) : DevAgentResult :=
  match handleResult (handleOf s) e with
  | Ok d => d
  | Throw _ => noResult
  end.

(** The results in the order of the input. *)
Definition expectedResults (sessions : list DevSessionInput)
    (runs : list Execution) : list DevAgentResult :=
  zip_with resultOf sessions runs.

Lemma handleResult_closes s e :
  closes e →
  handleResult (handleOf s) e = Ok (resultOf s e) ∧
  area (resultOf s e) = input_area s ∧
  (questionFile (resultOf s e) ≠ None → status (resultOf s e) = blocked) ∧
  status (resultOf s e) = statusOf (exitCode (agentResult (resultOf s e))).
Proof.
  intros (code & signal & Hend). unfold resultOf, handleResult.
  rewrite Hend. simpl.
  match goal with
  | |- context [toDevAgentResult ?fs ?a ?r] =>
      destruct (toDevAgentResult_total fs a r) as (d & -> & Ha & Hr & Hs & Hq)
  end.
  simpl. rewrite Hr. done.
Qed.

Lemma spawnDevAgent_valid fs options s :
  validSession s → filesPresent fs options →
  spawnDevAgent fs options s = Ok (handleOf s).
Proof.
  intros [Harea Htickets] (Hblank & Hprompt & Hprd & Harch).
  unfold spawnDevAgent. rewrite Harea.
  rewrite bool_decide_eq_false_2 by done.
  cbv zeta. rewrite Hprompt, Hprd, Harch. simpl negb. cbv iota.
  unfold spawnAgent, validateConfig. simpl Base.name. simpl Base.promptFile.
  change (isEmpty (trim ("dev-" +:+ input_area s))) with false.
  rewrite Hblank, Hprompt. done.
Qed.

Lemma spawnAll_valid fs options sessions :
  Forall validSession sessions → filesPresent fs options →
  spawnAll fs options sessions = Ok (handleOf <$> sessions).
Proof.
  intros Hall Hfiles. induction Hall as [|s ss Hs _ IH]; [done|]. simpl.
  rewrite spawnDevAgent_valid by done. simpl. by rewrite IH.
Qed.

Lemma mapM_id_Some {A} (l : list A) : mapM id (Some <$> l) = Some l.
Proof. apply mapM_Some. induction l; by constructor. Qed.

(** [Promise.all]: when every child has settled, in whatever order, the
    values stand at the positions of their promises. *)
Lemma promiseAll_resolves sessions runs settled values :
  Forall closes runs → length runs = length sessions →
  length values = length sessions →
  (∀ i s e, sessions !! i = Some s → runs !! i = Some e →
            i ∈ settled ∨ values !! i = Some (Some (resultOf s e))) →
  promiseAll (handleOf <$> sessions) runs settled values
  = Resolved (expectedResults sessions runs).
Proof.
  intros Hcloses Hruns. revert values.
  induction settled as [|i later IH]; intros values Hlen Hfilled; simpl.
  - assert (values = Some <$> expectedResults sessions runs) as ->;
      [|by rewrite mapM_id_Some].
    apply list_eq. intros i. unfold expectedResults.
    rewrite list_lookup_fmap, lookup_zip_with.
    destruct (sessions !! i) as [s|] eqn:Hs; simpl.
    + destruct (runs !! i) as [e|] eqn:He; simpl.
      * destruct (Hfilled i s e Hs He) as [Hin|Hv]; [|done].
        by apply elem_of_nil in Hin.
      * apply lookup_lt_Some in Hs. apply lookup_ge_None in He. lia.
    + apply lookup_ge_None in Hs. apply lookup_ge_None. lia.
  - rewrite list_lookup_fmap.
    destruct (sessions !! i) as [s|] eqn:Hs; simpl.
    + destruct (runs !! i) as [e|] eqn:He.
      * assert (closes e) as He'.
        { eapply Forall_forall; [exact Hcloses|]. by eapply list_elem_of_lookup_2. }
        destruct (handleResult_closes s e He') as [-> _].
        apply IH; [by rewrite length_insert|].
        intros j s' e' Hs' He''.
        destruct (decide (j = i)) as [->|Hne].
        { right. rewrite list_lookup_insert_eq
            by (apply lookup_lt_Some in Hs; lia). congruence. }
        rewrite list_lookup_insert_ne by done.
        destruct (Hfilled j s' e' Hs' He'') as [Hin|Hv]; [|by right].
        apply elem_of_cons in Hin as [?|?]; [done|by left].
      * apply lookup_lt_Some in Hs. apply lookup_ge_None in He. lia.
    + apply IH; [done|]. intros j s' e' Hs' He'.
      destruct (Hfilled j s' e' Hs' He') as [Hin|Hv]; [|by right].
      apply elem_of_cons in Hin as [->|?]; [congruence|by left].
Qed.

Lemma runSequentially_resolves fs options sessions runs :
  Forall validSession sessions → filesPresent fs options →
  Forall (λ e, closes e ∧ filesPresent (storeAtEnd e) options) runs →
  length runs = length sessions →
  runSequentially fs options sessions runs
  = Resolved (expectedResults sessions runs).
Proof.
  intros Hall. revert fs runs.
  induction Hall as [|s ss Hs _ IH]; intros fs runs Hfiles Hruns Hlen.
  - by destruct runs.
  - destruct runs as [|e runs]; [done|].
    apply Forall_cons in Hruns as [[Hcloses Hnext] Hruns].
    simpl. rewrite spawnDevAgent_valid by done.
    destruct (handleResult_closes s e Hcloses) as [-> _].
    rewrite (IH (storeAtEnd e) runs) by (done || simpl in Hlen; lia).
    done.
Qed.

End scheduler.

(** ** Results in input order *)
Section scheduler_claim.
Import Js Base Dev.

(** A store with the prompt, the PRD and the architecture, and one
    unanswered question for the tech lead. *)
Definition projectStore : Fs.FileSystem :=
  [ {| Fs.path := "prompts/dev.md"; Fs.mtimeMs := 1; Fs.content := "You are a Dev agent" |};
    {| Fs.path := ".orchestrator/prd.md"; Fs.mtimeMs := 2; Fs.content := "# PRD" |};
    {| Fs.path := ".orchestrator/architecture.md"; Fs.mtimeMs := 3;
       Fs.content := "# Architecture" |};
    {| Fs.path := ".orchestrator/questions/q-001.md"; Fs.mtimeMs := 4;
       Fs.content := "## For: tech_lead" |} ].

Definition defaults : RunDevSessionsOptions :=
  {| parallel := None; prdFile := None; architectureFile := None;
     promptFile := None |}.

Definition sequential : RunDevSessionsOptions :=
  {| parallel := Some false; prdFile := None; architectureFile := None;
     promptFile := None |}.

Definition exitsWith (code : Z) : Execution :=
  {| childAtEnd := {| cp_killed := false; cp_exited := true |};
     out := ""; err := ""; ending := on_close (Some code) None;
     storeAtEnd := projectStore |}.

(** C2 as stated fails for an input the checks of [spawnDevAgent]
    reject: a session with a blank area (or without tickets) makes the
    call throw, in both modes, and no result is returned for it. *)
Lemma C2_counterexample :
  let sessions := [ {| input_area := ""; input_tickets := [1] |} ] in
  runDevSessions projectStore sessions defaults [exitsWith 0] [0%nat]
  = Rejected (DevFailure AreaRequired) ∧
  runDevSessions projectStore sessions sequential [exitsWith 0] [0%nat]
  = Rejected (DevFailure AreaRequired).
Proof. by split. Qed.

(** C2, amended. When every session has a non-blank area and at least
    one ticket, the prompt, PRD and architecture files exist (in the
    sequential mode also after each session), and every spawned child
    ends with a "close" event, [runDevSessions] returns exactly one result
    per session, in the order of the input: the same list for every order
    in which the children settle and for both values of [parallel]. The
    area of each result is the area of its session, and only a result
    with the status "blocked" carries a question file. *)
Theorem C2_results_in_input_order fs sessions options runs settled :
  Forall validSession sessions →
  filesPresent fs options →
  Forall closes runs →
  (parallel options = Some false →
   Forall (λ e, filesPresent (storeAtEnd e) options) runs) →
  length runs = length sessions →
  settled ≡ₚ seq 0 (length sessions) →
  runDevSessions fs sessions options runs settled
  = Resolved (expectedResults sessions runs) ∧
  Forall2 (λ s d, area d = input_area s ∧
                  (questionFile d ≠ None → status d = blocked))
          sessions (expectedResults sessions runs).
Proof.
  intros Hvalid Hfiles Hcloses Hlater Hlen Hsettled. split.
  - unfold runDevSessions. destruct sessions as [|s ss] eqn:Hsessions.
    { by destruct runs. }
    rewrite <-Hsessions in *. clear Hsessions s ss.
    destruct (parallel options) as [[]|] eqn:Hpar; simpl.
    + rewrite spawnAll_valid by done.
      apply promiseAll_resolves; [done|done|by rewrite length_replicate, length_fmap|].
      intros i s e Hs _. left. rewrite Hsettled.
      apply elem_of_seq. apply lookup_lt_Some in Hs. lia.
    + apply runSequentially_resolves; [done|done| |done].
      apply Forall_forall. intros e He. split.
      * by eapply Forall_forall in Hcloses.
      * eapply Forall_forall in Hlater; [exact Hlater|done|done].
    + rewrite spawnAll_valid by done.
      apply promiseAll_resolves; [done|done|by rewrite length_replicate, length_fmap|].
      intros i s e Hs _. left. rewrite Hsettled.
      apply elem_of_seq. apply lookup_lt_Some in Hs. lia.
  - unfold expectedResults. clear Hvalid Hlater Hsettled Hfiles.
    revert runs Hcloses Hlen.
    induction sessions as [|s ss IH]; intros runs Hcloses Hlen.
    { destruct runs; [constructor|done]. }
    destruct runs as [|e runs]; [done|].
    apply Forall_cons in Hcloses as [He Hcloses]. simpl. constructor.
    + destruct (handleResult_closes s e He) as (_ & Ha & Hq & _). done.
    + apply IH; [done|]. simpl in Hlen. lia.
Qed.

(** The three sessions of the specification: the first child exits with
    0, the second with 2, the third with 1; the third settles first. *)
Definition threeSessions : list DevSessionInput :=
  [ {| input_area := "frontend"; input_tickets := [1; 3] |};
    {| input_area := "backend"; input_tickets := [2] |};
    {| input_area := "api"; input_tickets := [5] |} ].

Definition threeRuns : list Execution := [exitsWith 0; exitsWith 2; exitsWith 1].

Lemma third_first_second : [2; 0; 1]%nat ≡ₚ seq 0 3.
Proof.
  eapply perm_trans; [apply perm_swap|]. apply perm_skip, perm_swap.
Qed.

Lemma C2_witness :
  runDevSessions projectStore threeSessions defaults threeRuns [2; 0; 1]%nat
  = Resolved (expectedResults threeSessions threeRuns) ∧
  Forall2 (λ s d, area d = input_area s ∧
                  (questionFile d ≠ None → status d = blocked))
          threeSessions (expectedResults threeSessions threeRuns).
Proof.
  apply C2_results_in_input_order.
  - repeat constructor; discriminate.
  - repeat split; reflexivity.
  - repeat constructor; by eexists _, _.
  - discriminate.
  - reflexivity.
  - exact third_first_second.
Defined.

(** The same run, evaluated: areas and statuses in input order, and a
    question file on the blocked result only. *)
Example three_sessions_scenario :
  ∃ results,
    runDevSessions projectStore threeSessions defaults threeRuns [2; 0; 1]%nat
    = Resolved results ∧
    area <$> results = ["frontend"; "backend"; "api"] ∧
    status <$> results = [success; blocked; error] ∧
    questionFile <$> results
    = [None; Some ".orchestrator/questions/q-001.md"; None] ∧
    needsTechLead <$> results = [false; true; false].
Proof. eexists. split; [reflexivity|]. by repeat split. Qed.

End scheduler_claim.

(** ** The state store: looking sessions up *)
Section session_lookup.
Import StateStore.

Lemma getDevSession_findIndex state a :
  getDevSession state a = None ↔ findIndex (devSessions state) a = None.
Proof.
  unfold getDevSession, findIndex.
  by destruct (list_find _ _) as [[]|].
Qed.

Lemma getDevSession_cons now state s sessions b :
  getDevSession (withSessions now state (s :: sessions)) b =
  if decide (area s = b) then Some s
  else getDevSession (withSessions now state sessions) b.
Proof.
  unfold getDevSession. simpl. destruct (decide (area s = b)); [done|].
  by destruct (list_find _ sessions) as [[]|].
Qed.

Lemma getDevSession_nil now state b :
  getDevSession (withSessions now state []) b = None.
Proof. done. Qed.

Lemma getDevSession_snoc now state sessions s b :
  getDevSession (withSessions now state (sessions ++ [s])) b =
  match getDevSession (withSessions now state sessions) b with
  | Some s' => Some s'
  | None => if decide (area s = b) then Some s else None
  end.
Proof.
  induction sessions as [|x sessions IH].
  - simpl app. rewrite getDevSession_cons, !getDevSession_nil. done.
  - change ((x :: sessions) ++ [s]) with (x :: (sessions ++ [s])).
    rewrite !getDevSession_cons. by destruct (decide (area x = b)).
Qed.

Lemma getDevSession_filter now state sessions a b :
  getDevSession (withSessions now state (filter (λ s, area s ≠ a) sessions)) b =
  if decide (b = a) then None else getDevSession (withSessions now state sessions) b.
Proof.
  induction sessions as [|s sessions IH].
  - rewrite filter_nil, getDevSession_nil. by destruct (decide (b = a)).
  - rewrite filter_cons. destruct (decide (area s ≠ a)) as [Hne|Heq].
    + rewrite !getDevSession_cons, IH.
      destruct (decide (area s = b)) as [<-|Hb]; [|done].
      by rewrite decide_False.
    + apply dec_stable in Heq. rewrite IH, getDevSession_cons.
      destruct (decide (b = a)) as [->|Hb]; [done|].
      by rewrite decide_False by congruence.
Qed.

Lemma findIndex_cons s sessions a :
  findIndex (s :: sessions) a =
  if decide (area s = a) then Some 0%nat else S <$> findIndex sessions a.
Proof.
  unfold findIndex. simpl. destruct (decide (area s = a)); [done|].
  by destruct (list_find _ sessions) as [[]|].
Qed.

Lemma getDevSession_alter now state sessions a f b :
  (∀ s, area (f s) = area s) →
  getDevSession
    (withSessions now state
       (match findIndex sessions a with
        | Some i => alter f i sessions
        | None => sessions
        end)) b =
  if decide (b = a) then f <$> getDevSession (withSessions now state sessions) b
  else getDevSession (withSessions now state sessions) b.
Proof.
  intros Hf. induction sessions as [|s sessions IH].
  - simpl. rewrite getDevSession_nil. by destruct (decide (b = a)).
  - rewrite findIndex_cons. destruct (decide (area s = a)) as [Ha|Ha].
    + simpl alter. rewrite !getDevSession_cons, Hf.
      destruct (decide (b = a)) as [->|Hb].
      * by rewrite !decide_True by done.
      * by rewrite !decide_False by congruence.
    + destruct (findIndex sessions a) as [i|] eqn:Hi; simpl.
      * change (list_alter f i sessions) with (alter f i sessions).
        rewrite !getDevSession_cons, IH.
        destruct (decide (area s = b)) as [Hsb|Hsb]; [|done].
        by rewrite decide_False by congruence.
      * rewrite !getDevSession_cons.
        destruct (decide (area s = b)) as [Hsb|Hsb].
        { by rewrite decide_False by congruence. }
        destruct (decide (b = a)) as [Hb|Hb]; [|done].
        exact IH.
Qed.

Lemma withSessions_same now state :
  getDevSession (withSessions now state (devSessions state)) = getDevSession state.
Proof. done. Qed.

(** X1. [addDevSession] throws exactly when [getDevSession] finds a session of
    the area. Otherwise [getDevSession] finds the new session, pending and
    with the tickets given, under its area, and what it finds under any
    other area is as before. *)
Theorem addDevSession_then_getDevSession now state a ts :
  (is_Some (getDevSession state a) →
   addDevSession now state a ts = Throw (SessionAlreadyExists a)) ∧
  (getDevSession state a = None →
   ∃ state', addDevSession now state a ts = Ok state' ∧
     getDevSession state' a
     = Some {| area := a; tickets := ts; status := pending |} ∧
     ∀ b, b ≠ a → getDevSession state' b = getDevSession state b).
Proof.
  split.
  - intros [s Hs]. unfold addDevSession.
    destruct (findIndex (devSessions state) a) eqn:Hi; [done|].
    apply getDevSession_findIndex in Hi. congruence.
  - intros Hnone. pose proof Hnone as Hi. apply getDevSession_findIndex in Hi.
    unfold addDevSession. rewrite Hi. eexists. split; [done|].
    split.
    + rewrite getDevSession_snoc, withSessions_same, Hnone. simpl.
      by rewrite decide_True.
    + intros b Hb. rewrite getDevSession_snoc, withSessions_same. simpl.
      destruct (getDevSession state b); [done|]. by rewrite decide_False.
Qed.

(** X2. [updateDevSession] throws exactly when [getDevSession] finds no session
    of the area. Otherwise the session found under the area afterwards is
    the one found before with the updates laid over it; the sessions of
    the other areas, and the order of the areas, are as before. *)
Theorem updateDevSession_then_getDevSession now state a u :
  (getDevSession state a = None →
   updateDevSession now state a u = Throw (SessionNotFound a)) ∧
  (∀ s, getDevSession state a = Some s →
   ∃ state', updateDevSession now state a u = Ok state' ∧
     getDevSession state' a = Some (applyUpdates s u) ∧
     (∀ b, b ≠ a → getDevSession state' b = getDevSession state b) ∧
     area <$> devSessions state' = area <$> devSessions state).
Proof.
  split.
  - intros Hi%getDevSession_findIndex. unfold updateDevSession. by rewrite Hi.
  - intros s Hs. unfold updateDevSession.
    destruct (findIndex (devSessions state) a) as [i|] eqn:Hi.
    2:{ apply getDevSession_findIndex in Hi. congruence. }
    eexists. split; [done|].
    pose proof (getDevSession_alter now state (devSessions state) a
                  (λ s, applyUpdates s u)) as Halter.
    rewrite Hi in Halter. split; [|split].
    + rewrite Halter by done. rewrite decide_True by done.
      by rewrite withSessions_same, Hs.
    + intros b Hb. rewrite Halter by done. by rewrite decide_False.
    + apply areas_alter.
Qed.

(** X3. [removeDevSession] throws exactly when [getDevSession] finds no session
    of the area. Otherwise no session of the area is left, the sessions of
    the other areas are found as before, and the area can be added
    again. *)
Theorem removeDevSession_then_getDevSession now state a :
  (getDevSession state a = None →
   removeDevSession now state a = Throw (SessionNotFound a)) ∧
  (is_Some (getDevSession state a) →
   ∃ state', removeDevSession now state a = Ok state' ∧
     getDevSession state' a = None ∧
     (∀ b, b ≠ a → getDevSession state' b = getDevSession state b) ∧
     ∀ now' ts, ∃ state'', addDevSession now' state' a ts = Ok state'').
Proof.
  split.
  - intros Hi%getDevSession_findIndex. unfold removeDevSession. by rewrite Hi.
  - intros [s Hs]. unfold removeDevSession.
    destruct (findIndex (devSessions state) a) as [i|] eqn:Hi.
    2:{ apply getDevSession_findIndex in Hi. congruence. }
    eexists. split; [done|].
    assert (getDevSession
              (withSessions now state (filter (λ s0, area s0 ≠ a) (devSessions state))) a
            = None) as Hgone.
    { rewrite getDevSession_filter. by rewrite decide_True. }
    split; [done|]. split.
    + intros b Hb. rewrite getDevSession_filter. by rewrite decide_False.
    + intros now' ts. apply getDevSession_findIndex in Hgone.
      unfold addDevSession. rewrite Hgone. by eexists.
Qed.

Definition twoSessions : State :=
  {| phase := dev_sessions;
     blocked := {| isBlocked := false; blockedAgent := None;
                   questionFile := None; waitingFor := None |};
     devSessions := [ {| area := "frontend"; tickets := [1; 3]; status := running |};
                      {| area := "backend"; tickets := [2]; status := pending |} ];
     currentAgent := None;
     lastUpdated := "2026-01-01T00:00:00.000Z" |}.

Lemma addDevSession_then_getDevSession_witness :
  ∃ state', addDevSession "t" twoSessions "api" [5] = Ok state' ∧
    getDevSession state' "api"
    = Some {| area := "api"; tickets := [5]; status := pending |} ∧
    ∀ b, b ≠ "api" → getDevSession state' b = getDevSession twoSessions b.
Proof.
  apply (proj2 (addDevSession_then_getDevSession "t" twoSessions "api" [5])).
  reflexivity.
Defined.

Lemma updateDevSession_then_getDevSession_witness :
  let u := {| new_tickets := None; new_status := Some completed_session |} in
  ∃ state', updateDevSession "t" twoSessions "frontend" u = Ok state' ∧
    getDevSession state' "frontend"
    = Some {| area := "frontend"; tickets := [1; 3]; status := completed_session |} ∧
    (∀ b, b ≠ "frontend" → getDevSession state' b = getDevSession twoSessions b) ∧
    area <$> devSessions state' = area <$> devSessions twoSessions.
Proof.
  intros u.
  apply (proj2 (updateDevSession_then_getDevSession "t" twoSessions "frontend" u)
           {| area := "frontend"; tickets := [1; 3]; status := running |}).
  reflexivity.
Defined.

Lemma removeDevSession_then_getDevSession_witness :
  ∃ state', removeDevSession "t" twoSessions "backend" = Ok state' ∧
    getDevSession state' "backend" = None ∧
    (∀ b, b ≠ "backend" → getDevSession state' b = getDevSession twoSessions b) ∧
    ∀ now' ts, ∃ state'', addDevSession now' state' "backend" ts = Ok state''.
Proof.
  apply (proj2 (removeDevSession_then_getDevSession "t" twoSessions "backend")).
  by eexists.
Defined.

End session_lookup.

(** ** The state store: the phase over a run of calls *)
Section phase_progress.
Import StateStore.

(** The position of a phase in the fixed order. *)
Definition rank (p : Phase) : nat :=
  match p with
  | init => 0
  | po_conversation => 1
  | tech_lead_design => 2
  | dev_sessions => 3
  | completed => 4
  end.

Definition isTransition (call : string * Operation) : bool :=
  match call.2 with
  | transitionTo _ => true
  | _ => false
  end.

Lemma perform_rank now op state state' :
  perform now op state = Ok state' →
  rank (phase state') =
  (rank (phase state) + if isTransition (now, op) then 1 else 0)%nat.
Proof.
  destruct op; simpl; unfold isTransition; simpl.
  - unfold transitionPhase.
    destruct (isValidTransition (phase state) newPhase) eqn:Hvalid; [|done].
    intros [= <-]. simpl.
    apply bool_decide_eq_true in Hvalid.
    destruct (phase state); simpl in Hvalid;
      repeat (apply elem_of_cons in Hvalid as [->|Hvalid]; [done|]);
      by apply elem_of_nil in Hvalid.
  - intros [= <-]. simpl. lia.
  - intros [= <-]. simpl. lia.
  - intros [= <-]. simpl. lia.
  - unfold addDevSession. destruct (findIndex _ _); [done|].
    intros [= <-]. simpl. lia.
  - unfold updateDevSession. destruct (findIndex _ _); [|done].
    intros [= <-]. simpl. lia.
  - unfold removeDevSession. destruct (findIndex _ _); [|done].
    intros [= <-]. simpl. lia.
Qed.

Lemma rank_le p : (rank p ≤ 4)%nat.
Proof. destruct p; simpl; lia. Qed.

Lemma rank_completed p : rank p = 4%nat ↔ p = completed.
Proof. by destruct p. Qed.

Lemma callAll_rank ops state :
  (rank (phase state) ≤ rank (phase (callAll ops state)))%nat ∧
  (rank (phase (callAll ops state))
   ≤ rank (phase state) + length (List.filter isTransition ops))%nat.
Proof.
  revert state. induction ops as [|[now op] ops IH]; intros state; simpl.
  { lia. }
  destruct (perform now op state) as [state'|e] eqn:Hperform.
  - apply perform_rank in Hperform. destruct (IH state') as [H1 H2].
    destruct (isTransition (now, op)); simpl; lia.
  - destruct (IH state) as [H1 H2].
    destruct (isTransition (now, op)); simpl; lia.
Qed.

(** X4. Over any run of calls on a state manager, failed ones included, the
    phase never moves back and moves on by at most one position per call
    of [transitionTo]; a state that is complete stays complete, and from
    the initial state no run with fewer than four calls of [transitionTo]
    is complete. *)
Theorem phase_only_advances :
  (∀ ops state,
     (rank (phase state) ≤ rank (phase (callAll ops state))
      ≤ rank (phase state) + length (List.filter isTransition ops))%nat) ∧
  (∀ ops state,
     isComplete state = true → isComplete (callAll ops state) = true) ∧
  (∀ ops now,
     isComplete (callAll ops (createInitialState now)) = true →
     (4 ≤ length (List.filter isTransition ops))%nat).
Proof.
  split; [|split].
  - intros ops state. apply callAll_rank.
  - intros ops state. unfold isComplete.
    rewrite !bool_decide_eq_true, <-!rank_completed.
    pose proof (rank_le (phase (callAll ops state))).
    pose proof (callAll_rank ops state). lia.
  - intros ops now. unfold isComplete.
    rewrite bool_decide_eq_true, <-rank_completed.
    pose proof (callAll_rank ops (createInitialState now)) as [_ H].
    simpl in H. lia.
Qed.

(** The four transitions of a full run, with a call that throws between
    them. *)
Example full_run_is_complete :
  isComplete
    (callAll [("t1", transitionTo po_conversation);
              ("t2", transitionTo dev_sessions);
              ("t3", transitionTo tech_lead_design);
              ("t4", transitionTo dev_sessions);
              ("t5", transitionTo completed)]
       (createInitialState "t0")) = true.
Proof. reflexivity. Qed.

End phase_progress.

(** ** The question store: reading a response back *)
Section response_round_trip.
Import Js Blocking.

Lemma trimStart_app s w :
  allSpace s = false → trimStart (s +:+ w) = trimStart s +:+ w.
Proof.
  induction s as [|c r IH]; [done|]. simpl allSpace.
  rewrite string_app_cons, !trimStart_unfold.
  destruct (is_space c); [|done]. simpl. exact IH.
Qed.

(** Line feeds around a text disappear when it is trimmed. *)
Lemma trim_around_line_feeds s : trim (nl +:+ s +:+ nl) = trim s.
Proof.
  unfold trim.
  change (trimStart (nl +:+ s +:+ nl)) with (trimStart (s +:+ nl)).
  destruct (allSpace s) eqn:Hs.
  - rewrite (trimStart_allSpace s Hs).
    rewrite trimStart_allSpace; [done|]. by rewrite allSpace_app, Hs.
  - rewrite trimStart_app by done. by apply trimEnd_app_space.
Qed.

Lemma split_prefix p x :
  noLineFeed p = true →
  ∃ l ls, split x = l :: ls ∧ split (p +:+ x) = (p +:+ l) :: ls.
Proof.
  induction p as [|c p IH]; simpl noLineFeed.
  - intros _. destruct (split_nonempty x) as (l & ls & Hx). by exists l, ls.
  - intros [Hc Hp]%andb_true_iff. destruct (IH Hp) as (l & ls & Hx & Hpx).
    exists l, ls. split; [done|].
    rewrite string_app_cons, split_unfold, Hpx.
    by destruct (Ascii.eqb c LF).
Qed.

Lemma split_nl x : split (nl +:+ x) = "" :: split x.
Proof. reflexivity. Qed.

(** Neither marker of a response file starts the line. *)
Definition plainLine (line : string) : Prop :=
  startsWith line "# Response" = false ∧ startsWith line "Answered:" = false.

Lemma responseLines_plain lines rest :
  Forall plainLine lines →
  responseLines true (lines ++ rest) = lines ++ responseLines true rest.
Proof.
  induction 1 as [|line lines [H1 H2] _ IH]; [done|].
  simpl. by rewrite H1, H2, IH.
Qed.

(** The lines of the file [writeResponse] writes. *)
Lemma split_response_text response answered :
  ∃ l ls,
    split ("# Response" +:+ nl +:+ nl +:+ response +:+ nl +:+ nl
           +:+ "Answered: " +:+ answered +:+ nl)
    = "# Response" :: "" :: split response ++ "" :: ("Answered: " +:+ l) :: ls.
Proof.
  destruct (split_prefix "Answered: " (answered +:+ nl) eq_refl)
    as (l & ls & _ & Hlast).
  exists l, ls.
  rewrite (split_app_nl "# Response"), split_nl.
  rewrite (split_app_nl response), split_nl.
  by rewrite Hlast.
Qed.

Lemma readResponse_written fs now answered questionFile response :
  Forall plainLine (split response) →
  readResponse (writeResponse fs now answered questionFile response).1 questionFile
  = Some (trim response).
Proof.
  intros Hplain. unfold readResponse, writeResponse. simpl.
  rewrite existsSync_atomicWrite
    by (intros H; symmetry in H; by apply tempFileName_ne in H).
  rewrite bool_decide_eq_true_2 by done. simpl.
  rewrite readFileSync_atomicWrite.
  destruct (split_response_text response answered) as (l & ls & ->).
  f_equal.
  change (responseLines false ("# Response" :: "" :: ?rest))
    with ("" :: responseLines true rest).
  rewrite responseLines_plain by done.
  change (responseLines true ("" :: ("Answered: " +:+ l) :: ls)) with [""].
  destruct (split_nonempty response) as (x & xs & Hx).
  rewrite join_cons by (rewrite Hx; done).
  rewrite join_snoc by (rewrite Hx; done).
  rewrite join_split. apply trim_around_line_feeds.
Qed.

(** X5. The response [writeResponse] stores for a question is what
    [readResponse] reads back for it, trimmed, as long as no line of the
    response starts with one of the two markers of the file format,
    "# Response" and "Answered:". *)
Theorem readResponse_after_writeResponse fs now answered questionFile response :
  Forall plainLine (split response) →
  readResponse (writeResponse fs now answered questionFile response).1 questionFile
  = Some (trim response).
Proof. apply readResponse_written. Qed.

Lemma readResponse_after_writeResponse_witness :
  readResponse
    (writeResponse [] 1700000000000 "2023-11-14T22:13:20.000Z"
       ".orchestrator/questions/q-001.md" "Use PostgreSQL").1
    ".orchestrator/questions/q-001.md"
  = Some (trim "Use PostgreSQL").
Proof.
  apply readResponse_after_writeResponse.
  repeat constructor.
Defined.

(** A line of the response that starts with "Answered:" ends what is read
    back: the text after it is lost. *)
Example response_cut_at_marker :
  readResponse
    (writeResponse [] 1700000000000 "2023-11-14T22:13:20.000Z"
       ".orchestrator/questions/q-001.md"
       ("Use PostgreSQL" +:+ nl +:+ "Answered: by the team" +:+ nl +:+ "and Redis")).1
    ".orchestrator/questions/q-001.md"
  = Some "Use PostgreSQL".
Proof. reflexivity. Qed.

End response_round_trip.

(** ** The question store: numbering the question files *)
Section question_numbers.
Import Js Blocking.

(** The numbers of the question files of the store, and the number the
    next one gets: [questionNumbers] and [nextNumber] of
    [generateQuestionFileName]. *)
Definition questionNumbers (fs : Fs.FileSystem) : list N :=
  omap (λ f, parseDigits 0 <$> matchQuestionNumber f)
       (Fs.readdirSync fs QUESTIONS_DIR).

Definition nextNumber (fs : Fs.FileSystem) : N :=
  match questionNumbers fs with
  | [] => 1%N
  | _ => (foldr N.max 0 (questionNumbers fs) + 1)%N
  end.

Definition questionFileName (n : N) : string :=
  "q-" +:+ padStart3 (decimal n) +:+ ".md".

Lemma generateQuestionFileName_unfold fs :
  generateQuestionFileName fs
  = Fs.join QUESTIONS_DIR (questionFileName (nextNumber fs)).
Proof. reflexivity. Qed.

Fixpoint allDigits (s : string) : bool :=
  match s with
  | "" => true
  | String c r => is_digit c && allDigits r
  end.

Lemma parseDigits_string_of_uint d acc :
  parseDigits acc (NilEmpty.string_of_uint d) =
  match acc with
  | N0 => N.of_uint d
  | Npos p => Npos (Pos.of_uint_acc d p)
  end.
Proof.
  revert acc.
  induction d as [|d IH|d IH|d IH|d IH|d IH|d IH|d IH|d IH|d IH|d IH];
    intros acc; simpl; [by destruct acc|..];
    rewrite IH; destruct acc as [|p]; simpl; try done;
    unfold N.of_uint; simpl; f_equal; f_equal; lia.
Qed.

Lemma to_uint_not_nil n : N.to_uint n ≠ Decimal.Nil.
Proof.
  destruct n as [|p]; [done|]. simpl.
  apply DecimalPos.Unsigned.to_uint_nonnil.
Qed.

Lemma decimal_unfold n : decimal n = NilEmpty.string_of_uint (N.to_uint n).
Proof.
  unfold decimal, NilZero.string_of_uint.
  pose proof (to_uint_not_nil n). by destruct (N.to_uint n).
Qed.

Lemma parseDigits_decimal n : parseDigits 0 (decimal n) = n.
Proof.
  rewrite decimal_unfold, parseDigits_string_of_uint.
  apply DecimalN.Unsigned.of_to.
Qed.

Lemma parseDigits_padStart3 s : parseDigits 0 (padStart3 s) = parseDigits 0 s.
Proof.
  unfold padStart3. by destruct (String.length s) as [|[|[|]]].
Qed.

Lemma allDigits_string_of_uint d : allDigits (NilEmpty.string_of_uint d) = true.
Proof. induction d; simpl; done. Qed.

Lemma allDigits_decimal n : allDigits (decimal n) = true.
Proof. rewrite decimal_unfold. apply allDigits_string_of_uint. Qed.

Lemma allDigits_padStart3 s : allDigits s = true → allDigits (padStart3 s) = true.
Proof.
  intros Hs. unfold padStart3. by destruct (String.length s) as [|[|[|]]].
Qed.

Lemma padStart3_nonempty s : padStart3 s ≠ "".
Proof.
  unfold padStart3. destruct s as [|a [|b [|c s]]]; done.
Qed.

Lemma digits_then_md_app seen ds :
  allDigits ds = true →
  digits_then_md seen (ds +:+ ".md") =
  if isEmpty (seen +:+ ds) then None else Some (seen +:+ ds).
Proof.
  revert seen. induction ds as [|c ds IH]; intros seen; simpl allDigits.
  - intros _. rewrite string_app_nil_r. simpl. by destruct (isEmpty seen).
  - intros [Hc Hds]%andb_true_iff. rewrite string_app_cons. simpl.
    rewrite Hc, IH by done. by rewrite string_app_assoc.
Qed.

Lemma matchQuestionNumber_name n :
  matchQuestionNumber (questionFileName n) = Some (padStart3 (decimal n)).
Proof.
  unfold questionFileName.
  change (matchQuestionNumber ("q-" +:+ ?s)) with (digits_then_md "" s).
  rewrite digits_then_md_app by apply allDigits_padStart3, allDigits_decimal.
  rewrite string_app_nil_l.
  pose proof (padStart3_nonempty (decimal n)). by destruct (padStart3 _).
Qed.

Lemma includes_slash_digits ds t :
  allDigits ds = true → includes (ds +:+ t) "/" = includes t "/".
Proof.
  induction ds as [|c ds IH]; [done|]. simpl allDigits.
  intros [Hc Hds]%andb_true_iff. rewrite string_app_cons. simpl.
  rewrite IH by done.
  destruct (Ascii.eqb "/" c) eqn:Heq; [|by destruct c as [[] [] [] [] [] [] [] []]].
  apply Ascii.eqb_eq in Heq as <-. done.
Qed.

Lemma entryName_join dir name :
  name ≠ "" → includes name "/" = false →
  Fs.entryName dir (Fs.join dir name) = Some name.
Proof.
  intros Hne Hslash. unfold Fs.join.
  induction dir as [|a dir IH].
  - change ("" +:+ "/" +:+ name) with (String "/" name). simpl.
    rewrite Hslash. by destruct name.
  - rewrite string_app_cons. simpl. by rewrite Ascii.eqb_refl.
Qed.

Lemma entryName_questionFileName n :
  Fs.entryName QUESTIONS_DIR (Fs.join QUESTIONS_DIR (questionFileName n))
  = Some (questionFileName n).
Proof.
  apply entryName_join; [done|].
  unfold questionFileName.
  change (includes ("q-" +:+ ?s) "/") with (includes s "/").
  by rewrite includes_slash_digits by apply allDigits_padStart3, allDigits_decimal.
Qed.

Lemma readdirSync_elem fs dir name :
  name ∈ Fs.readdirSync fs dir ↔
  ∃ f, f ∈ fs ∧ Fs.entryName dir (Fs.path f) = Some name.
Proof.
  unfold Fs.readdirSync. by rewrite list_elem_of_omap.
Qed.

Lemma existsSync_elem fs p :
  Fs.existsSync fs p = true ↔ ∃ f, f ∈ fs ∧ Fs.path f = p.
Proof.
  unfold Fs.existsSync. rewrite bool_decide_eq_true, list_elem_of_fmap.
  split; intros (f & H1 & H2); by exists f.
Qed.

(** A number belongs to the question numbers exactly when a file of the
    questions directory has a name of the form q-<digits>.md with that
    value. *)
Lemma questionNumbers_elem fs n :
  n ∈ questionNumbers fs ↔
  ∃ name ds, Fs.existsSync fs (Fs.join QUESTIONS_DIR name) = true ∧
    Fs.entryName QUESTIONS_DIR (Fs.join QUESTIONS_DIR name) = Some name ∧
    matchQuestionNumber name = Some ds ∧ parseDigits 0 ds = n.
Proof.
  unfold questionNumbers. rewrite list_elem_of_omap. split.
  - intros (name & Hname & Hn).
    apply readdirSync_elem in Hname. destruct Hname as (f & Hf & Hentry).
    destruct (matchQuestionNumber name) as [ds|] eqn:Hds; [|done].
    injection Hn as <-. exists name, ds.
    pose proof (entryName_Some _ _ _ Hentry) as Hpath.
    rewrite <-Hpath. split; [|done].
    apply existsSync_elem. by exists f.
  - intros (name & ds & (f & Hf & Hpath)%existsSync_elem & Hentry & Hds & <-).
    exists name. split; [|by rewrite Hds].
    apply readdirSync_elem. exists f. split; [done|]. by rewrite Hpath.
Qed.

Lemma foldr_max_ge (l : list N) n : n ∈ l → (n ≤ foldr N.max 0 l)%N.
Proof.
  induction l as [|x l IH]; [by intros ?%elem_of_nil|].
  intros [->|Hn]%elem_of_cons; simpl; [lia|].
  specialize (IH Hn). lia.
Qed.

Lemma nextNumber_gt fs n : n ∈ questionNumbers fs → (n < nextNumber fs)%N.
Proof.
  intros Hn. unfold nextNumber. pose proof (foldr_max_ge _ _ Hn).
  destruct (questionNumbers fs); [by apply elem_of_nil in Hn|]. lia.
Qed.

Lemma nextNumber_listed fs :
  Fs.existsSync fs (generateQuestionFileName fs) = true →
  nextNumber fs ∈ questionNumbers fs.
Proof.
  intros Hex. apply questionNumbers_elem.
  exists (questionFileName (nextNumber fs)), (padStart3 (decimal (nextNumber fs))).
  split; [done|]. split; [apply entryName_questionFileName|].
  split; [apply matchQuestionNumber_name|].
  by rewrite parseDigits_padStart3, parseDigits_decimal.
Qed.

Lemma endsWith_questionFileName n : endsWith (questionFileName n) ".md" = true.
Proof.
  apply endsWith_spec. exists ("q-" +:+ padStart3 (decimal n)).
  unfold questionFileName. by rewrite string_app_assoc.
Qed.

Lemma startsWith_app pre s : startsWith (pre +:+ s) pre = true.
Proof.
  unfold startsWith. induction pre as [|c pre IH]; [by destruct s|].
  rewrite string_app_cons. simpl. by destruct (ascii_dec c c).
Qed.

Lemma isQuestionPath_generated fs :
  isQuestionPath (generateQuestionFileName fs) = true.
Proof.
  rewrite generateQuestionFileName_unfold. unfold isQuestionPath.
  rewrite entryName_questionFileName. unfold isQuestionFileName.
  rewrite endsWith_questionFileName. unfold questionFileName.
  by rewrite startsWith_app.
Qed.

(** X6. While the numbers of the question files stay below 2^53, where
    JavaScript numbers are exact, [generateQuestionFileName] returns a
    path at which no file exists, whose number is greater than that of
    every question file of the store, and which [listQuestionFiles] takes
    for a question file once it is written. *)
Theorem generateQuestionFileName_fresh fs :
  Forall (λ n, (n < 2 ^ 53)%N) (questionNumbers fs) →
  Fs.existsSync fs (generateQuestionFileName fs) = false ∧
  isQuestionPath (generateQuestionFileName fs) = true ∧
  ∃ name ds,
    generateQuestionFileName fs = Fs.join QUESTIONS_DIR name ∧
    matchQuestionNumber name = Some ds ∧
    Forall (λ n, (n < parseDigits 0 ds)%N) (questionNumbers fs).
Proof.
  intros _. split; [|split].
  - destruct (Fs.existsSync fs (generateQuestionFileName fs)) eqn:Hex; [|done].
    apply nextNumber_listed, nextNumber_gt in Hex. lia.
  - apply isQuestionPath_generated.
  - exists (questionFileName (nextNumber fs)), (padStart3 (decimal (nextNumber fs))).
    split; [done|]. split; [apply matchQuestionNumber_name|].
    rewrite parseDigits_padStart3, parseDigits_decimal.
    apply Forall_forall. intros n Hn. by apply nextNumber_gt.
Qed.

(** A questions directory with the files q-003.md and q-010.md, a
    response and a file that is no question file. *)
Definition numberedStore : Fs.FileSystem :=
  [ {| Fs.path := ".orchestrator/questions/q-003.md"; Fs.mtimeMs := 10;
       Fs.content := "third" |};
    {| Fs.path := ".orchestrator/questions/q-010.md"; Fs.mtimeMs := 20;
       Fs.content := "tenth" |};
    {| Fs.path := ".orchestrator/questions/q-003.response"; Fs.mtimeMs := 30;
       Fs.content := "answer" |};
    {| Fs.path := ".orchestrator/questions/notes.txt"; Fs.mtimeMs := 40;
       Fs.content := "" |} ].

Lemma generateQuestionFileName_fresh_witness :
  Fs.existsSync numberedStore (generateQuestionFileName numberedStore) = false ∧
  isQuestionPath (generateQuestionFileName numberedStore) = true ∧
  ∃ name ds,
    generateQuestionFileName numberedStore = Fs.join QUESTIONS_DIR name ∧
    matchQuestionNumber name = Some ds ∧
    Forall (λ n, (n < parseDigits 0 ds)%N) (questionNumbers numberedStore).
Proof.
  apply generateQuestionFileName_fresh.
  repeat constructor.
Defined.

Example generateQuestionFileName_numbered :
  generateQuestionFileName numberedStore = ".orchestrator/questions/q-011.md" ∧
  generateQuestionFileName [] = ".orchestrator/questions/q-001.md".
Proof. by split. Qed.

End question_numbers.

(** ** The question store: writing a question *)
Section question_written.
Import Js Blocking.

Lemma lookupFile_nil p : Fs.lookupFile [] p = None.
Proof. done. Qed.






















(** A response file left over under the name of the next question makes
    the new question count as answered from the start. *)
Example stale_response_hides_new_question :
  let store := [ {| Fs.path := ".orchestrator/questions/q-001.response";
                    Fs.mtimeMs := 10; Fs.content := "old" |} ] in
  let written := writeQuestionFile store 50 "dev" user "c" "q?" [] in
  written.2 = ".orchestrator/questions/q-001.md" ∧
  findLatestUnansweredQuestion written.1 = None.
Proof. by split. Qed.

End question_written.

(** ** The blocking handler *)
Section blocking_handler.
Import Js Blocking.

Lemma trimEnd_idempotent s : trimEnd (trimEnd s) = trimEnd s.
Proof.
  induction s as [|c r IH]; [done|]. rewrite trimEnd_unfold.
  destruct (is_space c && isEmpty (trimEnd r)) eqn:Hcase; [done|].
  by rewrite trimEnd_unfold, IH, Hcase.
Qed.

Lemma trimStart_trimEnd s : trimStart s = s → trimStart (trimEnd s) = trimEnd s.
Proof.
  destruct s as [|c r]; [done|]. rewrite trimStart_unfold, trimEnd_unfold.
  destruct (is_space c) eqn:Hc.
  - intros H. apply (f_equal String.length) in H. simpl in H.
    pose proof (length_trimStart r). lia.
  - intros _. simpl. by rewrite Hc.
Qed.

Lemma trimStart_idempotent s : trimStart (trimStart s) = trimStart s.
Proof.
  induction s as [|c r IH]; [done|]. rewrite trimStart_unfold.
  destruct (is_space c) eqn:Hc; [done|]. by rewrite trimStart_unfold, Hc.
Qed.

Lemma trim_idempotent s : trim (trim s) = trim s.
Proof.
  unfold trim. rewrite trimStart_trimEnd by apply trimStart_idempotent.
  apply trimEnd_idempotent.
Qed.

Lemma parseQuestionFile_Ok fs file parsed :
  parseQuestionFile fs file = Ok parsed → Fs.existsSync fs file = true.
Proof.
  unfold parseQuestionFile. destruct (Fs.readFileSync fs file) as [text|] eqn:Hread; [|done].
  intros _. unfold Fs.readFileSync in Hread.
  destruct (Fs.lookupFile fs file) as [f|] eqn:Hf; [|done].
  apply lookupFile_Some in Hf as [Hin <-].
  unfold Fs.existsSync. apply bool_decide_eq_true. by apply list_elem_of_fmap_2.
Qed.

(** X9. [processQuestion] throws only when the question file is missing. For
    a question put to the user it stores the trimmed answer: the question
    then counts as answered and, as long as no line of the answer starts
    with "# Response" or "Answered:", [getResponse] gives the trimmed
    answer back. For a question put to the PO or to the tech lead it
    writes nothing and returns no response. *)
Theorem processQuestion_effect fs now answered questionFile answer :
  (Fs.existsSync fs questionFile = false →
   processQuestion fs now answered questionFile answer
   = Throw (QuestionFileNotFound questionFile)) ∧
  (∀ parsed,
     parseQuestionFile fs questionFile = Ok parsed →
     forRecipient parsed = user →
     ∃ fs',
       processQuestion fs now answered questionFile answer
       = Ok (fs', {| routing := prompt_user;
                     response := Some (trim answer);
                     responseFile := Some (getResponseFilePath questionFile) |}) ∧
       isAnswered fs' questionFile = true ∧
       (Forall plainLine (split (trim answer)) →
        getResponse fs' questionFile = Some (trim answer))) ∧
  (∀ parsed,
     parseQuestionFile fs questionFile = Ok parsed →
     forRecipient parsed ≠ user →
     processQuestion fs now answered questionFile answer
     = Ok (fs, {| routing := routeQuestion parsed;
                  response := None; responseFile := None |}) ∧
     routeQuestion parsed ≠ prompt_user).
Proof.
  split; [|split].
  - intros Hno. unfold processQuestion, parseQuestionFile.
    destruct (Fs.readFileSync fs questionFile) as [text|] eqn:Hread; [|done].
    unfold Fs.readFileSync in Hread.
    destruct (Fs.lookupFile fs questionFile) as [f|] eqn:Hf; [|done].
    apply lookupFile_Some in Hf as [Hin <-].
    apply bool_decide_eq_false in Hno. destruct Hno.
    by apply list_elem_of_fmap_2.
  - intros parsed Hparsed Huser. unfold processQuestion. rewrite Hparsed.
    simpl. assert (routeQuestion parsed = prompt_user) as ->.
    { unfold routeQuestion. by rewrite Huser. }
    rewrite bool_decide_eq_true_2 by done.
    exists (writeResponse fs now answered questionFile (promptUser answer)).1.
    split; [reflexivity|].
    split.
    + unfold isAnswered, hasResponse, writeResponse. simpl.
      rewrite existsSync_atomicWrite
        by (intros H; symmetry in H; by apply tempFileName_ne in H).
      by rewrite bool_decide_eq_true_2.
    + intros Hplain. unfold getResponse, promptUser.
      rewrite readResponse_written by done. by rewrite trim_idempotent.
  - intros parsed Hparsed Hagent. unfold processQuestion. rewrite Hparsed.
    simpl. assert (routeQuestion parsed ≠ prompt_user) as Hroute.
    { unfold routeQuestion. by destruct (forRecipient parsed). }
    by rewrite bool_decide_eq_false_2.
Qed.

(** A question for the user and one for the tech lead. *)
Definition askedStore : Fs.FileSystem :=
  [ {| Fs.path := ".orchestrator/questions/q-001.md"; Fs.mtimeMs := 10;
       Fs.content := "# Question from: dev-frontend" +:+ nl +:+ "## For: user"
                     +:+ nl +:+ "## Question" +:+ nl +:+ "Which database?" |};
    {| Fs.path := ".orchestrator/questions/q-002.md"; Fs.mtimeMs := 20;
       Fs.content := "# Question from: dev-backend" +:+ nl +:+ "## For: tech_lead"
                     +:+ nl +:+ "## Question" +:+ nl +:+ "Which queue?" |} ].

Lemma processQuestion_effect_witness :
  let q1 := ".orchestrator/questions/q-001.md" in
  let q2 := ".orchestrator/questions/q-002.md" in
  (∃ fs',
     processQuestion askedStore 30 "2026-01-01T00:00:00.000Z" q1 "  PostgreSQL "
     = Ok (fs', {| routing := prompt_user;
                   response := Some (trim "  PostgreSQL ");
                   responseFile := Some (getResponseFilePath q1) |}) ∧
     isAnswered fs' q1 = true ∧
     (Forall plainLine (split (trim "  PostgreSQL ")) →
      getResponse fs' q1 = Some (trim "  PostgreSQL "))) ∧
  processQuestion askedStore 30 "2026-01-01T00:00:00.000Z" q2 "Kafka"
  = Ok (askedStore, {| routing := spawn_tech_lead;
                       response := None; responseFile := None |}).
Proof.
  intros q1 q2. split.
  - eapply (proj1 (proj2 (processQuestion_effect askedStore 30
                            "2026-01-01T00:00:00.000Z" q1 "  PostgreSQL ")));
      reflexivity.
  - refine (proj1 (proj2 (proj2 (processQuestion_effect askedStore 30
                                   "2026-01-01T00:00:00.000Z" q2 "Kafka"))
                     _ eq_refl _)).
    discriminate.
Defined.

Lemma findLatestUnansweredQuestion_unanswered fs q :
  findLatestUnansweredQuestion fs = Some q → hasResponse fs q = false.
Proof.
  unfold findLatestUnansweredQuestion. intros [_ H]%List.find_some.
  by apply negb_true_iff.
Qed.

(** X10. [handleAgentExit] reports a question for the exit code 2 only, and
    then the latest unanswered one. Once [processQuestion] has put that
    question to the user and stored the answer, it is reported no more. *)
Theorem handleAgentExit_after_answer :
  (∀ fs exitCode agentName,
     exitCode ≠ 2 → handleAgentExit fs exitCode agentName = None) ∧
  (∀ fs agentName,
     handleAgentExit fs 2 agentName = findLatestUnansweredQuestion fs) ∧
  (∀ fs agentName now answered q answer fs' processed,
     handleAgentExit fs 2 agentName = Some q →
     processQuestion fs now answered q answer = Ok (fs', processed) →
     routing processed = prompt_user →
     handleAgentExit fs' 2 agentName ≠ Some q).
Proof.
  split; [|split].
  - intros fs exitCode agentName Hcode. unfold handleAgentExit, isBlockedExitCode.
    by rewrite bool_decide_eq_false_2.
  - done.
  - intros fs agentName now answered q answer fs' processed _ Hprocess Hroute Hagain.
    apply findLatestUnansweredQuestion_unanswered in Hagain.
    unfold processQuestion in Hprocess.
    destruct (parseQuestionFile fs q) as [parsed|e]; [|done]. simpl in Hprocess.
    destruct (bool_decide (routeQuestion parsed = prompt_user)) eqn:Huser.
    + injection Hprocess as <- <-.
      unfold hasResponse, writeResponse in Hagain. simpl in Hagain.
      rewrite existsSync_atomicWrite in Hagain
        by (intros H; symmetry in H; by apply tempFileName_ne in H).
      by rewrite bool_decide_eq_true_2 in Hagain.
    + injection Hprocess as <- <-. simpl in Hroute.
      by apply bool_decide_eq_false in Huser.
Qed.

Lemma handleAgentExit_after_answer_witness :
  let q1 := ".orchestrator/questions/q-001.md" in
  let answeredSecond :=
    {| Fs.path := ".orchestrator/questions/q-002.response"; Fs.mtimeMs := 25;
       Fs.content := "# Response" |} :: askedStore in
  ∃ fs' processed,
    handleAgentExit answeredSecond 2 "dev-frontend" = Some q1 ∧
    processQuestion answeredSecond 30 "t" q1 "PostgreSQL" = Ok (fs', processed) ∧
    routing processed = prompt_user ∧
    handleAgentExit fs' 2 "dev-frontend" ≠ Some q1.
Proof.
  intros q1 answeredSecond. eexists _, _.
  split; [reflexivity|]. split; [reflexivity|]. split; [reflexivity|].
  eapply (proj2 (proj2 handleAgentExit_after_answer)
            answeredSecond "dev-frontend" 30 "t" q1 "PostgreSQL"); reflexivity.
Defined.

End blocking_handler.

(** ** The issue tracker: retries and area labels *)
Section issue_tracker.
Import Js GitHub.

(** The call failed with an error the loop takes for a rate limit. *)
Definition rateLimited {A} (a : Attempt A) : Prop :=
  ∃ error, a = Fails error ∧ isRateLimit error = true.

(** X11. [withRateLimitRetry] calls the operation at least once and at most
    three times; every call before the last one failed with a rate-limit
    error and was followed by a sleep of 60000 ms. The last call decides:
    its value is returned, or its error is thrown again unchanged when it
    is no rate-limit error; when the third call also fails with a
    rate-limit error, the loop sleeps once more, 180000 ms in all, and
    throws an error of its own that carries the message of that last
    error. *)
Theorem withRateLimitRetry_outcome {A} (operation : nat → Attempt A) operationName :
  let r := withRateLimitRetry operation operationName in
  (1 ≤ attempts r ≤ 3)%nat ∧
  (∀ k, (k < attempts r - 1)%nat → rateLimited (operation k)) ∧
  match outcome r with
  | Ok a =>
      operation (attempts r - 1)%nat = Returns a ∧
      slept r = 60000 * Z.of_nat (attempts r - 1)
  | Throw (Rethrown error) =>
      operation (attempts r - 1)%nat = Fails error ∧
      isRateLimit error = false ∧
      slept r = 60000 * Z.of_nat (attempts r - 1)
  | Throw (RetriesExhausted name lastMessage) =>
      attempts r = 3%nat ∧ slept r = 180000 ∧ name = operationName ∧
      ∃ error, operation 2%nat = Fails error ∧ isRateLimit error = true ∧
               lastMessage = message error
  end.
Proof.
  unfold withRateLimitRetry, RATE_LIMIT_MAX_RETRIES. cbn [retryLoop].
  destruct (operation 0%nat) as [a0|e0] eqn:H0.
  { simpl. split; [lia|]. split; [intros k Hk; lia|done]. }
  destruct (isRateLimit e0) eqn:Hr0.
  2:{ simpl. split; [lia|]. split; [intros k Hk; lia|done]. }
  assert (rateLimited (operation 0%nat)) as Hl0 by (by exists e0).
  destruct (operation 1%nat) as [a1|e1] eqn:H1.
  { simpl. split; [lia|]. split; [|done].
    intros k Hk. by replace k with 0%nat by lia. }
  destruct (isRateLimit e1) eqn:Hr1.
  2:{ simpl. split; [lia|]. split; [|done].
      intros k Hk. by replace k with 0%nat by lia. }
  assert (rateLimited (operation 1%nat)) as Hl1 by (by exists e1).
  assert (∀ k, (k < 2)%nat → rateLimited (operation k)) as Hboth.
  { intros k Hk. destruct k as [|[|k]]; [done|done|lia]. }
  destruct (operation 2%nat) as [a2|e2] eqn:H2.
  { simpl. split; [lia|]. split; [|done]. intros k Hk. apply Hboth. lia. }
  destruct (isRateLimit e2) eqn:Hr2.
  2:{ simpl. split; [lia|]. split; [|done]. intros k Hk. apply Hboth. lia. }
  simpl. split; [lia|]. split; [intros k Hk; apply Hboth; lia|].
  split; [done|]. split; [done|]. split; [done|]. by exists e2.
Qed.

(** Two secondary rate limits, then an answer. *)
Example third_attempt_succeeds :
  let limit := {| status := Some 403; message := Some "API Rate Limit exceeded" |} in
  let operation k := if (k <? 2)%nat then Fails limit else Returns "ok" in
  let r := withRateLimitRetry operation "getAreas" in
  outcome r = Ok "ok" ∧ attempts r = 3%nat ∧ slept r = 120000.
Proof. by repeat split. Qed.

Lemma slice_app pre s : slice (pre +:+ s) (String.length pre) = s.
Proof. induction pre as [|c pre IH]; [by destruct s|]. exact IH. Qed.

Lemma startsWith_spec s pre : startsWith s pre = true ↔ ∃ r, s = pre +:+ r.
Proof.
  unfold startsWith. revert s. induction pre as [|c pre IH]; intros s.
  - split; [by exists s|]. by destruct s.
  - destruct s as [|d s]; simpl.
    + split; [done|]. by intros (r & ?).
    + destruct (ascii_dec c d) as [->|Hne].
      * rewrite IH. split.
        -- intros (r & ->). by exists r.
        -- intros (r & H). rewrite string_app_cons in H. injection H as ->.
           by exists r.
      * split; [done|]. intros (r & H). rewrite string_app_cons in H.
        injection H as -> _. done.
Qed.

Lemma getAreas_elem labelNames a :
  a ∈ getAreas labelNames ↔ areaLabel a ∈ labelNames.
Proof.
  unfold getAreas, areaLabel. rewrite list_elem_of_fmap. split.
  - intros (name & -> & Hname). apply list_elem_of_In, List.filter_In in Hname.
    destruct Hname as [Hin (r & ->)%startsWith_spec].
    rewrite slice_app. by apply list_elem_of_In.
  - intros Hin. exists (AREA_LABEL_PREFIX +:+ a). rewrite slice_app. split; [done|].
    apply list_elem_of_In, List.filter_In. split; [by apply list_elem_of_In|].
    apply startsWith_spec. by exists a.
Qed.

Lemma getAreas_NoDup labelNames : NoDup labelNames → NoDup (getAreas labelNames).
Proof.
  unfold getAreas.
  induction 1 as [|name labelNames Hnot _ IH]; [constructor|].
  cbn [List.filter]. destruct (startsWith name AREA_LABEL_PREFIX) eqn:Hname; [|done].
  rewrite fmap_cons. constructor; [|done].
  apply startsWith_spec in Hname as (a & ->). rewrite slice_app.
  intros Hin. apply Hnot.
  change (a ∈ getAreas labelNames) in Hin. by apply getAreas_elem in Hin.
Qed.

(** X12. [getAreas] returns, in the order of the labels, exactly the areas
    whose label [createIssue] and [getIssuesByArea] build: the labels that
    do not start with "area:" are dropped, the label "area:" itself gives
    the empty area, and labels that differ give areas that differ. *)
Theorem getAreas_of_labels :
  (∀ labelNames a, a ∈ getAreas labelNames ↔ areaLabel a ∈ labelNames) ∧
  (∀ areas, getAreas (areaLabel <$> areas) = areas) ∧
  (∀ labelNames other,
     startsWith other AREA_LABEL_PREFIX = false →
     getAreas (other :: labelNames) = getAreas labelNames) ∧
  (∀ labelNames, NoDup labelNames → NoDup (getAreas labelNames)).
Proof.
  split; [|split; [|split]].
  - apply getAreas_elem.
  - intros areas. unfold getAreas. induction areas as [|a areas IH]; [done|].
    rewrite fmap_cons. cbn [List.filter].
    unfold areaLabel at 1. rewrite startsWith_app. rewrite fmap_cons.
    unfold areaLabel at 1. rewrite slice_app. by rewrite IH.
  - intros labelNames other Hother. unfold getAreas. cbn [List.filter].
    by rewrite Hother.
  - apply getAreas_NoDup.
Qed.

Example getAreas_labels :
  getAreas ["bug"; "area:frontend"; "area"; "area:"; "Area:x"; "area:backend"]
  = ["frontend"; ""; "backend"].
Proof. reflexivity. Qed.

End issue_tracker.

(** ** The issue tracker: the repository URL *)
Section repository_url.
Import Js GitHub.

Fixpoint allChars (ok : ascii → bool) (s : string) : bool :=
  match s with
  | "" => true
  | String c r => ok c && allChars ok r
  end.

(** The class [ok] cannot go on into [r]. *)
Definition stopsAt (ok : ascii → bool) (r : string) : Prop :=
  match r with
  | "" => True
  | String c _ => ok c = false
  end.

Lemma string_app_snoc s c t : (s +:+ String c "") +:+ t = s +:+ String c t.
Proof. by rewrite string_app_assoc. Qed.

Lemma class_more_greedy {A} ok (k : string → string → option A) seen w r x :
  allChars ok w = true → stopsAt ok r →
  k (seen +:+ w) r = Some x → class_more ok k seen (w +:+ r) = Some x.
Proof.
  revert seen. induction w as [|c w IH]; intros seen.
  - rewrite string_app_nil_r, string_app_nil_l. intros _ Hstop Hk.
    destruct r as [|d r]; [done|]. simpl in *. by rewrite Hstop.
  - simpl allChars. intros [Hc Hw]%andb_true_iff Hstop Hk.
    rewrite string_app_cons. simpl. rewrite Hc.
    rewrite (IH (seen +:+ String c "")); [done|done|done|].
    by rewrite string_app_snoc.
Qed.

Lemma class_plus_greedy {A} ok (k : string → string → option A) w r x :
  w ≠ "" → allChars ok w = true → stopsAt ok r →
  k w r = Some x → class_plus ok k (w +:+ r) = Some x.
Proof.
  destruct w as [|c w]; [done|]. intros _. simpl allChars.
  intros [Hc Hw]%andb_true_iff Hstop Hk.
  rewrite string_app_cons. simpl. rewrite Hc.
  by apply class_more_greedy.
Qed.

Lemma exact_app {A} lit (k : string → option A) r : exact lit k (lit +:+ r) = k r.
Proof.
  induction lit as [|c lit IH]; [done|].
  rewrite string_app_cons. simpl. by rewrite Ascii.eqb_refl.
Qed.

Lemma search_skip {A} (m : string → option A) c r :
  m (String c r) = None → search m (String c r) = search m r.
Proof. intros H. simpl. by rewrite H. Qed.

Lemma search_here {A} (m : string → option A) s x :
  m s = Some x → search m s = Some x.
Proof. intros H. destruct s; simpl; by rewrite H. Qed.

Lemma search_Some {A} (m : string → option A) s x :
  search m s = Some x → ∃ pre suf, s = pre +:+ suf ∧ m suf = Some x.
Proof.
  induction s as [|c s IH]; simpl.
  - destruct (m "") eqn:Hm; [|done]. intros [= <-]. by exists "", "".
  - destruct (m (String c s)) eqn:Hm.
    + intros [= <-]. by exists "", (String c s).
    + intros (pre & suf & -> & Hsuf)%IH. by exists (String c pre), suf.
Qed.

Lemma exact_Some {A} lit (k : string → option A) s x :
  exact lit k s = Some x → ∃ r, s = lit +:+ r ∧ k r = Some x.
Proof.
  revert s. induction lit as [|c lit IH]; intros s; simpl.
  - intros H. by exists s.
  - destruct s as [|d s]; [done|].
    destruct (Ascii.eqb c d) eqn:Hcd; [|done].
    apply Ascii.eqb_eq in Hcd as <-.
    intros (r & -> & Hr)%IH. by exists r.
Qed.

Lemma class_more_Some {A} ok (k : string → string → option A) seen s x :
  class_more ok k seen s = Some x →
  ∃ w r, s = w +:+ r ∧ allChars ok w = true ∧ k (seen +:+ w) r = Some x.
Proof.
  assert (∀ r, k seen r = Some x →
            ∃ w r', r = w +:+ r' ∧ allChars ok w = true ∧
                    k (seen +:+ w) r' = Some x) as Hstop.
  { intros r H. exists "", r. by rewrite (string_app_nil_r seen). }
  revert seen Hstop. induction s as [|c s IH]; intros seen Hstop; simpl.
  - apply Hstop.
  - destruct (ok c) eqn:Hc; [|apply Hstop].
    destruct (class_more ok k (seen +:+ String c "") s) as [y|] eqn:Hmore;
      [|apply Hstop].
    intros [= <-]. apply IH in Hmore as (w & r & -> & Hw & Hk).
    + exists (String c w), r. simpl. rewrite Hc, Hw.
      by rewrite string_app_snoc in Hk.
    + intros r H. exists "", r. by rewrite (string_app_nil_r (seen +:+ _)).
Qed.

Lemma class_plus_Some {A} ok (k : string → string → option A) s x :
  class_plus ok k s = Some x →
  ∃ w r, s = w +:+ r ∧ w ≠ "" ∧ allChars ok w = true ∧ k w r = Some x.
Proof.
  destruct s as [|c s]; [done|]. simpl. destruct (ok c) eqn:Hc; [|done].
  intros (w & r & -> & Hw & Hk)%class_more_Some.
  exists (String c w), r. simpl. by rewrite Hc, Hw.
Qed.

Lemma optional_Some {A} lit (k : string → option A) s x :
  optional lit k s = Some x →
  (∃ r, s = lit +:+ r ∧ k r = Some x) ∨ k s = Some x.
Proof.
  unfold optional. destruct (exact lit k s) as [y|] eqn:Hexact.
  - intros [= <-]. left. by apply exact_Some.
  - by right.
Qed.

Lemma at_end_Some {A} (x y : A) s : at_end x s = Some y → s = "" ∧ y = x.
Proof. unfold at_end. destruct s; [|done]. by intros [= <-]. Qed.

(** The shape of a URL one of the two patterns matches. *)
Definition repoUrlShape (separator repoUrl owner repo : string) : Prop :=
  ∃ pre tail,
    repoUrl = pre +:+ ("github.com" +:+ separator) +:+ owner +:+ "/" +:+ repo +:+ tail ∧
    (tail = "" ∨ tail = ".git") ∧
    owner ≠ "" ∧ allChars notSlash owner = true ∧
    repo ≠ "" ∧ allChars notSlashNorDot repo = true.

Lemma repoPattern_Some separator repoUrl owner repo :
  repoPattern separator repoUrl = Some (owner, repo) →
  repoUrlShape separator repoUrl owner repo.
Proof.
  unfold repoPattern.
  intros (pre & suf & -> & Hsuf)%search_Some.
  apply exact_Some in Hsuf as (r1 & -> & Hr1).
  apply class_plus_Some in Hr1 as (o & r2 & -> & Ho & Hoall & Hr2).
  apply exact_Some in Hr2 as (r3 & -> & Hr3).
  apply class_plus_Some in Hr3 as (p & r4 & -> & Hp & Hpall & Hr4).
  apply optional_Some in Hr4 as [(r5 & -> & Hend)|Hend];
    apply at_end_Some in Hend as [-> [= -> ->]].
  - exists pre, ".git". rewrite !string_app_assoc, !string_app_nil_r. by repeat split; auto.
  - exists pre, "". rewrite !string_app_assoc. by repeat split; auto.
Qed.

(** X13. [parseRepoUrl] returns an owner and a repository only for a URL that
    ends with github.com, a slash or a colon, the owner, a slash and the
    repository, with or without .git after it; the owner holds no slash
    and the repository neither slash nor dot, and neither is empty. *)
Theorem parseRepoUrl_sound repoUrl owner repo :
  parseRepoUrl repoUrl = Ok (owner, repo) →
  repoUrlShape "/" repoUrl owner repo ∨ repoUrlShape ":" repoUrl owner repo.
Proof.
  unfold parseRepoUrl.
  destruct (repoPattern "/" repoUrl) as [[o r]|] eqn:Hhttps.
  { intros [= -> ->]. left. by apply repoPattern_Some. }
  destruct (repoPattern ":" repoUrl) as [[o r]|] eqn:Hssh; [|done].
  intros [= -> ->]. right. by apply repoPattern_Some.
Qed.

Lemma parseRepoUrl_sound_witness :
  repoUrlShape "/" "https://github.com/kenlau666/claude-product-orchestrator.git"
    "kenlau666" "claude-product-orchestrator" ∨
  repoUrlShape ":" "https://github.com/kenlau666/claude-product-orchestrator.git"
    "kenlau666" "claude-product-orchestrator".
Proof. apply parseRepoUrl_sound. reflexivity. Defined.

Fixpoint countSlashes (s : string) : nat :=
  match s with
  | "" => 0
  | String c r => (if Ascii.eqb c "/" then 1 else 0) + countSlashes r
  end.

Lemma countSlashes_app s t :
  countSlashes (s +:+ t) = (countSlashes s + countSlashes t)%nat.
Proof.
  induction s as [|c s IH]; [done|]. rewrite string_app_cons. simpl.
  rewrite IH. lia.
Qed.

Lemma countSlashes_notSlash s : allChars notSlash s = true → countSlashes s = 0%nat.
Proof.
  induction s as [|c s IH]; [done|]. simpl.
  intros [Hc Hs]%andb_true_iff. unfold notSlash in Hc.
  destruct (Ascii.eqb c "/"); [done|]. by rewrite IH.
Qed.

Lemma notSlashNorDot_notSlash s :
  allChars notSlashNorDot s = true → allChars notSlash s = true.
Proof.
  induction s as [|c s IH]; [done|]. simpl.
  intros [[Hc _]%andb_true_iff Hs]%andb_true_iff.
  rewrite IH by done. unfold notSlash. by rewrite Hc.
Qed.

Lemma repoPattern_slash_two repoUrl m :
  repoPattern "/" repoUrl = Some m → (2 ≤ countSlashes repoUrl)%nat.
Proof.
  destruct m as [owner repo].
  intros (pre & tail & -> & _)%repoPattern_Some.
  rewrite !countSlashes_app. simpl. lia.
Qed.

(** X14. The three forms of URL the comments of [parseRepoUrl] list are
    understood: for an owner without slash and a repository without slash
    or dot, neither empty, the owner and the repository come back. *)
Theorem parseRepoUrl_formats owner repo :
  owner ≠ "" → allChars notSlash owner = true →
  repo ≠ "" → allChars notSlashNorDot repo = true →
  parseRepoUrl ("https://github.com/" +:+ owner +:+ "/" +:+ repo)
  = Ok (owner, repo) ∧
  parseRepoUrl ("https://github.com/" +:+ owner +:+ "/" +:+ repo +:+ ".git")
  = Ok (owner, repo) ∧
  parseRepoUrl ("git@github.com:" +:+ owner +:+ "/" +:+ repo +:+ ".git")
  = Ok (owner, repo).
Proof.
  intros Ho Hoall Hr Hrall.
  assert (∀ tail, tail = "" ∨ tail = ".git" →
            class_plus notSlash
              (λ owner0, exact "/"
                 (class_plus notSlashNorDot
                    (λ repo0, optional ".git" (at_end (owner0, repo0)))))
              (owner +:+ "/" +:+ repo +:+ tail) = Some (owner, repo)) as Hmatch.
  { intros tail Htail. apply class_plus_greedy; [done|done|done|].
    rewrite (exact_app "/").
    apply class_plus_greedy; [done|done|by destruct Htail as [->| ->]|].
    by destruct Htail as [->| ->]. }
  split; [|split].
  - unfold parseRepoUrl, repoPattern.
    rewrite !string_app_cons, string_app_nil_l.
    do 8 (rewrite search_skip by reflexivity).
    rewrite (search_here _ _ (owner, repo)); [done|].
    etrans; [|exact (Hmatch "" (or_introl eq_refl))].
    by rewrite (string_app_nil_r repo).
  - unfold parseRepoUrl, repoPattern.
    rewrite !string_app_cons, string_app_nil_l.
    do 8 (rewrite search_skip by reflexivity).
    rewrite (search_here _ _ (owner, repo)); [done|].
    etrans; [|exact (Hmatch ".git" (or_intror eq_refl))]. reflexivity.
  - unfold parseRepoUrl.
    destruct (repoPattern "/" _) as [m|] eqn:Hhttps.
    { apply repoPattern_slash_two in Hhttps.
      rewrite !countSlashes_app in Hhttps.
      rewrite (countSlashes_notSlash owner) in Hhttps by done.
      rewrite (countSlashes_notSlash repo) in Hhttps
        by by apply notSlashNorDot_notSlash.
      simpl in Hhttps. lia. }
    unfold repoPattern.
    rewrite !string_app_cons, string_app_nil_l.
    do 4 (rewrite search_skip by reflexivity).
    rewrite (search_here _ _ (owner, repo)); [done|].
    etrans; [|exact (Hmatch ".git" (or_intror eq_refl))]. reflexivity.
Qed.

Lemma parseRepoUrl_formats_witness :
  parseRepoUrl ("https://github.com/" +:+ "octocat" +:+ "/" +:+ "hello-world")
  = Ok ("octocat", "hello-world") ∧
  parseRepoUrl ("https://github.com/" +:+ "octocat" +:+ "/" +:+ "hello-world" +:+ ".git")
  = Ok ("octocat", "hello-world") ∧
  parseRepoUrl ("git@github.com:" +:+ "octocat" +:+ "/" +:+ "hello-world" +:+ ".git")
  = Ok ("octocat", "hello-world").
Proof. by apply parseRepoUrl_formats. Defined.

Fixpoint hasDot (s : string) : bool :=
  match s with
  | "" => false
  | String c r => Ascii.eqb c "." || hasDot r
  end.

Lemma hasDot_app s t : hasDot (s +:+ t) = hasDot s || hasDot t.
Proof.
  induction s as [|c s IH]; [done|]. rewrite string_app_cons. simpl.
  by rewrite IH, orb_assoc.
Qed.

Lemma hasDot_notSlashNorDot s : allChars notSlashNorDot s = true → hasDot s = false.
Proof.
  induction s as [|c s IH]; [done|]. simpl.
  intros [[_ Hc]%andb_true_iff Hs]%andb_true_iff.
  destruct (Ascii.eqb c "."); [done|]. by apply IH.
Qed.

(** Two ways of cutting a string after a slash agree when neither part
    after the slash holds another one. *)
Lemma after_last_slash a x b y :
  a +:+ "/" +:+ x = b +:+ "/" +:+ y →
  countSlashes x = 0%nat → countSlashes y = 0%nat → x = y.
Proof.
  revert b. induction a as [|c a IH]; intros b H Hx Hy.
  - destruct b as [|d b].
    + change (String "/" x = String "/" y) in H. by injection H.
    + change (String "/" x = String d (b +:+ "/" +:+ y)) in H.
      injection H as _ ->.
      rewrite countSlashes_app in Hx. simpl in Hx. lia.
  - destruct b as [|d b].
    + change (String c (a +:+ "/" +:+ x) = String "/" y) in H.
      injection H as _ <-.
      rewrite countSlashes_app in Hy. simpl in Hy. lia.
    + change (String c (a +:+ "/" +:+ x) = String d (b +:+ "/" +:+ y)) in H.
      injection H as _ H. by eapply IH.
Qed.

(** Two ways of cutting a string at a dot agree when neither part before
    the dot holds another one. *)
Lemma before_first_dot a x b y :
  a +:+ "." +:+ x = b +:+ "." +:+ y →
  hasDot a = false → hasDot b = false → a = b ∧ x = y.
Proof.
  revert b. induction a as [|c a IH]; intros b H Ha Hb.
  - destruct b as [|d b].
    + change (String "." x = String "." y) in H. by injection H.
    + change (String "." x = String d (b +:+ "." +:+ y)) in H.
      injection H as <- _. done.
  - destruct b as [|d b].
    + change (String c (a +:+ "." +:+ x) = String "." y) in H.
      injection H as -> _. done.
    + change (String c (a +:+ "." +:+ x) = String d (b +:+ "." +:+ y)) in H.
      injection H as -> H. simpl in Ha, Hb.
      apply orb_false_iff in Ha as [_ Ha]. apply orb_false_iff in Hb as [_ Hb].
      destruct (IH b H Ha Hb) as [-> ->]. done.
Qed.

Lemma repoUrlShape_no_dot separator base name ext owner repo :
  allChars notSlashNorDot name = true → allChars notSlashNorDot ext = true →
  ext ≠ "git" →
  ¬ repoUrlShape separator (base +:+ "/" +:+ name +:+ "." +:+ ext) owner repo.
Proof.
  intros Hname Hext Hgit (pre & tail & Hurl & Htail & _ & _ & _ & Hrepo).
  replace (pre +:+ ("github.com" +:+ separator) +:+ owner +:+ "/" +:+ repo +:+ tail)
    with ((pre +:+ ("github.com" +:+ separator) +:+ owner) +:+ "/" +:+ repo +:+ tail)
    in Hurl by (by rewrite !string_app_assoc).
  apply after_last_slash in Hurl.
  - destruct Htail as [-> | ->].
    + rewrite string_app_nil_r in Hurl. subst repo.
      apply hasDot_notSlashNorDot in Hrepo.
      rewrite hasDot_app in Hrepo. simpl in Hrepo.
      by rewrite orb_true_r in Hrepo.
    + change (repo +:+ ".git") with (repo +:+ "." +:+ "git") in Hurl.
      apply before_first_dot in Hurl as [_ Heq];
        [done|by apply hasDot_notSlashNorDot..].
  - rewrite !countSlashes_app. simpl.
    rewrite !countSlashes_notSlash by by apply notSlashNorDot_notSlash. done.
  - rewrite countSlashes_app.
    rewrite countSlashes_notSlash by by apply notSlashNorDot_notSlash.
    by destruct Htail as [-> | ->].
Qed.

(** X15. A repository whose name holds a dot, other than the one of a final
    .git, is refused, whatever stands before the last slash of the URL. *)
Theorem parseRepoUrl_dotted_name base name ext :
  allChars notSlashNorDot name = true → allChars notSlashNorDot ext = true →
  ext ≠ "git" →
  parseRepoUrl (base +:+ "/" +:+ name +:+ "." +:+ ext)
  = Throw (InvalidRepositoryUrl (base +:+ "/" +:+ name +:+ "." +:+ ext)).
Proof.
  intros Hname Hext Hgit. unfold parseRepoUrl.
  destruct (repoPattern "/" _) as [[o r]|] eqn:Hhttps.
  { apply repoPattern_Some in Hhttps. by apply repoUrlShape_no_dot in Hhttps. }
  destruct (repoPattern ":" _) as [[o r]|] eqn:Hssh; [|done].
  apply repoPattern_Some in Hssh. by apply repoUrlShape_no_dot in Hssh.
Qed.

Lemma parseRepoUrl_dotted_name_witness :
  parseRepoUrl ("https://github.com/vercel" +:+ "/" +:+ "next" +:+ "." +:+ "js")
  = Throw (InvalidRepositoryUrl
             ("https://github.com/vercel" +:+ "/" +:+ "next" +:+ "." +:+ "js")).
Proof. by apply parseRepoUrl_dotted_name. Defined.

End repository_url.

(** ** The agents: what a spawned child is given and how its end is read *)
Section agent_wrappers.
Import Js Base Dev.

Lemma trim_heading s : firstChar s = Some "#"%char → isEmpty (trim s) = false.
Proof.
  destruct s as [|c s]; [done|]. intros [= ->]. unfold trim.
  rewrite trimStart_unfold. change (is_space "#") with false. cbv iota.
  rewrite trimEnd_unfold. change (is_space "#") with false. done.
Qed.

Lemma buildArgs_heading prompt context :
  firstChar context = Some "#"%char →
  buildArgs prompt context = ["--prompt"; prompt; "--context"; context].
Proof.
  intros H. unfold buildArgs. rewrite (trim_heading _ H).
  by destruct context.
Qed.

(** X16. Every agent is started with its context: the context the PO, the
    tech lead and a dev session are given starts with a heading, so
    [buildArgs] never drops it, whatever the files and the additional
    context hold. A context of white space alone is dropped. *)
Theorem buildArgs_passes_context :
  (∀ prompt readme extra,
     buildArgs prompt (PO.buildPOContext readme extra)
     = ["--prompt"; prompt; "--context"; PO.buildPOContext readme extra]) ∧
  (∀ prompt prd extra,
     buildArgs prompt (TechLeadAgent.buildTechLeadContext prd extra)
     = ["--prompt"; prompt; "--context";
        TechLeadAgent.buildTechLeadContext prd extra]) ∧
  (∀ prompt a ts prd architecture extra,
     buildArgs prompt (buildDevContext a ts prd architecture extra)
     = ["--prompt"; prompt; "--context";
        buildDevContext a ts prd architecture extra]) ∧
  (∀ prompt context,
     allSpace context = true → buildArgs prompt context = ["--prompt"; prompt]).
Proof.
  split; [|split; [|split]].
  - intros. by apply buildArgs_heading.
  - intros. by apply buildArgs_heading.
  - intros. by apply buildArgs_heading.
  - intros prompt context Hspace. unfold buildArgs.
    rewrite (trim_allSpace _ Hspace). simpl. by rewrite andb_false_r.
Qed.

(** The context of a dev session for two tickets. *)
Example buildDevContext_two_tickets :
  split (buildDevContext "frontend" [10; 11] "the PRD" "the design" (Some "  "))
  = [ "# Your Assignment"; ""; "Area: frontend"; "Tickets: #10, #11"; "";
      "# PRD (Product Requirements Document)"; ""; "the PRD"; "";
      "# Architecture"; ""; "the design" ].
Proof. reflexivity. Qed.

(** X17. A child that a signal ended, or that was sent a signal through its
    handle, is reported as "killed" by [getResultStatus], whatever its exit
    code; a child that closed by itself is reported by its exit code:
    "success" for 0, "blocked" for 2, "error" for 1, and a text that names
    the code for any other one. *)
Theorem getResultStatus_after_close childProcess out err code signal :
  ∃ r, settle childProcess out err (on_close code signal) = Ok r ∧
    (signal ≠ None ∨ cp_killed childProcess = true →
     getResultStatus r = "killed") ∧
    (signal = None → cp_killed childProcess = false →
     (exitCode r = 0 → getResultStatus r = "success") ∧
     (exitCode r = 2 → getResultStatus r = "blocked") ∧
     (exitCode r = 1 → getResultStatus r = "error") ∧
     (exitCode r ≠ 0 → exitCode r ≠ 1 → exitCode r ≠ 2 →
      getResultStatus r
      = "unknown (exit code: " +:+ integer (exitCode r) +:+ ")") ∧
     (getResultStatus r = "success" ↔ isSuccess r = true) ∧
     (getResultStatus r = "blocked" ↔ isBlocked r = true) ∧
     (getResultStatus r = "error" ↔ isError r = true)).
Proof.
  eexists. split; [reflexivity|]. split.
  - intros [Hsignal|Hkilled]; unfold getResultStatus; simpl.
    + rewrite (bool_decide_eq_true_2 (signal ≠ None)) by done.
      by rewrite orb_true_r.
    + by rewrite Hkilled.
  - intros -> Hkilled. unfold getResultStatus, isSuccess, isBlocked, isError.
    simpl. rewrite Hkilled. simpl.
    unfold Blocking.EXIT_CODES_SUCCESS, Blocking.EXIT_CODES_BLOCKED,
      Blocking.EXIT_CODES_ERROR.
    set (n := match code with Some c => c | None => 0 end).
    destruct (decide (n = 0)) as [H0|H0].
    { rewrite H0. repeat split; try done; intros; lia. }
    rewrite (bool_decide_eq_false_2 (n = 0)) by done.
    destruct (decide (n = 2)) as [H2|H2].
    { rewrite H2. repeat split; try done; intros; lia. }
    rewrite (bool_decide_eq_false_2 (n = 2)) by done.
    destruct (decide (n = 1)) as [H1|H1].
    { rewrite H1. repeat split; try done; intros; lia. }
    rewrite (bool_decide_eq_false_2 (n = 1)) by done.
    repeat split; try done; intros; lia.
Qed.

(** A child that exits with 0 after SIGTERM was sent through its handle:
    "killed" for [getResultStatus], a success for [isSuccess]. *)
Example killed_yet_successful :
  ∃ r, settle {| cp_killed := true; cp_exited := true |} "" ""
         (on_close (Some 0) None) = Ok r ∧
       getResultStatus r = "killed" ∧ isSuccess r = true.
Proof. by eexists. Qed.

Lemma statusOf_spec r :
  (if isSuccess r then success else if isBlocked r then blocked else error)
  = statusOf (exitCode r).
Proof.
  unfold isSuccess, isBlocked, statusOf, Blocking.EXIT_CODES_SUCCESS,
    Blocking.EXIT_CODES_BLOCKED.
  destruct (decide (exitCode r = 0)).
  - by rewrite bool_decide_eq_true_2.
  - rewrite bool_decide_eq_false_2 by done.
    destruct (decide (exitCode r = 2)).
    + by rewrite bool_decide_eq_true_2.
    + by rewrite bool_decide_eq_false_2.
Qed.

(** X18. The PO, the tech lead and a dev session read the end of their child
    alike: whenever the three wrappers return for the same end of a child,
    they carry the same agent result and the same status, and a child a
    signal ended without an exit code is an error for all three. The PO
    and the tech lead report their output file as created exactly when it
    exists at that time, whatever the status. *)
Theorem agents_read_exit_alike fs poConfig techLeadConfig a e p t d :
  PO.runPOAgent fs poConfig e = Ok p →
  TechLeadAgent.runTechLeadAgent fs techLeadConfig e = Ok t →
  handleResult {| handle_area := a; agentHandle := {| handle_name := "dev-" +:+ a |};
                  handle_tickets := [] |} e = Ok d →
  PO.agentResult p = agentResult d ∧
  TechLeadAgent.agentResult t = agentResult d ∧
  PO.status p = status d ∧ TechLeadAgent.status t = status d ∧
  status d = statusOf (exitCode (agentResult d)) ∧
  (∀ signal, ending e = on_close None (Some signal) → status d = error) ∧
  PO.prdCreated p = Fs.existsSync (storeAtEnd e) PO.PRD_OUTPUT_FILE ∧
  (PO.prdPath p = Some PO.PRD_OUTPUT_FILE ↔ PO.prdCreated p = true) ∧
  TechLeadAgent.architectureCreated t
  = Fs.existsSync (storeAtEnd e) TechLeadAgent.ARCHITECTURE_OUTPUT_FILE ∧
  (TechLeadAgent.architecturePath t = Some TechLeadAgent.ARCHITECTURE_OUTPUT_FILE ↔
   TechLeadAgent.architectureCreated t = true).
Proof.
  unfold PO.runPOAgent, TechLeadAgent.runTechLeadAgent, handleResult.
  destruct (PO.spawnPOAgent fs poConfig) as [hp|]; [|done].
  destruct (TechLeadAgent.spawnTechLeadAgent fs techLeadConfig) as [ht|]; [|done].
  simpl.
  destruct (settle (childAtEnd e) (out e) (err e) (ending e)) as [r|] eqn:Hr; [|done].
  simpl. intros [= <-] [= <-].
  destruct (toDevAgentResult_total (storeAtEnd e) a r) as (d' & -> & _ & Hres & Hst & _).
  simpl. intros [= <-]. simpl. rewrite Hres, Hst, !statusOf_spec.
  repeat split; try done.
  - intros signal Hend. rewrite Hend in Hr. injection Hr as <-. done.
  - unfold PO.checkPRDCreated. by destruct (Fs.existsSync _ _).
  - unfold PO.checkPRDCreated. by destruct (Fs.existsSync _ _).
  - unfold TechLeadAgent.checkArchitectureCreated. by destruct (Fs.existsSync _ _).
  - unfold TechLeadAgent.checkArchitectureCreated. by destruct (Fs.existsSync _ _).
Qed.

(** A project with the three prompts, the README and the files the PO
    and the tech lead have written. *)
Definition fullStore : Fs.FileSystem :=
  [ {| Fs.path := "README.md"; Fs.mtimeMs := 1; Fs.content := "# Project" |};
    {| Fs.path := "prompts/po.md"; Fs.mtimeMs := 1; Fs.content := "You are the PO" |};
    {| Fs.path := "prompts/tech-lead.md"; Fs.mtimeMs := 1;
       Fs.content := "You are the tech lead" |};
    {| Fs.path := "prompts/dev.md"; Fs.mtimeMs := 1; Fs.content := "You are a dev" |};
    {| Fs.path := ".orchestrator/prd.md"; Fs.mtimeMs := 2; Fs.content := "# PRD" |};
    {| Fs.path := ".orchestrator/architecture.md"; Fs.mtimeMs := 3;
       Fs.content := "# Architecture" |} ].

Definition terminated : Execution :=
  {| childAtEnd := {| cp_killed := false; cp_exited := true |};
     out := ""; err := ""; ending := on_close None (Some SIGTERM);
     storeAtEnd := fullStore |}.

Lemma agents_read_exit_alike_witness :
  ∃ p t d,
    PO.runPOAgent fullStore
      {| PO.readmeFile := None; PO.promptFile := None;
         PO.additionalContext := None |} terminated = Ok p ∧
    TechLeadAgent.runTechLeadAgent fullStore
      {| TechLeadAgent.prdFile := None; TechLeadAgent.promptFile := None;
         TechLeadAgent.additionalContext := None |} terminated = Ok t ∧
    PO.status p = status d ∧ TechLeadAgent.status t = status d ∧
    status d = error ∧ PO.prdCreated p = true.
Proof.
  eexists _, _, _.
  split; [reflexivity|]. split; [reflexivity|].
  pose proof (agents_read_exit_alike fullStore
                {| PO.readmeFile := None; PO.promptFile := None;
                   PO.additionalContext := None |}
                {| TechLeadAgent.prdFile := None; TechLeadAgent.promptFile := None;
                   TechLeadAgent.additionalContext := None |}
                "api" terminated _ _ _ eq_refl eq_refl eq_refl)
    as (_ & _ & Hp & Ht & _ & Hsignal & Hprd & _).
  split; [exact Hp|]. split; [exact Ht|].
  split; [by apply (Hsignal SIGTERM)|]. exact Hprd.
Defined.

End agent_wrappers.

(** ** The scheduler: spawning and reading the results *)
Section session_results.
Import Js Base Dev.

(** The session fails a check of [spawnDevAgent] on its own fields. *)
Definition rejected (s : DevSessionInput) : option DevAgentError :=
  if isEmpty (trim (input_area s)) then Some AreaRequired
  else if bool_decide (input_tickets s = []) then Some TicketRequired
  else None.

Lemma spawnDevAgent_rejected fs options s e :
  rejected s = Some e → spawnDevAgent fs options s = Throw (DevFailure e).
Proof.
  unfold rejected, spawnDevAgent.
  destruct (isEmpty (trim (input_area s))); [by intros [= <-]|].
  destruct (bool_decide (input_tickets s = [])); [by intros [= <-]|done].
Qed.

Lemma spawnDevSessions_valid fs options sessions :
  Forall validSession sessions → filesPresent fs options →
  spawnDevSessions fs options sessions
  = ((λ s, "dev-" +:+ input_area s) <$> sessions, Ok (handleOf <$> sessions)).
Proof.
  intros Hall Hfiles. induction Hall as [|s ss Hs _ IH]; [done|].
  cbn [spawnDevSessions]. rewrite spawnDevAgent_valid by done.
  rewrite IH. done.
Qed.

(** X19. [spawnDevSessions] spawns the children in the order of the sessions
    and returns one handle per session when every session passes the
    checks. When a session has a blank area or no ticket, it throws at
    the first such session, after the children of the sessions before it
    have been spawned: they run on, and no handle to them is returned. *)
Theorem spawnDevSessions_first_rejected fs options before s after e :
  Forall validSession before → filesPresent fs options →
  rejected s = Some e →
  spawnDevSessions fs options (before ++ s :: after)
  = ((λ s, "dev-" +:+ input_area s) <$> before, Throw (DevFailure e)) ∧
  spawnDevSessions fs options before
  = ((λ s, "dev-" +:+ input_area s) <$> before, Ok (handleOf <$> before)).
Proof.
  intros Hall Hfiles Hs. split; [|by apply spawnDevSessions_valid].
  induction Hall as [|b bs Hb _ IH].
  - simpl. by rewrite (spawnDevAgent_rejected _ _ _ _ Hs).
  - change ((b :: bs) ++ s :: after) with (b :: (bs ++ s :: after)).
    cbn [spawnDevSessions]. rewrite spawnDevAgent_valid by done.
    rewrite IH. done.
Qed.

Lemma spawnDevSessions_first_rejected_witness :
  spawnDevSessions fullStore
    {| parallel := None; prdFile := None; architectureFile := None;
       promptFile := None |}
    ([ {| input_area := "frontend"; input_tickets := [1; 3] |};
       {| input_area := "backend"; input_tickets := [2] |} ]
     ++ {| input_area := ""; input_tickets := [7] |}
     :: [ {| input_area := "api"; input_tickets := [5] |} ])
  = (["dev-frontend"; "dev-backend"], Throw (DevFailure AreaRequired)).
Proof.
  apply (spawnDevSessions_first_rejected fullStore _
           [ {| input_area := "frontend"; input_tickets := [1; 3] |};
             {| input_area := "backend"; input_tickets := [2] |} ]).
  - repeat constructor; discriminate.
  - repeat split; reflexivity.
  - reflexivity.
Defined.

Lemma filter_status_perm (results : list DevAgentResult) :
  getSessionsByStatus results success ++ getSessionsByStatus results blocked
  ++ getSessionsByStatus results error ≡ₚ results.
Proof.
  unfold getSessionsByStatus. induction results as [|r results IH]; [done|].
  cbn [List.filter]. destruct (status r); simpl.
  - by rewrite IH.
  - rewrite <-Permutation_middle. by rewrite IH.
  - rewrite app_assoc, <-Permutation_middle, <-app_assoc. by rewrite IH.
Qed.

(** X20. The three status lists of [getSessionsByStatus] share out the
    results: together they hold every result once, each in the order of
    the results. [allSessionsCompleted] holds exactly when the list of the
    successes is the whole list, and then no session is blocked for the
    tech lead. [getBlockedSessionForTechLead] returns the first result, in
    the order of the results, that is blocked and needs the tech lead. *)
Theorem results_by_status (results : list DevAgentResult) :
  getSessionsByStatus results success ++ getSessionsByStatus results blocked
  ++ getSessionsByStatus results error ≡ₚ results ∧
  (∀ st, sublist (getSessionsByStatus results st) results ∧
         Forall (λ r, status r = st) (getSessionsByStatus results st)) ∧
  (allSessionsCompleted results = true ↔
   getSessionsByStatus results success = results) ∧
  (allSessionsCompleted results = true →
   getBlockedSessionForTechLead results = None) ∧
  (getBlockedSessionForTechLead results = None ↔
   Forall (λ r, ¬ (status r = blocked ∧ needsTechLead r = true)) results) ∧
  (∀ r, getBlockedSessionForTechLead results = Some r →
     ∃ before after, results = before ++ r :: after ∧
       status r = blocked ∧ needsTechLead r = true ∧
       Forall (λ r', ¬ (status r' = blocked ∧ needsTechLead r' = true)) before).
Proof.
  split; [apply filter_status_perm|]. split; [|split; [|split; [|split]]].
  - intros st. unfold getSessionsByStatus. split.
    + induction results as [|r results IH]; [constructor|].
      cbn [List.filter]. destruct (bool_decide (status r = st));
        by constructor.
    + apply Forall_forall. intros r Hr.
      apply list_elem_of_In, List.filter_In in Hr as [_ Hr].
      by apply bool_decide_eq_true in Hr.
  - unfold allSessionsCompleted, getSessionsByStatus.
    induction results as [|r results IH]; [done|].
    cbn [forallb List.filter].
    destruct (bool_decide (status r = success)) eqn:Hr; simpl.
    + rewrite IH. split; [by intros ->|]. by intros [= ->].
    + split; [done|]. intros Heq.
      assert (length (List.filter (λ r0, bool_decide (status r0 = success)) results)
              ≤ length results)%nat as Hle by apply List.filter_length_le.
      rewrite Heq in Hle. simpl in Hle. lia.
  - unfold allSessionsCompleted, getBlockedSessionForTechLead.
    induction results as [|r results IH]; [done|].
    cbn [forallb List.find].
    intros [Hr Hrest]%andb_true_iff. apply bool_decide_eq_true in Hr.
    rewrite Hr. simpl. by apply IH.
  - unfold getBlockedSessionForTechLead.
    induction results as [|r results IH]; [by split; [constructor|]|].
    cbn [List.find].
    destruct (bool_decide (status r = blocked) && needsTechLead r) eqn:Hr.
    + split; [done|]. intros [Hno _]%Forall_cons. destruct Hno.
      apply andb_true_iff in Hr as [Hr ?]. by apply bool_decide_eq_true in Hr.
    + rewrite IH. split.
      * intros Hall. constructor; [|done]. intros [Hb Hn].
        by rewrite Hb, Hn, bool_decide_eq_true_2 in Hr.
      * by intros [_ ?]%Forall_cons.
  - unfold getBlockedSessionForTechLead.
    induction results as [|r' results IH]; [done|]. intros r.
    cbn [List.find].
    destruct (bool_decide (status r' = blocked) && needsTechLead r') eqn:Hr.
    + intros [= ->]. exists [], results.
      apply andb_true_iff in Hr as [Hb%bool_decide_eq_true Hn].
      by repeat split.
    + intros (before & after & -> & Hb & Hn & Hbefore)%IH.
      exists (r' :: before), after. repeat split; try done.
      constructor; [|done]. intros [Hb' Hn'].
      by rewrite Hb', Hn', bool_decide_eq_true_2 in Hr.
Qed.

(** The child closed with the exit code 0: with the code 0, or with
    neither a code nor a signal. *)
Definition exitsCleanly (e : Execution) : Prop :=
  ending e = on_close (Some 0) None ∨
  (∃ signal, ending e = on_close (Some 0) (Some signal)) ∨
  ending e = on_close None None.

Lemma resultOf_success s e :
  closes e → (status (resultOf s e) = success ↔ exitsCleanly e).
Proof.
  intros (code & signal & Hend).
  unfold resultOf, handleResult. rewrite Hend. simpl.
  match goal with
  | |- context [toDevAgentResult ?fs ?a ?r] =>
      destruct (toDevAgentResult_total fs a r) as (d & -> & _ & _ & Hst & _)
  end. simpl in *. rewrite Hst. unfold statusOf, exitsCleanly. rewrite Hend.
  destruct code as [c|]; simpl.
  - destruct (decide (c = 0)) as [->|Hc].
    + split; [|done]. intros _. destruct signal; [right; left; by eexists|by left].
    + destruct (decide (c = 2)); (split; [done|]);
        intros [[= ?]|[(? & [= ? ?])|[=]]]; done.
  - destruct signal; simpl.
    + split; [done|]. intros [[=]|[(? & [=])|[=]]].
    + split; [|done]. intros _. by right; right.
Qed.

(** X21. Under the conditions on which [runDevSessions] returns results, all
    sessions are completed, for [allSessionsCompleted], exactly when
    every child closed with the exit code 0. *)
Theorem allSessionsCompleted_after_run fs sessions options runs settled :
  Forall validSession sessions →
  filesPresent fs options →
  Forall closes runs →
  (parallel options = Some false →
   Forall (λ e, filesPresent (storeAtEnd e) options) runs) →
  length runs = length sessions →
  settled ≡ₚ seq 0 (length sessions) →
  ∃ results,
    runDevSessions fs sessions options runs settled = Resolved results ∧
    length results = length sessions ∧
    (allSessionsCompleted results = true ↔ Forall exitsCleanly runs).
Proof.
  intros Hvalid Hfiles Hcloses Hlater Hlen Hsettled.
  exists (expectedResults sessions runs). split; [|split].
  - unfold runDevSessions. destruct sessions as [|s ss] eqn:Hsessions.
    { by destruct runs. }
    rewrite <-Hsessions in *. clear Hsessions s ss.
    destruct (parallel options) as [[]|] eqn:Hpar; simpl.
    + rewrite spawnAll_valid by done.
      apply promiseAll_resolves; [done|done|by rewrite length_replicate, length_fmap|].
      intros i s e Hs _. left. rewrite Hsettled.
      apply elem_of_seq. apply lookup_lt_Some in Hs. lia.
    + apply runSequentially_resolves; [done|done| |done].
      apply Forall_forall. intros e He. split.
      * by eapply Forall_forall in Hcloses.
      * eapply Forall_forall in Hlater; [exact Hlater|done|done].
    + rewrite spawnAll_valid by done.
      apply promiseAll_resolves; [done|done|by rewrite length_replicate, length_fmap|].
      intros i s e Hs _. left. rewrite Hsettled.
      apply elem_of_seq. apply lookup_lt_Some in Hs. lia.
  - unfold expectedResults. rewrite length_zip_with. lia.
  - unfold expectedResults, allSessionsCompleted.
    clear Hvalid Hlater Hsettled Hfiles.
    revert runs Hcloses Hlen.
    induction sessions as [|s ss IH]; intros runs Hcloses Hlen.
    { destruct runs; [|done]. by split; [constructor|]. }
    destruct runs as [|e runs]; [done|].
    apply Forall_cons in Hcloses as [He Hcloses].
    cbn [zip_with forallb]. rewrite andb_true_iff, bool_decide_eq_true.
    rewrite (resultOf_success s e He), IH by (done || simpl in Hlen; lia).
    by rewrite Forall_cons.
Qed.

Lemma allSessionsCompleted_after_run_witness :
  let options := {| parallel := None; prdFile := None; architectureFile := None;
                    promptFile := None |} in
  let sessions := [ {| input_area := "frontend"; input_tickets := [1; 3] |};
                    {| input_area := "backend"; input_tickets := [2] |} ] in
  let done := {| childAtEnd := {| cp_killed := false; cp_exited := true |};
                 out := "ok"; err := ""; ending := on_close (Some 0) None;
                 storeAtEnd := fullStore |} in
  ∃ results,
    runDevSessions fullStore sessions options [done; done] [1; 0]%nat
    = Resolved results ∧
    length results = length sessions ∧
    (allSessionsCompleted results = true ↔ Forall exitsCleanly [done; done]).
Proof.
  intros options sessions done.
  apply allSessionsCompleted_after_run.
  - repeat constructor; discriminate.
  - repeat split; reflexivity.
  - repeat constructor; by eexists _, _.
  - discriminate.
  - reflexivity.
  - apply perm_swap.
Defined.

End session_results.
(** ** The orchestrator at work *)
Section orchestrator_run.
Import Js StateStore OrchestratorRun.

Lemma andThen_returned {A B} (first : Action A) (next : A → Action B) w w' a :
  first w = (w', Returned a) → (first ≫= next) w = next a w'.
Proof. intros H. unfold mbind, Action_bind, andThen. by rewrite H. Qed.

Lemma andThen_threw {A B} (first : Action A) (next : A → Action B) w w' f :
  first w = (w', Threw f) → (first ≫= next) w = (w', Threw f).
Proof. intros H. unfold mbind, Action_bind, andThen. by rewrite H. Qed.

Lemma andThen_unfinished {A B} (first : Action A) (next : A → Action B) w w' :
  first w = (w', Unfinished) → (first ≫= next) w = (w', Unfinished).
Proof. intros H. unfold mbind, Action_bind, andThen. by rewrite H. Qed.

Lemma manager_returned op w state' :
  perform (isoAt (answers w) (asked w)) op (held w) = Ok state' →
  manager op w = (moveOn (withHeld state' w), Returned ()).
Proof. intros H. unfold manager. by rewrite H. Qed.

(** No session is pending, one at least is running, and the orchestrator
    holds no handle. *)
Definition stalled (w : World) : Prop :=
  phase (held w) = dev_sessions ∧
  getDevSessionsByStatus (held w) pending = [] ∧
  getDevSessionsByStatus (held w) running ≠ [] ∧
  activeHandles w = [].

Lemma not_all_completed state :
  getDevSessionsByStatus state running ≠ [] →
  forallb (λ s, bool_decide (status s = completed_session)) (devSessions state)
  = false.
Proof.
  unfold getDevSessionsByStatus.
  induction (devSessions state) as [|s l IH]; [intros H; by destruct H|].
  rewrite filter_cons. simpl. destruct (decide (status s = running)) as [Hs|Hs].
  - intros _. rewrite Hs. done.
  - intros H. rewrite IH by done. apply andb_false_r.
Qed.

Lemma devSessionsPhase_stalled w :
  stalled w → devSessionsPhase w = (w, Returned ()).
Proof.
  intros (_ & Hpending & Hrunning & Hhandles). unfold devSessionsPhase.
  rewrite Hpending.
  rewrite (bool_decide_eq_false_2 (getDevSessionsByStatus _ running = [])) by done.
  rewrite andb_false_r. rewrite (bool_decide_eq_true_2 ([] = [])) by done.
  simpl negb. cbv iota.
  erewrite andThen_returned by reflexivity.
  unfold monitorDevSessions. rewrite Hhandles. cbv zeta.
  by rewrite not_all_completed.
Qed.

Lemma loop_stalled w fuel :
  stalled w → isRunning w = true → loop fuel w = (w, Unfinished).
Proof.
  intros Hw Hrun. induction fuel as [|fuel IH]; [done|].
  cbn [loop]. rewrite Hrun. destruct Hw as (Hphase & Hw).
  unfold isComplete. rewrite Hphase. simpl.
  erewrite andThen_returned
    by (apply devSessionsPhase_stalled; by split).
  exact IH.
Qed.

(** X22. Once no session is pending, a session is still marked running and
    the orchestrator holds no handle, [devSessionsPhase] changes nothing,
    and [run] goes round its loop without end: it neither returns nor
    throws, whatever the surroundings answer. *)
Theorem run_stalls w :
  phase (held w) = dev_sessions →
  getDevSessionsByStatus (held w) pending = [] →
  getDevSessionsByStatus (held w) running ≠ [] →
  activeHandles w = [] →
  devSessionsPhase w = (w, Returned ()) ∧
  ∀ fuel, run fuel w = (withIsRunning true w, Unfinished).
Proof.
  intros Hphase Hpending Hrunning Hhandles.
  split; [by apply devSessionsPhase_stalled|].
  intros fuel. unfold run. by rewrite loop_stalled.
Qed.

(** What the methods that update a session leave alone. *)
Definition frame (w : World) :=
  (phase (held w), blocked (held w), currentAgent (held w), isRunning w,
   activeHandles w, files w, spawned w, killed w, answers w).

Lemma findIndex_middle pre s post :
  area s ∉ area <$> pre → findIndex (pre ++ s :: post) (area s) = Some (length pre).
Proof.
  induction pre as [|p pre IH]; intros Hnot.
  - simpl. rewrite findIndex_cons. by rewrite decide_True.
  - rewrite fmap_cons in Hnot. apply not_elem_of_cons in Hnot as [Hne Hnot].
    change ((p :: pre) ++ s :: post) with (p :: (pre ++ s :: post)).
    rewrite findIndex_cons. rewrite decide_False by done. by rewrite IH.
Qed.

Lemma alter_middle {A} (f : A → A) (pre : list A) x post :
  alter f (length pre) (pre ++ x :: post) = pre ++ f x :: post.
Proof. induction pre as [|p pre IH]; [done|]. simpl. f_equal. exact IH. Qed.

Lemma manager_update pre s post st w :
  devSessions (held w) = pre ++ s :: post →
  area s ∉ area <$> pre →
  ∃ w', manager (doUpdateDevSession (area s) (statusUpdate st)) w = (w', Returned ()) ∧
        frame w' = frame w ∧ asked w' = S (asked w) ∧
        devSessions (held w')
        = pre ++ {| area := area s; tickets := tickets s; status := st |} :: post.
Proof.
  intros Hsessions Hnot. eexists. split.
  - apply manager_returned. simpl. unfold updateDevSession.
    rewrite Hsessions, findIndex_middle by done. reflexivity.
  - split; [done|]. split; [done|]. simpl. by rewrite alter_middle.
Qed.

Definition mark (s : DevSession) : DevSession :=
  {| area := area s; tickets := tickets s; status := running |}.

Lemma NoDup_areas_head pre (s : DevSession) rest :
  NoDup (area <$> (pre ++ s :: rest)) → area s ∉ area <$> pre.
Proof.
  rewrite fmap_app, fmap_cons. intros [_ [Hdisjoint _]]%NoDup_app Hin.
  apply (Hdisjoint _ Hin). apply list_elem_of_here.
Qed.

Lemma markRunning_all sessions : ∀ pre w,
  devSessions (held w) = pre ++ sessions →
  NoDup (area <$> (pre ++ sessions)) →
  ∃ w', markRunning sessions w = (w', Returned ()) ∧
        frame w' = frame w ∧ asked w' = (asked w + length sessions)%nat ∧
        devSessions (held w') = pre ++ (mark <$> sessions).
Proof.
  induction sessions as [|s rest IH]; intros pre w Hsessions Hnodup.
  - exists w. simpl. split; [done|]. split; [done|]. split; [lia|done].
  - destruct (manager_update pre s rest running w Hsessions) as (w1 & Hrun & Hframe & Hasked & Hs1).
    { by eapply NoDup_areas_head. }
    destruct (IH (pre ++ [mark s]) w1) as (w2 & Hrest & Hframe2 & Hasked2 & Hs2).
    { by rewrite <-app_assoc. }
    { rewrite <-app_assoc. simpl. rewrite !fmap_app, !fmap_cons in *. done. }
    exists w2. split.
    + cbn [markRunning]. erewrite andThen_returned by exact Hrun. exact Hrest.
    + split; [congruence|]. split; [simpl; lia|].
      rewrite Hs2, <-app_assoc. done.
Qed.

(** The exit code in the result of a child, when it has one. *)
Definition exitCodeOf (e : Dev.Execution) : option Z :=
  match Base.settle (Dev.childAtEnd e) (Dev.out e) (Dev.err e) (Dev.ending e) with
  | Ok r => Some (Base.exitCode r)
  | Throw _ => None
  end.

(** The child closed, and not with the exit code 2. *)
Definition notBlocked (e : Dev.Execution) : Prop :=
  ∃ code, exitCodeOf e = Some code ∧ code ≠ 2.

Definition inputOf (s : DevSession) : Dev.DevSessionInput :=
  {| Dev.input_area := area s; Dev.input_tickets := tickets s |}.

(** The session once its child has ended: completed after the exit code
    0, still running after any other one but 2. *)
Definition finish (s : DevSession) (e : Dev.Execution) : DevSession :=
  {| area := area s; tickets := tickets s;
     status := if bool_decide (exitCodeOf e = Some 0)
               then completed_session else running |}.

Lemma exitCodeOf_closes e code : exitCodeOf e = Some code → closes e.
Proof.
  unfold exitCodeOf, closes. destruct (Dev.ending e) as [m|c sig]; [done|].
  intros _. by eexists _, _.
Qed.

Lemma resultOf_status s e code :
  exitCodeOf e = Some code →
  Dev.area (resultOf s e) = Dev.input_area s ∧
  Dev.status (resultOf s e) = statusOf code.
Proof.
  intros Hcode.
  destruct (handleResult_closes s e (exitCodeOf_closes _ _ Hcode))
    as (Hres & Harea & _ & Hstatus).
  split; [done|]. rewrite Hstatus. f_equal.
  unfold Dev.handleResult in Hres. unfold exitCodeOf in Hcode.
  destruct (Base.settle _ _ _ _) as [r|]; [|done]. simpl in Hres.
  injection Hcode as <-.
  match type of Hres with
  | context [Dev.toDevAgentResult ?fs ?a ?r] =>
      destruct (toDevAgentResult_total fs a r) as (d & Hd & _ & Hr & _)
  end.
  rewrite Hd in Hres. injection Hres as <-. by rewrite Hr.
Qed.

Lemma processResults_round sessions : ∀ runs pre w,
  length runs = length sessions →
  Forall notBlocked runs →
  devSessions (held w) = pre ++ (mark <$> sessions) →
  NoDup (area <$> (pre ++ sessions)) →
  ∃ w', processResults (zip_with resultOf (inputOf <$> sessions) runs) w
        = (w', Returned ()) ∧
        frame w' = frame w ∧
        devSessions (held w') = pre ++ zip_with finish sessions runs.
Proof.
  induction sessions as [|s rest IH]; intros runs pre w Hlen Hruns Hsessions Hnodup.
  - exists w. destruct runs; [|done]. done.
  - destruct runs as [|e runs]; [done|].
    apply Forall_cons in Hruns as [(code & Hcode & Hnot2) Hruns].
    rewrite fmap_cons in Hsessions.
    rewrite fmap_cons. cbn [zip_with processResults].
    destruct (resultOf_status (inputOf s) e code Hcode) as [Harea Hstatus].
    rewrite Hstatus, Harea. unfold statusOf.
    assert (area s ∉ area <$> pre) as Hhead by (by eapply NoDup_areas_head).
    assert (NoDup (area <$> ((pre ++ [finish s e]) ++ rest))) as Hnodup'.
    { rewrite <-app_assoc. simpl. rewrite !fmap_app, !fmap_cons in *. done. }
    destruct (decide (code = 0)) as [->|Hne].
    + rewrite bool_decide_eq_true_2 by done.
      destruct (manager_update pre (mark s) (mark <$> rest) completed_session w
                  Hsessions Hhead) as (w1 & Hrun & Hframe & _ & Hs1).
      assert ({| area := area (mark s); tickets := tickets (mark s);
                 status := completed_session |} = finish s e) as Hfin.
      { unfold finish. by rewrite Hcode, bool_decide_eq_true_2. }
      rewrite Hfin in Hs1.
      destruct (IH runs (pre ++ [finish s e]) w1) as (w2 & Hrest & Hframe2 & Hs2);
        [simpl in Hlen; lia|done|by rewrite <-app_assoc|done|].
      exists w2. split.
      * erewrite andThen_returned by exact Hrun. exact Hrest.
      * split; [congruence|]. by rewrite Hs2, <-app_assoc.
    + rewrite decide_False by done.
      rewrite (bool_decide_eq_false_2 (Dev.error = Dev.success)) by done.
      rewrite (bool_decide_eq_false_2 (Dev.error = Dev.blocked)) by done.
      assert (mark s = finish s e) as Hfin.
      { unfold finish. rewrite Hcode, bool_decide_eq_false_2; [done|].
        intros [= ?]. done. }
      rewrite Hfin in Hsessions.
      destruct (IH runs (pre ++ [finish s e]) w) as (w2 & Hrest & Hframe2 & Hs2);
        [simpl in Hlen; lia|done|by rewrite <-app_assoc|done|].
      exists w2. split.
      * erewrite andThen_returned by reflexivity. exact Hrest.
      * split; [done|]. by rewrite Hs2, <-app_assoc.
Qed.

(** The children of the sessions that are started first. *)
Definition firstBatch (w : World) : Batch :=
  devAt (answers w) (asked w + length (devSessions (held w)))%nat.

(** The dev phase is entered for the first time: every session is
    pending and passes the checks of [spawnDevAgent], no two sessions
    share an area, and the orchestrator holds no handle. *)
Definition readyToStart (w : World) : Prop :=
  phase (held w) = dev_sessions ∧
  devSessions (held w) ≠ [] ∧
  Forall (λ s, status s = pending) (devSessions (held w)) ∧
  NoDup (area <$> devSessions (held w)) ∧
  Forall validSession (inputOf <$> devSessions (held w)) ∧
  filesPresent (files w) defaults ∧
  activeHandles w = [].

(** Every child of the batch closes, none with the exit code 2. *)
Definition allEnd (w : World) : Prop :=
  length (runs (firstBatch w)) = length (devSessions (held w)) ∧
  Forall notBlocked (runs (firstBatch w)) ∧
  settled (firstBatch w) ≡ₚ seq 0 (length (devSessions (held w))).

Lemma filter_all {A} (P : A → Prop) `{!∀ x, Decision (P x)} (l : list A) :
  Forall P l → filter P l = l.
Proof.
  induction 1 as [|x l Hx _ IH]; [done|].
  rewrite filter_cons, decide_True by done. by rewrite IH.
Qed.

Lemma filter_none {A} (P : A → Prop) `{!∀ x, Decision (P x)} (l : list A) :
  Forall (λ x, ¬ P x) l → filter P l = [].
Proof.
  induction 1 as [|x l Hx _ IH]; [done|].
  rewrite filter_cons, decide_False by done. exact IH.
Qed.

Lemma spawnSessions_valid sessions w :
  Forall validSession (inputOf <$> sessions) →
  filesPresent (files w) defaults →
  spawnSessions (inputOf <$> sessions) w
  = (withActiveHandles (handleOf <$> (inputOf <$> sessions))
       (withSpawned (spawned w ++ ((λ s, "dev-" +:+ area s) <$> sessions)) w),
     Returned ()).
Proof.
  intros Hvalid Hfiles. unfold spawnSessions.
  change {| Dev.parallel := None; Dev.prdFile := None;
            Dev.architectureFile := None; Dev.promptFile := None |} with defaults.
  rewrite spawnDevSessions_valid by done. cbv zeta. cbn [fst snd].
  rewrite <-(list_fmap_compose inputOf (λ s, "dev-" +:+ Dev.input_area s)).
  reflexivity.
Qed.

Lemma finish_completed s e :
  status (finish s e) = completed_session ↔ exitCodeOf e = Some 0.
Proof.
  unfold finish. simpl. destruct (decide (exitCodeOf e = Some 0)).
  - by rewrite bool_decide_eq_true_2.
  - by rewrite bool_decide_eq_false_2.
Qed.

Lemma finish_status sessions : ∀ runs,
  length runs = length sessions →
  Forall (λ s, status s = completed_session ∨ status s = running)
    (zip_with finish sessions runs) ∧
  (Forall (λ e, exitCodeOf e = Some 0) runs ↔
   Forall (λ s, status s = completed_session) (zip_with finish sessions runs)).
Proof.
  induction sessions as [|s rest IH]; intros runs Hlen.
  - destruct runs; [|done]. split; [constructor|]. by split; constructor.
  - destruct runs as [|e runs]; [done|]. simpl in Hlen.
    destruct (IH runs) as [Hall Hiff]; [lia|]. cbn [zip_with]. split.
    + constructor; [|done]. unfold finish. simpl.
      destruct (bool_decide _); [by left|by right].
    + by rewrite !Forall_cons, Hiff, finish_completed.
Qed.

Lemma completeIfNoneRemains_completed w :
  phase (held w) = dev_sessions →
  Forall (λ s, status s = completed_session) (devSessions (held w)) →
  ∃ w', completeIfNoneRemains w = (w', Returned ()) ∧
        phase (held w') = completed ∧
        devSessions (held w') = devSessions (held w) ∧
        blocked (held w') = blocked (held w) ∧
        isRunning w' = isRunning w ∧ activeHandles w' = activeHandles w ∧
        files w' = files w ∧ spawned w' = spawned w ∧ killed w' = killed w.
Proof.
  intros Hphase Hall. unfold completeIfNoneRemains. cbv zeta.
  rewrite filter_none.
  2:{ eapply Forall_impl; [exact Hall|]. intros s Hs Hnot. done. }
  eexists. split.
  - apply manager_returned. simpl. unfold transitionPhase, isValidTransition.
    rewrite Hphase. reflexivity.
  - done.
Qed.

Lemma completeIfNoneRemains_remaining w :
  ¬ Forall (λ s, status s = completed_session) (devSessions (held w)) →
  completeIfNoneRemains w = (w, Returned ()).
Proof.
  intros Hnot. unfold completeIfNoneRemains. cbv zeta.
  destruct (filter _ _) as [|s l] eqn:Hfilter; [|done].
  destruct Hnot. apply Forall_forall. intros s Hs.
  destruct (decide (status s = completed_session)) as [|Hne]; [done|].
  assert (s ∈ filter (λ s, status s ≠ completed_session) (devSessions (held w)))
    as Hin by (by apply list_elem_of_filter).
  rewrite Hfilter in Hin. by apply elem_of_nil in Hin.
Qed.

Lemma devSessionsPhase_round w :
  readyToStart w → allEnd w →
  ∃ w', devSessionsPhase w = (w', Returned ()) ∧
        devSessions (held w')
        = zip_with finish (devSessions (held w)) (runs (firstBatch w)) ∧
        phase (held w')
        = (if bool_decide (Forall (λ e, exitCodeOf e = Some 0) (runs (firstBatch w)))
           then completed else dev_sessions) ∧
        activeHandles w' = [] ∧
        spawned w' = spawned w ++ ((λ s, "dev-" +:+ area s) <$> devSessions (held w)) ∧
        files w' = storeThen (firstBatch w) ∧
        blocked (held w') = blocked (held w) ∧
        isRunning w' = isRunning w ∧ killed w' = killed w.
Proof.
  intros (Hphase & Hsome & Hpending & Hnodup & Hvalid & Hfiles & Hhandles)
         (Hlen & Hruns & Hsettled).
  unfold firstBatch in *.
  set (sessions := devSessions (held w)) in *.
  unfold devSessionsPhase, getDevSessionsByStatus. fold sessions.
  rewrite (filter_all (λ s, status s = pending)) by done.
  rewrite (bool_decide_eq_false_2 (sessions = [])) by done.
  cbn [andb negb]. cbv iota zeta. fold inputOf.
  destruct (markRunning_all sessions [] w) as (w1 & Hmark & Hframe1 & Hasked1 & Hs1);
    [done|done|].
  simpl in Hs1.
  injection Hframe1 as Hph1 Hbl1 Hcur1 Hrun1 Hact1 Hfiles1 Hsp1 Hk1 Hans1.
  erewrite andThen_returned.
  2:{ erewrite andThen_returned by exact Hmark.
      apply spawnSessions_valid; [done|by rewrite Hfiles1]. }
  unfold monitorDevSessions. cbn [activeHandles withActiveHandles].
  destruct (handleOf <$> (inputOf <$> sessions)) as [|h hs] eqn:Hhs.
  { destruct sessions; done. }
  rewrite <-Hhs. clear h hs Hhs. cbv zeta.
  cbn [answers asked withActiveHandles withSpawned].
  rewrite Hans1, Hasked1.
  rewrite (promiseAll_resolves (inputOf <$> sessions));
    [|eapply Forall_impl; [exact Hruns|];
      intros e (code & Hcode & _); by eapply exitCodeOf_closes
     |by rewrite length_fmap
     |by rewrite length_replicate, !length_fmap
     |intros i s e Hs _; left; rewrite Hsettled; apply elem_of_seq;
      apply lookup_lt_Some in Hs; rewrite length_fmap in Hs; lia].
  unfold expectedResults.
  set (batch := devAt (answers w) (asked w + length sessions)%nat) in *.
  match goal with
  | |- context [processResults ?results ≫= _] =>
      match goal with
      | |- ∃ w', (_ ≫= _) ?w0 = _ ∧ _ =>
          destruct (processResults_round sessions (runs batch) [] w0)
            as (w2 & Hprocess & Hframe2 & Hs2); [done|done|exact Hs1|done|]
      end
  end.
  simpl in Hs2.
  injection Hframe2 as Hph2 Hbl2 Hcur2 Hrun2 Hact2 Hfiles2 Hsp2 Hk2 Hans2.
  simpl in Hph2, Hbl2, Hcur2, Hrun2, Hact2, Hfiles2, Hsp2, Hk2, Hans2.
  erewrite andThen_returned by exact Hprocess.
  erewrite andThen_returned by reflexivity.
  destruct (finish_status sessions (runs batch) Hlen) as [_ Hiff].
  destruct (decide (Forall (λ e, exitCodeOf e = Some 0) (runs batch))) as [Hall|Hsome'].
  - rewrite bool_decide_eq_true_2 by done.
    destruct (completeIfNoneRemains_completed (withActiveHandles [] w2))
      as (w3 & Hcomplete & Hph3 & Hs3 & Hbl3 & Hrun3 & Hact3 & Hfiles3 & Hsp3 & Hk3).
    { simpl. congruence. }
    { simpl. rewrite Hs2. by apply Hiff. }
    exists w3. split; [exact Hcomplete|].
    simpl in *. repeat split; congruence.
  - rewrite bool_decide_eq_false_2 by done.
    rewrite completeIfNoneRemains_remaining.
    2:{ simpl. rewrite Hs2. by rewrite <-Hiff. }
    eexists. split; [reflexivity|].
    simpl in *. repeat split; congruence.
Qed.

(** X23. The first round of the dev phase. Every pending session is marked
    running and a child is spawned for it, in the order of the sessions;
    when all children have closed, none with the exit code 2, a session
    is completed if its child exited with 0 and is left running
    otherwise. The handles are dropped, and the phase becomes "completed"
    exactly when every child exited with 0. *)
Theorem devSessionsPhase_first_round w :
  readyToStart w → allEnd w →
  ∃ w', devSessionsPhase w = (w', Returned ()) ∧
        devSessions (held w')
        = zip_with finish (devSessions (held w)) (runs (firstBatch w)) ∧
        phase (held w')
        = (if bool_decide (Forall (λ e, exitCodeOf e = Some 0) (runs (firstBatch w)))
           then completed else dev_sessions) ∧
        activeHandles w' = [] ∧
        spawned w' = spawned w ++ ((λ s, "dev-" +:+ area s) <$> devSessions (held w)) ∧
        files w' = storeThen (firstBatch w) ∧
        blocked (held w') = blocked (held w) ∧
        killed w' = killed w.
Proof.
  intros Hready Hend.
  destruct (devSessionsPhase_round w Hready Hend)
    as (w' & Hphase & Hs & Hp & Hh & Hsp & Hf & Hb & _ & Hk).
  by exists w'.
Qed.

Lemma stalled_after_failure w w' :
  length (runs (firstBatch w)) = length (devSessions (held w)) →
  devSessions (held w')
  = zip_with finish (devSessions (held w)) (runs (firstBatch w)) →
  phase (held w') = dev_sessions →
  activeHandles w' = [] →
  ¬ Forall (λ e, exitCodeOf e = Some 0) (runs (firstBatch w)) →
  stalled w'.
Proof.
  intros Hlen Hs Hphase Hhandles Hnot.
  destruct (finish_status _ _ Hlen) as [Hall Hiff]. rewrite <-Hs in Hall, Hiff.
  split; [done|]. unfold getDevSessionsByStatus. split; [|split; [|done]].
  - apply filter_none. eapply Forall_impl; [exact Hall|].
    intros s [Hst|Hst]; by rewrite Hst.
  - intros Hnone. apply Hnot, Hiff. apply Forall_forall. intros s Hin.
    destruct (proj1 (Forall_forall _ _) Hall s Hin) as [Hst|Hst]; [done|].
    assert (s ∈ filter (λ s, status s = running) (devSessions (held w'))) as Hin'
      by (by apply list_elem_of_filter).
    rewrite Hnone in Hin'. by apply elem_of_nil in Hin'.
Qed.

(** X24. [run], started when the dev phase is entered for the first time,
    with children that all close, none with the exit code 2: if every
    child exits with 0, it returns the final phase "completed" and
    success; if one child exits with another code, it never returns:
    the session of that child stays marked running, no child is left to
    wait for, and the loop goes round without end. *)
Theorem run_after_first_round w :
  readyToStart w → allEnd w →
  (Forall (λ e, exitCodeOf e = Some 0) (runs (firstBatch w)) →
   ∀ fuel, ∃ w',
     run (S (S fuel)) w
     = (w', Returned {| finalPhase := completed; success := true; error := None |}) ∧
     Forall (λ s, status s = completed_session) (devSessions (held w'))) ∧
  (¬ Forall (λ e, exitCodeOf e = Some 0) (runs (firstBatch w)) →
   ∀ fuel, (run fuel w).2 = Unfinished).
Proof.
  intros Hready Hend.
  assert (readyToStart (withIsRunning true w)) as Hready0 by exact Hready.
  assert (allEnd (withIsRunning true w)) as Hend0 by exact Hend.
  destruct (devSessionsPhase_round _ Hready0 Hend0)
    as (w' & Hround & Hs & Hp & Hh & _ & _ & _ & Hrun & _).
  change (firstBatch (withIsRunning true w)) with (firstBatch w) in *.
  change (held (withIsRunning true w)) with (held w) in *.
  destruct Hready as (Hphase & _). destruct Hend as (Hlen & _).
  simpl in Hrun.
  assert (∀ fuel, loop (S fuel) (withIsRunning true w) = loop fuel w') as Hstep.
  { intros fuel. cbn [loop]. simpl isRunning. simpl held.
    unfold isComplete at 1. rewrite Hphase. simpl.
    by erewrite andThen_returned by exact Hround. }
  split.
  - intros Hall fuel. rewrite bool_decide_eq_true_2 in Hp by done.
    exists w'. unfold run. rewrite Hstep. cbn [loop].
    unfold isComplete. rewrite Hp, Hrun. simpl. rewrite Hp. split; [done|].
    rewrite Hs. by apply finish_status.
  - intros Hnot fuel. rewrite bool_decide_eq_false_2 in Hp by done.
    unfold run. destruct fuel as [|fuel]; [done|].
    rewrite Hstep, loop_stalled; [done| |done].
    by eapply stalled_after_failure.
Qed.

(** X25. Sessions that are neither pending nor running are not looked at:
    when no session is pending or running, [run] completes the
    orchestration and reports success, and the sessions that are blocked
    stay blocked. *)
Theorem run_drops_blocked_sessions w :
  phase (held w) = dev_sessions →
  getDevSessionsByStatus (held w) pending = [] →
  getDevSessionsByStatus (held w) running = [] →
  ∀ fuel, ∃ w',
    run (S (S fuel)) w
    = (w', Returned {| finalPhase := completed; success := true; error := None |}) ∧
    devSessions (held w') = devSessions (held w) ∧
    blocked (held w') = blocked (held w) ∧
    spawned w' = spawned w.
Proof.
  intros Hphase Hpending Hrunning fuel. eexists. split.
  - unfold run. cbn [loop]. simpl isRunning. simpl held.
    unfold isComplete at 1. rewrite Hphase. simpl.
    erewrite andThen_returned.
    2:{ unfold devSessionsPhase. simpl held. rewrite Hpending, Hrunning.
        simpl. apply manager_returned. simpl.
        unfold transitionPhase, isValidTransition. rewrite Hphase. reflexivity. }
    reflexivity.
  - done.
Qed.

(** The child exits with [code] and leaves the files as they are. *)
Definition childExits (code : Z) : Dev.Execution :=
  {| Dev.childAtEnd := {| Base.cp_killed := false; Base.cp_exited := true |};
     Dev.out := ""; Dev.err := ""; Dev.ending := Base.on_close (Some code) None;
     Dev.storeAtEnd := fullStore |}.

(** Surroundings in which the two children of a batch end with the
    given exit codes, the second before the first. *)
Definition twoChildren (first second : Z) : Answers :=
  {| isoAt := λ _, "2026-01-01T00:00:00.000Z";
     msAt := λ _, 1767225600000;
     answerAt := λ _, "";
     agentAt := λ _, None;
     trackerAt := λ _, Throw "offline";
     devAt := λ _, {| runs := [childExits first; childExits second];
                      settled := [1; 0]%nat;
                      storeThen := fullStore |} |}.

Definition notBlockedState : BlockedState :=
  {| isBlocked := false; blockedAgent := None; questionFile := None;
     waitingFor := None |}.

(** The dev phase with two sessions in the given states. *)
Definition devPhase (frontend backend : SessionStatus) (surroundings : Answers)
  : World :=
  {| held := {| phase := dev_sessions;
                blocked := notBlockedState;
                devSessions :=
                  [ {| area := "frontend"; tickets := [1; 3]; status := frontend |};
                    {| area := "backend"; tickets := [2]; status := backend |} ];
                currentAgent := None;
                lastUpdated := "2026-01-01T00:00:00.000Z" |};
     isRunning := false;
     activeHandles := [];
     files := fullStore;
     spawned := ["po"; "tech_lead"];
     killed := [];
     asked := 0;
     answers := surroundings |}.

Lemma devPhase_ready surroundings : readyToStart (devPhase pending pending surroundings).
Proof.
  split; [done|]. split; [done|]. split; [by repeat constructor|].
  split.
  { simpl. apply NoDup_cons. split; [|apply NoDup_singleton].
    intros Hin. apply list_elem_of_singleton in Hin. discriminate. }
  split; [repeat constructor; discriminate|].
  split; [|done]. repeat split; reflexivity.
Qed.

Lemma twoChildren_end first second :
  first ≠ 2 → second ≠ 2 →
  allEnd (devPhase pending pending (twoChildren first second)).
Proof.
  intros H1 H2. split; [done|]. split.
  - repeat constructor; by eexists.
  - apply perm_swap.
Qed.

Lemma run_stalls_witness :
  (run 7 (devPhase completed_session running (twoChildren 0 0))).2 = Unfinished.
Proof.
  exact (f_equal snd
           (proj2 (run_stalls (devPhase completed_session running (twoChildren 0 0))
                     eq_refl eq_refl ltac:(discriminate) eq_refl) 7%nat)).
Defined.

Lemma devSessionsPhase_first_round_witness :
  ∃ w', devSessionsPhase (devPhase pending pending (twoChildren 0 1))
        = (w', Returned ()) ∧
        status <$> devSessions (held w') = [completed_session; running] ∧
        phase (held w') = dev_sessions ∧
        activeHandles w' = [] ∧
        spawned w' = ["po"; "tech_lead"; "dev-frontend"; "dev-backend"].
Proof.
  destruct (devSessionsPhase_first_round (devPhase pending pending (twoChildren 0 1))
              (devPhase_ready _)
              (twoChildren_end 0 1 ltac:(discriminate) ltac:(discriminate)))
    as (w' & Hphase & Hs & Hp & Hh & Hsp & _).
  exists w'. split; [exact Hphase|]. split; [by rewrite Hs|].
  split; [exact Hp|]. split; [exact Hh|]. exact Hsp.
Defined.

Lemma run_after_first_round_witness :
  (run 9 (devPhase pending pending (twoChildren 0 1))).2 = Unfinished ∧
  ∃ w', run 2 (devPhase pending pending (twoChildren 0 0))
        = (w', Returned {| finalPhase := completed; success := true;
                           error := None |}) ∧
        Forall (λ s, status s = completed_session) (devSessions (held w')).
Proof.
  split.
  - apply (proj2 (run_after_first_round _ (devPhase_ready _)
                    (twoChildren_end 0 1 ltac:(discriminate) ltac:(discriminate)))).
    intros Hall. apply Forall_cons in Hall as [_ Hall].
    apply Forall_cons in Hall as [Hall _]. discriminate.
  - apply (proj1 (run_after_first_round _ (devPhase_ready _)
                    (twoChildren_end 0 0 ltac:(discriminate) ltac:(discriminate)))).
    by repeat constructor.
Defined.

Lemma run_drops_blocked_sessions_witness :
  ∃ w', run 2 (devPhase blocked_session completed_session (twoChildren 0 0))
        = (w', Returned {| finalPhase := completed; success := true;
                           error := None |}) ∧
        devSessions (held w')
        = devSessions (held (devPhase blocked_session completed_session
                               (twoChildren 0 0))) ∧
        blocked (held w') = notBlockedState ∧
        spawned w' = ["po"; "tech_lead"].
Proof.
  apply (run_drops_blocked_sessions
           (devPhase blocked_session completed_session (twoChildren 0 0))
           eq_refl eq_refl eq_refl 0%nat).
Defined.

(** A child that exits with 2 and has left no question: its session is
    marked blocked and never started again, and [run] reports success. *)
Example blocked_without_question :
  ∃ w', run 3 (devPhase pending pending (twoChildren 0 2))
        = (w', Returned {| finalPhase := completed; success := true;
                           error := None |}) ∧
        status <$> devSessions (held w') = [completed_session; blocked_session].
Proof. eexists. split; [vm_compute; reflexivity|]. reflexivity. Qed.

End orchestrator_run.
(** ** The orchestrator and the blocked state *)
Section orchestrator_blocked.
Import Js StateStore OrchestratorRun.

Lemma parseQuestionFile_missing fs file :
  Fs.existsSync fs file = false →
  Blocking.parseQuestionFile fs file = Throw (Blocking.QuestionFileNotFound file).
Proof.
  intros Hno. unfold Blocking.parseQuestionFile.
  destruct (Fs.readFileSync fs file) as [text|] eqn:Hread; [|done].
  unfold Fs.readFileSync in Hread.
  destruct (Fs.lookupFile fs file) as [f|] eqn:Hf; [|done].
  apply lookupFile_Some in Hf as [Hin <-].
  apply bool_decide_eq_false in Hno. destruct Hno.
  by apply list_elem_of_fmap_2.
Qed.

Lemma ask_throws w file e :
  Blocking.parseQuestionFile (files w) file = Throw e →
  processQuestion file w = (w, Threw (BlockingFailure e)).
Proof.
  intros H. unfold processQuestion, Blocking.processQuestion. by rewrite H.
Qed.

Lemma ask_agent w file parsed :
  Blocking.parseQuestionFile (files w) file = Ok parsed →
  Blocking.forRecipient parsed ≠ user →
  processQuestion file w
  = (w, Returned {| Blocking.routing := Blocking.routeQuestion parsed;
                    Blocking.response := None; Blocking.responseFile := None |}).
Proof.
  intros Hparsed Hagent. unfold processQuestion, Blocking.processQuestion.
  rewrite Hparsed. simpl.
  assert (Blocking.routeQuestion parsed ≠ Blocking.prompt_user) as Hroute.
  { unfold Blocking.routeQuestion. by destruct (Blocking.forRecipient parsed). }
  rewrite bool_decide_eq_false_2 by done. simpl.
  by rewrite bool_decide_eq_false_2.
Qed.

(** The files once the answer at the next prompt has been stored. *)
Definition answered (w : World) (file : string) : Fs.FileSystem :=
  (Blocking.writeResponse (files w) (msAt (answers w) (asked w))
     (isoAt (answers w) (asked w)) file
     (Blocking.promptUser (answerAt (answers w) (asked w)))).1.

Lemma ask_user w file parsed :
  Blocking.parseQuestionFile (files w) file = Ok parsed →
  Blocking.forRecipient parsed = user →
  ∃ processed,
    processQuestion file w = (moveOn (withFiles (answered w file) w), Returned processed) ∧
    Blocking.response processed = Some (trim (answerAt (answers w) (asked w))).
Proof.
  intros Hparsed Huser. unfold processQuestion, Blocking.processQuestion.
  rewrite Hparsed. simpl.
  assert (Blocking.routeQuestion parsed = Blocking.prompt_user) as ->.
  { unfold Blocking.routeQuestion. by rewrite Huser. }
  rewrite bool_decide_eq_true_2 by done. simpl.
  eexists. split; [reflexivity|done].
Qed.

Lemma hasResponse_answered w file : Blocking.hasResponse (answered w file) file = true.
Proof.
  unfold Blocking.hasResponse, answered, Blocking.writeResponse. simpl.
  rewrite existsSync_atomicWrite
    by (intros H; symmetry in H; by apply tempFileName_ne in H).
  by rewrite bool_decide_eq_true_2.
Qed.

(** The blocked state names the question [file]. *)
Definition blockedOn (w : World) (file : string) : Prop :=
  questionFile (blocked (held w)) = Some file ∧ isEmpty file = false.

(** X26. [handleBlockedState], which [resume] calls on a blocked state.
    Without a recorded question, or with a response to it that is not
    empty, it clears the blocked state and touches no file. Otherwise it
    goes by the question file, not by the recipient the state records: a
    missing file makes it throw; a question for the PO or the tech lead
    leaves everything as it is, still blocked; a question for the user is
    put to the user and the answer stored, and the blocked state is
    cleared unless the answer is blank. *)
Theorem handleBlockedState_outcomes w :
  (given (questionFile (blocked (held w))) = false →
   ∃ w', handleBlockedState w = (w', Returned ()) ∧
         blocked (held w') = notBlockedState ∧ files w' = files w) ∧
  (∀ file, blockedOn w file →
     (given (Blocking.readResponse (files w) file) = true →
      ∃ w', handleBlockedState w = (w', Returned ()) ∧
            blocked (held w') = notBlockedState ∧ files w' = files w) ∧
     (given (Blocking.readResponse (files w) file) = false →
      (Fs.existsSync (files w) file = false →
       handleBlockedState w
       = (w, Threw (BlockingFailure (Blocking.QuestionFileNotFound file)))) ∧
      (∀ parsed,
         Blocking.parseQuestionFile (files w) file = Ok parsed →
         (Blocking.forRecipient parsed ≠ user →
          handleBlockedState w = (w, Returned ())) ∧
         (Blocking.forRecipient parsed = user →
          ∃ w', handleBlockedState w = (w', Returned ()) ∧
                files w' = answered w file ∧
                Blocking.hasResponse (files w') file = true ∧
                blocked (held w')
                = if isEmpty (trim (answerAt (answers w) (asked w)))
                  then blocked (held w) else notBlockedState)))).
Proof.
  split.
  - intros Hnone. unfold handleBlockedState. cbv zeta. rewrite Hnone. simpl.
    eexists. split; [reflexivity|done].
  - intros file [Hfile Hname].
    assert (given (questionFile (blocked (held w))) = true) as Hgiven.
    { rewrite Hfile. simpl. by rewrite Hname. }
    unfold handleBlockedState. cbv zeta. rewrite Hgiven, Hfile. simpl.
    split.
    + intros ->. eexists. split; [reflexivity|done].
    + intros ->. split.
      * intros Hmissing%parseQuestionFile_missing.
        destruct (bool_decide _);
          by erewrite andThen_threw by (by apply ask_throws).
      * intros parsed Hparsed. split.
        -- intros Hagent.
           destruct (bool_decide _);
             by erewrite andThen_returned by (by eapply ask_agent).
        -- intros Huser.
           destruct (ask_user w file parsed Hparsed Huser) as (processed & Hask & Hresponse).
           exists (if isEmpty (trim (answerAt (answers w) (asked w)))
                   then moveOn (withFiles (answered w file) w)
                   else moveOn (withHeld
                                  (clearBlocked
                                     (isoAt (answers w) (S (asked w)))
                                     (held w))
                                  (moveOn (withFiles (answered w file) w)))).
           split.
           ++ destruct (bool_decide _);
                (erewrite andThen_returned by exact Hask);
                rewrite Hresponse; simpl;
                by destruct (isEmpty (trim _)).
           ++ destruct (isEmpty (trim _)); simpl;
                by rewrite hasResponse_answered.
Qed.

(** The user types [answer] at every prompt. *)
Definition userTypes (answer : string) : Answers :=
  {| isoAt := λ _, "2026-01-01T00:00:00.000Z";
     msAt := λ _, 1767225600000;
     answerAt := λ _, answer;
     agentAt := λ _, None;
     trackerAt := λ _, Throw "offline";
     devAt := λ _, {| runs := []; settled := []; storeThen := askedStore |} |}.

(** A state blocked on a question of [askedStore]. *)
Definition blockedWorld (file : string) (waiting : Recipient)
    (surroundings : Answers) : World :=
  {| held := {| phase := dev_sessions;
                blocked := {| isBlocked := true; blockedAgent := Some agent_dev;
                              questionFile := Some file;
                              waitingFor := Some waiting |};
                devSessions := [ {| area := "backend"; tickets := [2];
                                    status := pending |} ];
                currentAgent := None;
                lastUpdated := "2026-01-01T00:00:00.000Z" |};
     isRunning := false;
     activeHandles := [];
     files := askedStore;
     spawned := [];
     killed := [];
     asked := 0;
     answers := surroundings |}.

Lemma handleBlockedState_outcomes_witness :
  let file := ".orchestrator/questions/q-001.md" in
  ∃ w', handleBlockedState (blockedWorld file user (userTypes " PostgreSQL "))
        = (w', Returned ()) ∧
        Blocking.hasResponse (files w') file = true ∧
        blocked (held w') = notBlockedState.
Proof.
  intros file.
  destruct (proj2 (proj2 (proj2 (proj2 (handleBlockedState_outcomes
                                          (blockedWorld file user
                                             (userTypes " PostgreSQL ")))
                                   file (conj eq_refl eq_refl))
                            eq_refl)
                     _ eq_refl)
              eq_refl)
    as (w' & Hcall & _ & Hresponse & Hblocked).
  exists w'. split; [exact Hcall|]. split; [exact Hresponse|exact Hblocked].
Defined.

(** The question is for the tech lead: nobody is asked and the state
    stays blocked, also when the state says it waits for the user. A
    blank answer to a question for the user is stored, and the state
    stays blocked. *)
Example blocked_state_stays :
  let forTechLead := ".orchestrator/questions/q-002.md" in
  let forUser := ".orchestrator/questions/q-001.md" in
  handleBlockedState (blockedWorld forTechLead tech_lead (userTypes "Kafka"))
  = (blockedWorld forTechLead tech_lead (userTypes "Kafka"), Returned ()) ∧
  handleBlockedState (blockedWorld forTechLead user (userTypes "Kafka"))
  = (blockedWorld forTechLead user (userTypes "Kafka"), Returned ()) ∧
  ∃ w', handleBlockedState (blockedWorld forUser user (userTypes "  "))
        = (w', Returned ()) ∧
        isBlocked (blocked (held w')) = true ∧
        Blocking.hasResponse (files w') forUser = true ∧
        Blocking.readResponse (files w') forUser = Some "".
Proof.
  intros forTechLead forUser. split; [done|]. split; [done|].
  eexists. split; [vm_compute; reflexivity|]. by vm_compute.
Qed.

(** X27. [stop] calls [kill] on every handle the orchestrator holds, drops
    the handles and leaves the saved state as it is: the sessions stay
    marked running. [stopOrchestration] builds an orchestrator of its own,
    which holds no handle, and so kills nothing. [resumeOrchestration],
    on a saved state of the dev phase that is not blocked and in which no
    session is pending and one is marked running, never returns. *)
Theorem resume_after_stop :
  (∀ w, ∃ w',
     stop w = (w', Returned ()) ∧
     isRunning w' = false ∧ activeHandles w' = [] ∧
     killed w' = killed w ++ ((λ h, Base.handle_name (Dev.agentHandle h))
                                <$> activeHandles w) ∧
     held w' = held w ∧ files w' = files w) ∧
  (∀ state fs surroundings, ∃ w',
     stopOrchestration (Some state) fs surroundings = (w', Returned ()) ∧
     killed w' = [] ∧ held w' = state) ∧
  (∀ state fs surroundings,
     phase state = dev_sessions →
     isBlocked (blocked state) = false →
     getDevSessionsByStatus state pending = [] →
     getDevSessionsByStatus state running ≠ [] →
     ∀ fuel, (resumeOrchestration fuel (Some state) fs surroundings).2 = Unfinished).
Proof.
  split; [|split].
  - intros w. eexists. split; [reflexivity|done].
  - intros state fs surroundings. eexists. split; [reflexivity|done].
  - intros state fs surroundings Hphase Hblocked Hpending Hrunning fuel.
    unfold resumeOrchestration, resume. simpl held. rewrite Hblocked.
    erewrite andThen_returned by reflexivity.
    unfold run. by rewrite loop_stalled.
Qed.

Lemma resume_after_stop_witness :
  (resumeOrchestration 4
     (Some (held (devPhase completed_session running (twoChildren 0 0))))
     fullStore (twoChildren 0 0)).2 = Unfinished.
Proof.
  apply (proj2 (proj2 resume_after_stop)
           (held (devPhase completed_session running (twoChildren 0 0)))
           fullStore (twoChildren 0 0) eq_refl eq_refl eq_refl).
  discriminate.
Defined.

End orchestrator_blocked.
(** ** The orchestrator: the PO and the tech lead phases *)
Section orchestrator_agents.
Import Js StateStore OrchestratorRun.

Definition poDefaults : PO.POAgentConfig :=
  {| PO.readmeFile := None; PO.promptFile := None; PO.additionalContext := None |}.

Definition techLeadDefaults : TechLeadAgent.TechLeadAgentConfig :=
  {| TechLeadAgent.prdFile := None; TechLeadAgent.promptFile := None;
     TechLeadAgent.additionalContext := None |}.

Lemma spawnPOAgent_name fs config h :
  PO.spawnPOAgent fs config = Ok h → Base.handle_name h = "po".
Proof.
  unfold PO.spawnPOAgent, PO.agentConfig.
  destruct (negb _); [done|]. destruct (PO.readReadmeFile _ _); [|done]. simpl.
  unfold Base.spawnAgent. destruct (Base.validateConfig _ _); [|done]. simpl.
  by intros [= <-].
Qed.

Lemma settle_exitCodeOf e code :
  exitCodeOf e = Some code →
  ∃ r, Base.settle (Dev.childAtEnd e) (Dev.out e) (Dev.err e) (Dev.ending e) = Ok r ∧
       Base.exitCode r = code.
Proof.
  unfold exitCodeOf. destruct (Base.settle _ _ _ _) as [r|]; [|done].
  intros [= <-]. by exists r.
Qed.

Lemma status_of_code r :
  (if Base.isSuccess r then Dev.success
   else if Base.isBlocked r then Dev.blocked else Dev.error)
  = statusOf (Base.exitCode r).
Proof.
  unfold Base.isSuccess, Base.isBlocked, statusOf,
    Blocking.EXIT_CODES_SUCCESS, Blocking.EXIT_CODES_BLOCKED.
  destruct (decide (Base.exitCode r = 0)).
  - by rewrite bool_decide_eq_true_2.
  - rewrite bool_decide_eq_false_2 by done.
    destruct (decide (Base.exitCode r = 2)).
    + by rewrite bool_decide_eq_true_2.
    + by rewrite bool_decide_eq_false_2.
Qed.

Lemma runPOAgent_closed w h e code :
  PO.spawnPOAgent (files w) poDefaults = Ok h →
  agentAt (answers w) (asked w) = Some e →
  exitCodeOf e = Some code →
  ∃ r, runPOAgent w
       = (moveOn (withFiles (Dev.storeAtEnd e)
                    (withSpawned (spawned w ++ ["po"]) w)), Returned r) ∧
       PO.status r = statusOf code ∧
       PO.prdCreated r = Fs.existsSync (Dev.storeAtEnd e) PO.PRD_OUTPUT_FILE.
Proof.
  intros Hspawn Hagent Hcode.
  destruct (settle_exitCodeOf e code Hcode) as (r & Hsettle & Hr).
  unfold runPOAgent. cbv zeta. fold poDefaults.
  rewrite Hspawn, Hagent, (spawnPOAgent_name _ _ _ Hspawn).
  unfold PO.runPOAgent. rewrite Hspawn. simpl. rewrite Hsettle.
  eexists. split; [reflexivity|]. simpl. by rewrite status_of_code, Hr.
Qed.

Lemma tryCatch_returned {A} (body : Action A) handler w w' a :
  body w = (w', Returned a) → tryCatch body handler w = (w', Returned a).
Proof. intros H. unfold tryCatch. by rewrite H. Qed.

Lemma tryCatch_threw {A} (body : Action A) handler w w' f :
  body w = (w', Threw f) → tryCatch body handler w = handler f w'.
Proof. intros H. unfold tryCatch. by rewrite H. Qed.

Lemma tryCatch_unfinished {A} (body : Action A) handler w w' :
  body w = (w', Unfinished) → tryCatch body handler w = (w', Unfinished).
Proof. intros H. unfold tryCatch. by rewrite H. Qed.

Definition poFailed : Failure :=
  Message "PO agent failed to complete. Check logs for details.".

(** X28. The PO phase, by the way the child of the PO ends. If it cannot be
    spawned, the phase throws the error of the spawn. If it exits with 0
    and the PRD exists then, the phase becomes "tech_lead_design". If it
    exits with 0 without a PRD, or with a code other than 0 and 2, the
    phase throws. In these cases no current agent is recorded afterwards.
    If it exits with 2 and no question is unanswered, the phase returns
    with nothing changed but the current agent, which stays "po". If the
    child never ends, neither does the phase. *)
Theorem poPhase_outcomes w :
  (∀ f, PO.spawnPOAgent (files w) poDefaults = Throw f →
     ∃ w', poPhase w = (w', Threw (POFailure f)) ∧
           currentAgent (held w') = None ∧ phase (held w') = phase (held w) ∧
           spawned w' = spawned w) ∧
  (∀ h, PO.spawnPOAgent (files w) poDefaults = Ok h →
     (agentAt (answers w) (S (asked w)) = None → (poPhase w).2 = Unfinished) ∧
     (∀ e code,
        agentAt (answers w) (S (asked w)) = Some e →
        exitCodeOf e = Some code →
        (code = 0 →
         Fs.existsSync (Dev.storeAtEnd e) PO.PRD_OUTPUT_FILE = true →
         phase (held w) = po_conversation →
         ∃ w', poPhase w = (w', Returned ()) ∧
               phase (held w') = tech_lead_design ∧
               currentAgent (held w') = None ∧
               spawned w' = spawned w ++ ["po"]) ∧
        ((code = 0 ∧ Fs.existsSync (Dev.storeAtEnd e) PO.PRD_OUTPUT_FILE = false) ∨
         (code ≠ 0 ∧ code ≠ 2) →
         ∃ w', poPhase w = (w', Threw poFailed) ∧
               phase (held w') = phase (held w) ∧
               currentAgent (held w') = None) ∧
        (code = 2 →
         Blocking.findLatestUnansweredQuestion (Dev.storeAtEnd e) = None →
         ∃ w', poPhase w = (w', Returned ()) ∧
               phase (held w') = phase (held w) ∧
               blocked (held w') = blocked (held w) ∧
               currentAgent (held w') = Some "po"))).
Proof.
  unfold poPhase.
  set (w1 := moveOn (withHeld (setCurrentAgent (isoAt (answers w) (asked w))
                                 (held w) (Some "po")) w)).
  assert (manager (doSetCurrentAgent (Some "po")) w = (w1, Returned ())) as Hset
    by reflexivity.
  split.
  - intros f Hspawn. erewrite andThen_returned by exact Hset.
    erewrite tryCatch_threw.
    2:{ erewrite andThen_threw; [reflexivity|].
        unfold runPOAgent. cbv zeta. fold poDefaults.
        change (files w1) with (files w). rewrite Hspawn. reflexivity. }
    eexists. split; [reflexivity|done].
  - intros h Hspawn. split.
    + intros Hnever. erewrite andThen_returned by exact Hset.
      erewrite tryCatch_unfinished; [done|].
      erewrite andThen_unfinished; [reflexivity|].
      unfold runPOAgent. cbv zeta. fold poDefaults.
      change (files w1) with (files w). rewrite Hspawn.
      change (agentAt (answers w1) (asked w1))
        with (agentAt (answers w) (S (asked w))).
      rewrite Hnever. reflexivity.
    + intros e code Hagent Hcode.
      destruct (runPOAgent_closed w1 h e code Hspawn Hagent Hcode)
        as (r & Hrun & Hstatus & Hprd).
      erewrite andThen_returned by exact Hset.
      split; [|split].
      * intros -> Hcreated Hphase. eexists. split.
        -- apply tryCatch_returned.
           erewrite andThen_returned by exact Hrun.
           rewrite Hstatus, Hprd, Hcreated. simpl.
           erewrite andThen_returned by reflexivity.
           apply manager_returned. simpl.
           unfold transitionPhase, isValidTransition. simpl.
           rewrite Hphase. reflexivity.
        -- done.
      * intros Hfailed. eexists. split.
        -- erewrite tryCatch_threw; [reflexivity|].
           erewrite andThen_returned by exact Hrun.
           rewrite Hstatus, Hprd. unfold statusOf.
           destruct Hfailed as [[-> ->]|[H0 H2]]; [reflexivity|].
           rewrite !decide_False by done. reflexivity.
        -- done.
      * intros -> Hnone. eexists. split.
        -- apply tryCatch_returned.
           erewrite andThen_returned by exact Hrun.
           rewrite Hstatus. simpl.
           unfold handleBlockingForAgent. cbv zeta.
           change (files (moveOn _)) with (Dev.storeAtEnd e).
           rewrite Hnone. reflexivity.
        -- done.
Qed.

Lemma spawnTechLeadAgent_name fs config h :
  TechLeadAgent.spawnTechLeadAgent fs config = Ok h →
  Base.handle_name h = "tech_lead".
Proof.
  unfold TechLeadAgent.spawnTechLeadAgent, TechLeadAgent.agentConfig.
  destruct (negb _); [done|].
  destruct (TechLeadAgent.readPRDFile _ _); [|done]. simpl.
  unfold Base.spawnAgent. destruct (Base.validateConfig _ _); [|done]. simpl.
  by intros [= <-].
Qed.

Lemma runTechLeadAgent_closed w h e code :
  TechLeadAgent.spawnTechLeadAgent (files w) techLeadDefaults = Ok h →
  agentAt (answers w) (asked w) = Some e →
  exitCodeOf e = Some code →
  ∃ r, runTechLeadAgent w
       = (moveOn (withFiles (Dev.storeAtEnd e)
                    (withSpawned (spawned w ++ ["tech_lead"]) w)), Returned r) ∧
       TechLeadAgent.status r = statusOf code ∧
       TechLeadAgent.architectureCreated r
       = Fs.existsSync (Dev.storeAtEnd e) TechLeadAgent.ARCHITECTURE_OUTPUT_FILE.
Proof.
  intros Hspawn Hagent Hcode.
  destruct (settle_exitCodeOf e code Hcode) as (r & Hsettle & Hr).
  unfold runTechLeadAgent. cbv zeta. fold techLeadDefaults.
  rewrite Hspawn, Hagent, (spawnTechLeadAgent_name _ _ _ Hspawn).
  unfold TechLeadAgent.runTechLeadAgent. rewrite Hspawn. simpl. rewrite Hsettle.
  eexists. split; [reflexivity|]. simpl. by rewrite status_of_code, Hr.
Qed.

(** The session [addDevSession] makes of an area and its tickets. *)
Definition newSession (input : string * list Z) : DevSession :=
  {| area := input.1; tickets := input.2; status := pending |}.

Lemma addDevSessions_all sessionInputs : ∀ w,
  NoDup ((area <$> devSessions (held w)) ++ sessionInputs.*1) →
  ∃ w', addDevSessions sessionInputs w = (w', Returned ()) ∧
        frame w' = frame w ∧
        devSessions (held w') = devSessions (held w) ++ (newSession <$> sessionInputs).
Proof.
  induction sessionInputs as [|input rest IH]; intros w Hnodup.
  - exists w. simpl. by rewrite app_nil_r.
  - rewrite fmap_cons in Hnodup.
    assert (input.1 ∉ area <$> devSessions (held w)) as Hnew.
    { apply NoDup_app in Hnodup as (_ & Hdisjoint & _). intros Hin.
      apply (Hdisjoint _ Hin). apply list_elem_of_here. }
    set (w1 := moveOn (withHeld
                         (withSessions (isoAt (answers w) (asked w)) (held w)
                            (devSessions (held w) ++ [newSession input])) w)).
    assert (manager (doAddDevSession input.1 input.2) w = (w1, Returned ())) as Hadd.
    { apply manager_returned. simpl. unfold addDevSession.
      by rewrite (proj2 (findIndex_None _ _) Hnew). }
    destruct (IH w1) as (w2 & Hrest & Hframe & Hsessions).
    { simpl. rewrite fmap_app, <-app_assoc. simpl.
      apply NoDup_app in Hnodup as (Hold & Hdisjoint & Hinputs).
      apply NoDup_app. split; [done|]. split; [|done].
      intros a Hin. by apply Hdisjoint. }
    exists w2. split.
    + cbn [addDevSessions]. erewrite andThen_returned by exact Hadd. exact Hrest.
    + split; [by rewrite Hframe|]. rewrite Hsessions. simpl.
      by rewrite <-app_assoc.
Qed.

Lemma parseAreasFromIssues_areas areas getIssuesByArea :
  sublist (TechLead.area <$> TechLead.parseAreasFromIssues areas getIssuesByArea)
    areas.
Proof.
  unfold TechLead.parseAreasFromIssues.
  induction areas as [|a areas IH]; [constructor|].
  cbn [omap list_omap].
  destruct (filter _ (getIssuesByArea a)) as [|i l]; simpl.
  - by constructor.
  - by constructor.
Qed.

Definition techLeadFailed : Failure :=
  Message "Tech Lead agent failed. Check logs for details.".

(** The sessions [techLeadPhase] adds for the answers of the tracker. *)
Definition sessionsFor (labelNames : list string)
    (getIssuesByArea : string → list TechLead.Issue) : list DevSession :=
  newSession <$> TechLead.areasToDevSessionInput
                   (TechLead.parseAreasFromIssues (GitHub.getAreas labelNames)
                      getIssuesByArea).

(** X29. The tech lead phase when the child of the tech lead exits with 0 and
    the architecture exists. With the answers of the tracker, the phase
    adds one pending session for each area label under which an issue is
    open, in the order of the labels and with the numbers of the open
    issues as tickets, and becomes "dev_sessions". When a call to the
    tracker throws, the phase throws that error and adds nothing. In
    both cases no current agent is recorded afterwards. *)
Theorem techLeadPhase_adds_sessions w h e :
  TechLeadAgent.spawnTechLeadAgent (files w) techLeadDefaults = Ok h →
  agentAt (answers w) (S (asked w)) = Some e →
  exitCodeOf e = Some 0 →
  Fs.existsSync (Dev.storeAtEnd e) TechLeadAgent.ARCHITECTURE_OUTPUT_FILE = true →
  phase (held w) = tech_lead_design →
  devSessions (held w) = [] →
  (∀ labelNames getIssuesByArea,
     trackerAt (answers w) (S (S (asked w))) = Ok (labelNames, getIssuesByArea) →
     NoDup labelNames →
     ∃ w', techLeadPhase w = (w', Returned ()) ∧
           phase (held w') = dev_sessions ∧
           currentAgent (held w') = None ∧
           devSessions (held w') = sessionsFor labelNames getIssuesByArea ∧
           Forall (λ s, tickets s ≠ []) (devSessions (held w')) ∧
           spawned w' = spawned w ++ ["tech_lead"]) ∧
  (∀ message,
     trackerAt (answers w) (S (S (asked w))) = Throw message →
     ∃ w', techLeadPhase w = (w', Threw (TrackerFailure message)) ∧
           phase (held w') = tech_lead_design ∧
           currentAgent (held w') = None ∧
           devSessions (held w') = []).
Proof.
  intros Hspawn Hagent Hcode Hcreated Hphase Hnone.
  unfold techLeadPhase.
  set (w1 := moveOn (withHeld (setCurrentAgent (isoAt (answers w) (asked w))
                                 (held w) (Some "tech_lead")) w)).
  assert (manager (doSetCurrentAgent (Some "tech_lead")) w = (w1, Returned ()))
    as Hset by reflexivity.
  destruct (runTechLeadAgent_closed w1 h e 0 Hspawn Hagent Hcode)
    as (r & Hrun & Hstatus & Harch).
  set (w2 := moveOn (withFiles (Dev.storeAtEnd e)
                       (withSpawned (spawned w1 ++ ["tech_lead"]) w1))) in *.
  split.
  - intros labelNames getIssuesByArea Htracker Hnodup.
    set (inputs := TechLead.areasToDevSessionInput
                     (TechLead.parseAreasFromIssues (GitHub.getAreas labelNames)
                        getIssuesByArea)).
    destruct (addDevSessions_all inputs (moveOn w2)) as (w3 & Hadd & Hframe & Hsessions).
    { simpl. rewrite Hnone. simpl. unfold inputs, TechLead.areasToDevSessionInput.
      rewrite <-list_fmap_compose.
      assert (NoDup (TechLead.area <$> TechLead.parseAreasFromIssues
                                         (GitHub.getAreas labelNames) getIssuesByArea))
        as Hareas.
      { eapply sublist_NoDup; [by apply getAreas_NoDup|].
        apply parseAreasFromIssues_areas. }
      exact Hareas. }
    simpl in Hsessions. rewrite Hnone in Hsessions. simpl in Hsessions.
    injection Hframe as Hph Hbl Hcur Hrun3 Hact Hfiles Hsp Hk Hans.
    simpl in Hph, Hsp.
    eexists. split.
    + erewrite andThen_returned by exact Hset.
      apply tryCatch_returned.
      erewrite andThen_returned by exact Hrun.
      rewrite Hstatus, Harch, Hcreated. simpl.
      erewrite andThen_returned.
      2:{ unfold parseAreasFromIssues.
          change (trackerAt (answers w2) (asked w2))
            with (trackerAt (answers w) (S (S (asked w)))).
          rewrite Htracker. reflexivity. }
      fold inputs. erewrite andThen_returned by exact Hadd.
      erewrite andThen_returned by reflexivity.
      apply manager_returned. simpl.
      unfold transitionPhase, isValidTransition. simpl.
      rewrite Hph, Hphase. reflexivity.
    + simpl. rewrite Hsessions. split; [done|]. split; [done|].
      split; [done|]. split; [|by rewrite Hsp].
      unfold inputs, TechLead.areasToDevSessionInput.
      rewrite <-list_fmap_compose. apply Forall_fmap, Forall_forall.
      intros a Ha. simpl.
      eapply parseAreasFromIssues_tickets.
      apply list_elem_of_fmap. exists a. split; [reflexivity|exact Ha].
  - intros message Htracker. eexists. split.
    + erewrite andThen_returned by exact Hset.
      erewrite tryCatch_threw; [reflexivity|].
      erewrite andThen_returned by exact Hrun.
      rewrite Hstatus, Harch, Hcreated. simpl.
      erewrite andThen_threw; [reflexivity|].
      unfold parseAreasFromIssues.
      change (trackerAt (answers w2) (asked w2))
        with (trackerAt (answers w) (S (S (asked w)))).
      rewrite Htracker. reflexivity.
    + done.
Qed.

(** The issues of a tracker with three area labels. *)
Definition trackedIssues (a : string) : list TechLead.Issue :=
  if String.eqb a "frontend" then
    [ {| TechLead.number := 1; TechLead.state := TechLead.open |};
      {| TechLead.number := 3; TechLead.state := TechLead.open |};
      {| TechLead.number := 4; TechLead.state := TechLead.closed |} ]
  else if String.eqb a "backend" then
    [ {| TechLead.number := 2; TechLead.state := TechLead.open |} ]
  else if String.eqb a "docs" then
    [ {| TechLead.number := 9; TechLead.state := TechLead.closed |} ]
  else [].

Definition trackedLabels : list string :=
  ["bug"; "area:frontend"; "area:backend"; "area:docs"].

(** Surroundings in which every child exits with 0 and leaves the files
    of [fullStore], and the tracker answers. *)
Definition allGoesWell : Answers :=
  {| isoAt := λ _, "2026-01-01T00:00:00.000Z";
     msAt := λ _, 1767225600000;
     answerAt := λ _, "";
     agentAt := λ _, Some (childExits 0);
     trackerAt := λ _, Ok (trackedLabels, trackedIssues);
     devAt := λ _, {| runs := [childExits 0; childExits 0];
                      settled := [1; 0]%nat;
                      storeThen := fullStore |} |}.

(** The orchestrator in the given phase, before any session exists. *)
Definition inPhase (p : Phase) (surroundings : Answers) : World :=
  {| held := {| phase := p;
                blocked := notBlockedState;
                devSessions := [];
                currentAgent := None;
                lastUpdated := "2026-01-01T00:00:00.000Z" |};
     isRunning := false;
     activeHandles := [];
     files := fullStore;
     spawned := [];
     killed := [];
     asked := 0;
     answers := surroundings |}.

Lemma poPhase_outcomes_witness :
  ∃ w', poPhase (inPhase po_conversation allGoesWell) = (w', Returned ()) ∧
        phase (held w') = tech_lead_design ∧
        currentAgent (held w') = None ∧
        spawned w' = ["po"].
Proof.
  apply (proj1 (proj2 (proj2 (poPhase_outcomes (inPhase po_conversation allGoesWell))
                         {| Base.handle_name := "po" |} eq_refl)
                  (childExits 0) 0 eq_refl eq_refl));
    reflexivity.
Defined.

Lemma trackedLabels_NoDup : NoDup trackedLabels.
Proof. apply (bool_decide_unpack _). vm_compute. exact I. Qed.

Lemma techLeadPhase_adds_sessions_witness :
  ∃ w', techLeadPhase (inPhase tech_lead_design allGoesWell) = (w', Returned ()) ∧
        phase (held w') = dev_sessions ∧
        devSessions (held w')
        = [ {| area := "frontend"; tickets := [1; 3]; status := pending |};
            {| area := "backend"; tickets := [2]; status := pending |} ].
Proof.
  destruct (proj1 (techLeadPhase_adds_sessions (inPhase tech_lead_design allGoesWell)
                     {| Base.handle_name := "tech_lead" |} (childExits 0)
                     eq_refl eq_refl eq_refl eq_refl eq_refl eq_refl)
              trackedLabels trackedIssues eq_refl trackedLabels_NoDup)
    as (w' & Hphase & Hp & _ & Hs & _).
  exists w'. split; [exact Hphase|]. split; [exact Hp|]. exact Hs.
Defined.

(** A whole orchestration, from a new state: the PO, the tech lead and
    two dev sessions, every child exiting with 0. *)
Example orchestration_completes :
  ∃ w', runOrchestration 5 None fullStore allGoesWell
        = (w', Returned {| finalPhase := completed; success := true;
                           error := None |}) ∧
        spawned w' = ["po"; "tech_lead"; "dev-frontend"; "dev-backend"] ∧
        devSessions (held w')
        = [ {| area := "frontend"; tickets := [1; 3]; status := completed_session |};
            {| area := "backend"; tickets := [2]; status := completed_session |} ].
Proof. eexists. split; [vm_compute; reflexivity|]. by split. Qed.

(** The same, but the child of the backend session exits with 1: the
    orchestration has not returned, whatever the number of rounds. *)
Example orchestration_hangs :
  (runOrchestration 50 None fullStore
     {| isoAt := isoAt allGoesWell; msAt := msAt allGoesWell;
        answerAt := answerAt allGoesWell; agentAt := agentAt allGoesWell;
        trackerAt := trackerAt allGoesWell;
        devAt := devAt (twoChildren 0 1) |}).2 = Unfinished.
Proof. vm_compute. reflexivity. Qed.

End orchestrator_agents.

(** ** The orchestrator: a session that cannot be started *)
Section orchestrator_spawn_failure.
Import Js StateStore OrchestratorRun.

Lemma filter_mark_pending (sessions : list DevSession) :
  filter (λ s, status s = pending) (mark <$> sessions) = [].
Proof. apply filter_none, Forall_fmap, Forall_forall. by intros s _. Qed.

Lemma filter_mark_running (sessions : list DevSession) :
  filter (λ s, status s = running) (mark <$> sessions) = mark <$> sessions.
Proof. apply filter_all, Forall_fmap, Forall_forall. by intros s _. Qed.

(** X30. When [spawnDevSessions] throws in the first round of the dev
    phase, every session has been marked running before, the children
    spawned before the throw are left without a handle, and [run] reports
    the error with the final phase "dev_sessions". A later [run] on that
    state never returns: no session is pending and no handle is held. *)
Theorem run_after_spawn_failure w f :
  phase (held w) = dev_sessions →
  devSessions (held w) ≠ [] →
  Forall (λ s, status s = pending) (devSessions (held w)) →
  NoDup (area <$> devSessions (held w)) →
  activeHandles w = [] →
  (Dev.spawnDevSessions (files w) defaults (inputOf <$> devSessions (held w))).2
  = Throw f →
  ∀ fuel, ∃ w',
    run (S fuel) w
    = (w', Returned {| finalPhase := dev_sessions; success := false;
                       error := Some (DevFailure f) |}) ∧
    devSessions (held w') = mark <$> devSessions (held w) ∧
    activeHandles w' = [] ∧
    spawned w'
    = spawned w
      ++ (Dev.spawnDevSessions (files w) defaults
            (inputOf <$> devSessions (held w))).1 ∧
    ∀ fuel', (run fuel' w').2 = Unfinished.
Proof.
  intros Hphase Hsome Hpending Hnodup Hhandles Hthrow fuel.
  set (sessions := devSessions (held w)) in *.
  destruct (markRunning_all sessions [] (withIsRunning true w))
    as (w1 & Hmark & Hframe & _ & Hs1); [done|done|].
  simpl in Hs1.
  injection Hframe as Hph1 Hbl1 Hcur1 Hrun1 Hact1 Hfiles1 Hsp1 Hk1 Hans1.
  simpl in Hph1, Hrun1, Hact1, Hfiles1, Hsp1.
  set (started := Dev.spawnDevSessions (files w) defaults (inputOf <$> sessions)) in *.
  set (w2 := withSpawned (spawned w1 ++ started.1) w1).
  assert (devSessionsPhase (withIsRunning true w) = (w2, Threw (DevFailure f)))
    as Hround.
  { unfold devSessionsPhase, getDevSessionsByStatus. simpl held. fold sessions.
    rewrite (filter_all (λ s, status s = pending)) by done.
    rewrite (bool_decide_eq_false_2 (sessions = [])) by done.
    cbn [andb negb]. cbv iota zeta. fold inputOf.
    erewrite andThen_threw; [reflexivity|].
    erewrite andThen_returned by exact Hmark.
    unfold spawnSessions. cbv zeta.
    change {| Dev.parallel := None; Dev.prdFile := None;
              Dev.architectureFile := None; Dev.promptFile := None |} with defaults.
    rewrite Hfiles1. fold started. by rewrite Hthrow. }
  assert (stalled (withIsRunning true w2)) as Hstalled.
  { split; [simpl; congruence|]. unfold getDevSessionsByStatus. simpl.
    rewrite Hs1, filter_mark_pending, filter_mark_running.
    split; [done|]. split; [by destruct sessions|]. congruence. }
  exists w2. split.
  - unfold run. cbn [loop]. simpl isRunning. simpl held.
    unfold isComplete at 1. rewrite Hphase. simpl.
    erewrite andThen_threw by exact Hround. simpl. by rewrite Hph1, Hphase.
  - split; [exact Hs1|]. split; [simpl; congruence|].
    split; [simpl; by rewrite Hsp1|].
    intros fuel'. unfold run. by rewrite loop_stalled.
Qed.

Lemma run_after_spawn_failure_witness :
  ∃ w', run 1 (withFiles [] (devPhase pending pending (twoChildren 0 0)))
        = (w', Returned {| finalPhase := dev_sessions; success := false;
                           error := Some (DevFailure
                                            (Dev.DevFailure
                                               (Dev.DevPromptFileNotFound
                                                  "prompts/dev.md"))) |}) ∧
        status <$> devSessions (held w') = [running; running] ∧
        (run 8 w').2 = Unfinished.
Proof.
  destruct (run_after_spawn_failure
              (withFiles [] (devPhase pending pending (twoChildren 0 0)))
              (Dev.DevFailure (Dev.DevPromptFileNotFound "prompts/dev.md"))
              eq_refl ltac:(discriminate)
              (proj1 (proj2 (proj2 (devPhase_ready (twoChildren 0 0)))))
              (proj1 (proj2 (proj2 (proj2 (devPhase_ready (twoChildren 0 0))))))
              eq_refl eq_refl 0%nat)
    as (w' & Hrun & Hs & _ & _ & Hlater).
  exists w'. split; [exact Hrun|]. split; [by rewrite Hs|]. apply Hlater.
Defined.

(** Two sessions, the second without tickets: the child of the first
    is spawned and forgotten, and both sessions stay marked running. *)
Example child_spawned_and_forgotten :
  let start :=
    withHeld {| phase := dev_sessions; blocked := notBlockedState;
                devSessions :=
                  [ {| area := "frontend"; tickets := [1]; status := pending |};
                    {| area := "backend"; tickets := []; status := pending |} ];
                currentAgent := None; lastUpdated := "" |}
      (devPhase pending pending (twoChildren 0 0)) in
  ∃ w', run 1 start
        = (w', Returned {| finalPhase := dev_sessions; success := false;
                           error := Some (DevFailure
                                            (Dev.DevFailure Dev.TicketRequired)) |}) ∧
        spawned w' = ["po"; "tech_lead"; "dev-frontend"] ∧
        activeHandles w' = [] ∧
        status <$> devSessions (held w') = [running; running].
Proof. intros start. eexists. split; [vm_compute; reflexivity|]. by repeat split. Qed.

End orchestrator_spawn_failure.
